(** * AArch64PostLegalizerCombiner: post-legalization combines on generic
      machine instructions

    A shallow embedding of
    [llvm/lib/Target/AArch64/GISel/AArch64PostLegalizerCombiner.cpp]
    and the properties of its rewrite rules.

    Layout: the data model (types, operands, instructions, register info),
    the helper queries the matchers call, the match/apply pair of each rule
    and the pass around them; then the vocabulary of the specification, with
    a reference interpreter for the generic opcodes the rules touch; and
    finally the properties. *)

From Stdlib Require Import String.
From Stdlib Require Import ZArith List Bool Lia Arith.
Import ListNotations.
Open Scope Z_scope.

(** ** Aborting computations

    The C++ code asserts, casts and dereferences pointers.  A computation
    that hits a failed assertion, an operand index out of range, an operand
    of the wrong kind or a null dereference yields [Abort]; a call to
    [report_fatal_error] yields [Fatal]. *)

Inductive Res (A : Type) : Type :=
| Ok (a : A)
| Abort
| Fatal (msg : string).

Arguments Ok {A} a.
Arguments Abort {A}.
Arguments Fatal {A} msg.

Definition bind {A B : Type} (m : Res A) (k : A -> Res B) : Res B :=
  match m with
  | Ok a => k a
  | Abort => Abort
  | Fatal msg => Fatal msg
  end.

Notation "x <- m ;; k" := (bind m (fun x => k))
  (at level 61, m at next level, right associativity).

Definition assert (b : bool) : Res unit := if b then Ok tt else Abort.

Definition deref {A : Type} (p : option A) : Res A :=
  match p with
  | Some a => Ok a
  | None => Abort
  end.

(** ** Arbitrary-precision integers of a fixed bit width *)

(** Modelled from the spec: llvm::APInt (llvm/ADT/APInt.h) is not part of
    the translated file; the rule text speaks of a constant "interpreted
    as a signed width-W integer", its "trailing zero bits", an
    "arithmetic shift", "power of two" and "log2".  A value is its bit
    width together with its unsigned representative; every operation
    wraps at the width. *)
Module APInt.

Record t : Type := mk { BitWidth : Z; Val : Z }.

Definition make (w v : Z) : t := mk w (v mod 2 ^ w).

Definition wf (a : t) : Prop :=
  0 < BitWidth a /\ 0 <= Val a < 2 ^ BitWidth a.

(** The value read as a two's complement number. *)
Definition sval (a : t) : Z :=
  if Val a <? 2 ^ (BitWidth a - 1) then Val a else Val a - 2 ^ BitWidth a.

Definition isNonNegative (a : t) : bool := Val a <? 2 ^ (BitWidth a - 1).

Definition isZero (a : t) : bool := Val a =? 0.

(** [sext] asserts that the new width is not smaller. *)
Definition sext (a : t) (w : Z) : Res t :=
  _ <- assert (BitWidth a <=? w) ;;
  Ok (make w (sval a)).

Definition zext (a : t) (w : Z) : Res t :=
  _ <- assert (BitWidth a <=? w) ;;
  Ok (make w (Val a)).

Definition trunc (a : t) (w : Z) : Res t :=
  _ <- assert (w <=? BitWidth a) ;;
  Ok (make w (Val a)).

Fixpoint ctz_pos (p : positive) : Z :=
  match p with
  | xO q => Z.succ (ctz_pos q)
  | _ => 0
  end.

(** The number of trailing zero bits; the bit width for the value zero. *)
Definition countr_zero (a : t) : Z :=
  match Val a with
  | Zpos p => ctz_pos p
  | _ => BitWidth a
  end.

Fixpoint is_pow2_pos (p : positive) : bool :=
  match p with
  | xH => true
  | xO q => is_pow2_pos q
  | xI _ => false
  end.

(** Exactly one bit set. *)
Definition isPowerOf2 (a : t) : bool :=
  match Val a with
  | Zpos p => is_pow2_pos p
  | _ => false
  end.

(** Index of the highest set bit (only used on powers of two). *)
Definition logBase2 (a : t) : Z := Z.log2 (Val a).

Definition ashr (a : t) (s : Z) : t :=
  make (BitWidth a) (Z.shiftr (sval a) s).

Definition shl (a : t) (s : Z) : t :=
  make (BitWidth a) (Z.shiftl (Val a) s).

Definition add (a : t) (k : Z) : t := make (BitWidth a) (Val a + k).
Definition sub (a : t) (k : Z) : t := make (BitWidth a) (Val a - k).
Definition neg (a : t) : t := make (BitWidth a) (- Val a).

Definition eqb (a b : t) : bool :=
  (BitWidth a =? BitWidth b) && (Val a =? Val b).

End APInt.

(** ** Low-level types, operands and instructions *)

Definition Register := nat.
Bind Scope nat_scope with Register.

(** Modelled from the spec: the low-level type LLT is declared outside the
    translated file; a register has "an associated semantic type (scalar
    width, vector element count/width, or pointer)".  The invalid type is
    what [MRI.getType] returns for a register that has no type. *)
Inductive LLT : Type :=
| LLT_invalid
| LLT_scalar (SizeInBits : Z)
| LLT_fixed_vector (NumElements : Z) (ScalarSizeInBits : Z)
| LLT_pointer (AddressSpace : Z) (SizeInBits : Z).

Definition LLT_eqb (a b : LLT) : bool :=
  match a, b with
  | LLT_invalid, LLT_invalid => true
  | LLT_scalar s, LLT_scalar s' => s =? s'
  | LLT_fixed_vector n s, LLT_fixed_vector n' s' => (n =? n') && (s =? s')
  | LLT_pointer a s, LLT_pointer a' s' => (a =? a') && (s =? s')
  | _, _ => false
  end.

Definition isVector (ty : LLT) : bool :=
  match ty with LLT_fixed_vector _ _ => true | _ => false end.

Definition isScalar (ty : LLT) : bool :=
  match ty with LLT_scalar _ => true | _ => false end.

(** [getSizeInBits] asserts on an invalid type. *)
Definition getSizeInBits (ty : LLT) : Res Z :=
  match ty with
  | LLT_invalid => Abort
  | LLT_scalar s => Ok s
  | LLT_fixed_vector n s => Ok (n * s)
  | LLT_pointer _ s => Ok s
  end.

Definition getScalarSizeInBits (ty : LLT) : Res Z :=
  match ty with
  | LLT_invalid => Abort
  | LLT_scalar s => Ok s
  | LLT_fixed_vector _ s => Ok s
  | LLT_pointer _ s => Ok s
  end.

(** Modelled from the spec: the opcode enumeration is declared outside the
    translated file; these are the opcodes the rules inspect or emit. *)
Inductive Opcode : Type :=
| COPY | DBG_VALUE
| G_CONSTANT | G_IMPLICIT_DEF
| G_ADD | G_SUB | G_MUL | G_PTR_ADD | G_SHL
| G_SEXT | G_SEXT_INREG | G_ZEXT | G_ANYEXT | G_TRUNC | G_INTTOPTR
| G_ICMP | G_FCMP | G_FADD
| G_MERGE_VALUES | G_UNMERGE_VALUES
| G_BUILD_VECTOR | G_BUILD_VECTOR_TRUNC
| G_SHUFFLE_VECTOR | G_EXTRACT_VECTOR_ELT
| G_LOAD | G_STORE.

Definition Opcode_eq_dec (a b : Opcode) : {a = b} + {a <> b}.
Proof. decide equality. Defined.

Definition Opcode_eqb (a b : Opcode) : bool :=
  if Opcode_eq_dec a b then true else false.

(** Modelled from the spec: MachineMemOperand is declared outside the
    translated file; it is the "memory access descriptor" of a load or
    store, with its "alignment/ordering metadata". *)
Record MachineMemOperand : Type := {
  MMO_Offset : Z;          (* byte offset of the pointer info *)
  MMO_MemoryType : LLT;    (* type of the value in memory *)
  MMO_BaseAlign : Z;
  MMO_isVolatile : bool;
  MMO_isAtomic : bool
}.

(** Modelled from the spec: MachineOperand and MachineInstr are declared
    outside the translated file; an instruction is "an opcode tag, an
    ordered list of operand registers (one designated as destination for
    value-producing ops), and opcode-specific immediate/auxiliary data
    (e.g. a shuffle permutation, a memory access descriptor)".  Results
    come first in the operand list and are marked as definitions. *)
Inductive MachineOperand : Type :=
| MO_Register (isDef : bool) (Reg : Register)
| MO_CImmediate (CI : APInt.t)
| MO_Immediate (Imm : Z)
| MO_ShuffleMask (Mask : list Z)
| MO_Predicate (Pred : Z).

Record MachineInstr : Type := {
  Opc : Opcode;
  Operands : list MachineOperand;
  MemOperands : list MachineMemOperand
}.

Definition getOpcode (MI : MachineInstr) : Opcode := Opc MI.

Definition getOperand (MI : MachineInstr) (i : nat) : Res MachineOperand :=
  deref (nth_error (Operands MI) i).

Definition getReg (MO : MachineOperand) : Res Register :=
  match MO with
  | MO_Register _ r => Ok r
  | _ => Abort
  end.

Definition getShuffleMask (MO : MachineOperand) : Res (list Z) :=
  match MO with
  | MO_ShuffleMask m => Ok m
  | _ => Abort
  end.

Definition getOperandReg (MI : MachineInstr) (i : nat) : Res Register :=
  MO <- getOperand MI i ;; getReg MO.

(** Instruction builders for the common operand shapes. *)
Definition def (r : Register) : MachineOperand := MO_Register true r.
Definition use (r : Register) : MachineOperand := MO_Register false r.

Definition mkInstr (o : Opcode) (ops : list MachineOperand) : MachineInstr :=
  {| Opc := o; Operands := ops; MemOperands := [] |}.

(** ** Register information *)

(** Modelled from the spec: MachineRegisterInfo is declared outside the
    translated file; the instruction graph "exposes lookup of an
    instruction's operands, a register's defining instruction, and a
    register's use list".  It is kept as the instructions of the function
    in program order and the type of every virtual register.  A pointer to
    an instruction is its position together with the instruction; two
    pointers are equal when the positions are. *)
Record MachineRegisterInfo : Type := {
  Insts : list MachineInstr;
  VRegToType : list LLT
}.

Definition MIPtr : Type := (nat * MachineInstr)%type.

Definition MIPtr_eqb (p q : option MIPtr) : bool :=
  match p, q with
  | None, None => true
  | Some (i, _), Some (j, _) => Nat.eqb i j
  | _, _ => false
  end.

Definition getType (MRI : MachineRegisterInfo) (r : Register) : LLT :=
  nth r (VRegToType MRI) LLT_invalid.

Definition isDefOf (r : Register) (MO : MachineOperand) : bool :=
  match MO with
  | MO_Register true r' => Nat.eqb r r'
  | _ => false
  end.

Definition isUseOf (r : Register) (MO : MachineOperand) : bool :=
  match MO with
  | MO_Register false r' => Nat.eqb r r'
  | _ => false
  end.

Definition definesReg (r : Register) (MI : MachineInstr) : bool :=
  existsb (isDefOf r) (Operands MI).

Definition readsReg (r : Register) (MI : MachineInstr) : bool :=
  existsb (isUseOf r) (Operands MI).

Fixpoint findInstr (p : MachineInstr -> bool) (l : list MachineInstr)
    (i : nat) : option MIPtr :=
  match l with
  | [] => None
  | MI :: l' => if p MI then Some (i, MI) else findInstr p l' (S i)
  end.

(** Modelled from the spec: "a register's defining instruction", the
    instruction that has [r] among its results; null when there is
    none. *)
Definition getVRegDef (MRI : MachineRegisterInfo) (r : Register)
    : option MIPtr :=
  findInstr (definesReg r) (Insts MRI) 0%nat.

Definition isDebugInstr (MI : MachineInstr) : bool :=
  Opcode_eqb (Opc MI) DBG_VALUE.

(** Modelled from the spec: "a register's use list", here the number of
    use operands of [r] outside debug instructions. *)
Definition countNonDBGUses (MRI : MachineRegisterInfo) (r : Register) : nat :=
  fold_right
    (fun MI n =>
       if isDebugInstr MI then n
       else (length (filter (isUseOf r) (Operands MI)) + n)%nat)
    0%nat (Insts MRI).

Definition hasOneNonDBGUse (MRI : MachineRegisterInfo) (r : Register) : bool :=
  Nat.eqb (countNonDBGUses MRI r) 1.

(** Modelled from the spec: the first instruction on "a register's use
    list", debug instructions included; the use list is taken in program
    order. *)
Definition use_instr_begin (MRI : MachineRegisterInfo) (r : Register)
    : option MIPtr :=
  findInstr (readsReg r) (Insts MRI) 0%nat.

(** ** Helper queries of the GlobalISel utilities *)

Definition res_to_option {A : Type} (r : Res A) : option A :=
  match r with
  | Ok a => Some a
  | _ => None
  end.

Record ValueAndVReg : Type := { Value : APInt.t; VReg : Register }.

(** Re-apply the extensions and truncations seen on the way to the
    constant, last seen first. *)
Fixpoint reapplySeenOpcodes (Seen : list (Opcode * Z)) (v : APInt.t)
    : option APInt.t :=
  match Seen with
  | [] => Some v
  | (o, sz) :: rest =>
      let r :=
        match o with
        | G_TRUNC => res_to_option (APInt.trunc v sz)
        | G_ANYEXT | G_SEXT => res_to_option (APInt.sext v sz)
        | G_ZEXT => res_to_option (APInt.zext v sz)
        | _ => Some v
        end in
      match r with
      | Some v' => reapplySeenOpcodes rest v'
      | None => None
      end
  end.

(** Modelled from the spec: the constant lookup of
    llvm/lib/CodeGen/GlobalISel/Utils.cpp is not part of the translated
    file; the rule text asks for a register that is "a compile-time integer
    constant".  A register is such a constant when its definition is a
    G_CONSTANT, possibly reached through copies, truncations and sign or
    zero extensions (any-extensions only on request), whose effect on the
    value is replayed.  The walk is bounded by [fuel]; with
    [LookThroughInstrs] off only a direct G_CONSTANT definition counts. *)
Fixpoint getConstantVRegValWithLookThrough (fuel : nat)
    (MRI : MachineRegisterInfo) (LookThroughInstrs LookThroughAnyExt : bool)
    (R : Register) (Seen : list (Opcode * Z)) : option ValueAndVReg :=
  match fuel with
  | O => None
  | S fuel' =>
      match getVRegDef MRI R with
      | None => None
      | Some (_, MI) =>
          match Opc MI, Operands MI with
          | G_CONSTANT, [_; MO_CImmediate c] =>
              match reapplySeenOpcodes Seen c with
              | Some v => Some {| Value := v; VReg := R |}
              | None => None
              end
          | (G_TRUNC | G_SEXT | G_ZEXT) as o, [_; MO_Register _ src] =>
              if LookThroughInstrs then
                match getSizeInBits (getType MRI R) with
                | Ok sz =>
                    getConstantVRegValWithLookThrough fuel' MRI
                      LookThroughInstrs LookThroughAnyExt src ((o, sz) :: Seen)
                | _ => None
                end
              else None
          | G_ANYEXT, [_; MO_Register _ src] =>
              if LookThroughInstrs && LookThroughAnyExt then
                match getSizeInBits (getType MRI R) with
                | Ok sz =>
                    getConstantVRegValWithLookThrough fuel' MRI
                      LookThroughInstrs LookThroughAnyExt src
                      ((G_ANYEXT, sz) :: Seen)
                | _ => None
                end
              else None
          | (COPY | G_INTTOPTR), [_; MO_Register _ src] =>
              if LookThroughInstrs then
                getConstantVRegValWithLookThrough fuel' MRI
                  LookThroughInstrs LookThroughAnyExt src Seen
              else None
          | _, _ => None
          end
      end
  end.

Definition getIConstantVRegValWithLookThrough (R : Register)
    (MRI : MachineRegisterInfo) : option ValueAndVReg :=
  getConstantVRegValWithLookThrough (S (length (Insts MRI))) MRI
    true false R [].

Definition getAnyConstantVRegValWithLookThrough (R : Register)
    (MRI : MachineRegisterInfo) : option ValueAndVReg :=
  getConstantVRegValWithLookThrough (S (length (Insts MRI))) MRI
    true true R [].

Definition getIConstantVRegVal (R : Register) (MRI : MachineRegisterInfo)
    : option APInt.t :=
  match getConstantVRegValWithLookThrough (S (length (Insts MRI))) MRI
          false false R [] with
  | Some c => Some (Value c)
  | None => None
  end.

(** Modelled from the spec: the pattern matcher [m_SpecificICst] of
    MIPatternMatch.h is not part of the translated file; "second source a
    constant zero".  It holds when the register itself is defined by an
    integer constant of at most 64 bits whose signed value is the
    requested one. *)
Definition m_SpecificICst (RequestedVal : Z) (R : Register)
    (MRI : MachineRegisterInfo) : bool :=
  match getIConstantVRegVal R MRI with
  | Some c => (APInt.BitWidth c <=? 64) && (APInt.sval c =? RequestedVal)
  | None => false
  end.

(** Modelled from the spec: [getDefIgnoringCopies] of Utils.cpp is not part
    of the translated file; a value "produced by" an operation is the
    result of that operation or a copy of it.  The walk follows COPY
    instructions while the copied register has a valid type. *)
Fixpoint getDefIgnoringCopiesFrom (fuel : nat) (MRI : MachineRegisterInfo)
    (DefMI : MIPtr) : option MIPtr :=
  match fuel with
  | O => Some DefMI
  | S fuel' =>
      match Opc (snd DefMI), Operands (snd DefMI) with
      | COPY, _ :: MO_Register _ SrcReg :: _ =>
          match getType MRI SrcReg with
          | LLT_invalid => Some DefMI
          | _ =>
              match getVRegDef MRI SrcReg with
              | Some DefMI' => getDefIgnoringCopiesFrom fuel' MRI DefMI'
              | None => None
              end
          end
      | _, _ => Some DefMI
      end
  end.

Definition getDefIgnoringCopies (R : Register) (MRI : MachineRegisterInfo)
    : option MIPtr :=
  match getVRegDef MRI R with
  | None => None
  | Some DefMI =>
      match Operands (snd DefMI) with
      | MO_Register _ d :: _ =>
          match getType MRI d with
          | LLT_invalid => None
          | _ => getDefIgnoringCopiesFrom (length (Insts MRI)) MRI DefMI
          end
      | _ => None
      end
  end.

(** The definition of [R], copies ignored, when it has opcode [o]. *)
Definition getOpcodeDef (o : Opcode) (R : Register)
    (MRI : MachineRegisterInfo) : option MIPtr :=
  match getDefIgnoringCopies R MRI with
  | Some DefMI => if Opcode_eqb (Opc (snd DefMI)) o then Some DefMI else None
  | None => None
  end.

(** All elements of a build vector are the same constant. *)
Fixpoint getAnyConstantSplatOps (MRI : MachineRegisterInfo)
    (ops : list MachineOperand) (Splat : option ValueAndVReg)
    : option ValueAndVReg :=
  match ops with
  | [] => Splat
  | MO_Register _ r :: ops' =>
      match getAnyConstantVRegValWithLookThrough r MRI with
      | None => None
      | Some Elt =>
          match Splat with
          | None => getAnyConstantSplatOps MRI ops' (Some Elt)
          | Some SplatVal =>
              if APInt.eqb (Value SplatVal) (Value Elt)
              then getAnyConstantSplatOps MRI ops' Splat
              else None
          end
      end
  | _ :: _ => None
  end.

Definition isBuildVectorOp (o : Opcode) : bool :=
  Opcode_eqb o G_BUILD_VECTOR || Opcode_eqb o G_BUILD_VECTOR_TRUNC.

Definition getIConstantSplatVal (R : Register) (MRI : MachineRegisterInfo)
    : option APInt.t :=
  match getDefIgnoringCopies R MRI with
  | None => None
  | Some (_, MI) =>
      if isBuildVectorOp (Opc MI) then
        match getAnyConstantSplatOps MRI (tl (Operands MI)) None with
        | Some SplatVal => Some (Value SplatVal)
        | None => None
        end
      else None
  end.

(** Modelled from the spec: [isConstantOrConstantSplatVector] of Utils.cpp
    is not part of the translated file; the stored value is "a constant (or
    uniformly-zero splat)".  The first result of [MI] is an integer
    constant, or a build vector all of whose elements are one and the same
    constant; the answer is that constant at the scalar width. *)
Definition isConstantOrConstantSplatVector (MI : MachineInstr)
    (MRI : MachineRegisterInfo) : Res (option APInt.t) :=
  Def <- getOperandReg MI 0 ;;
  match getIConstantVRegValWithLookThrough Def MRI with
  | Some C => Ok (Some (Value C))
  | None =>
      match getIConstantSplatVal Def MRI with
      | None => Ok None
      | Some Cst =>
          ScalarSize <- getScalarSizeInBits (getType MRI Def) ;;
          Ok (Some (APInt.make ScalarSize (APInt.sval Cst)))
      end
  end.

(** ** The instruction builder *)

(** Modelled from the spec: MachineIRBuilder is declared outside the
    translated file; the graph "supports instruction insertion (with a
    build-position cursor), instruction deletion ..., and in-place
    instruction mutation".  The builder owns the function being rewritten
    and an insertion point.  [setInstrAndDebugLoc] puts the insertion point
    in front of an instruction, so that [InsertPt] is at every moment the
    position of that instruction: each built instruction goes in front of
    it and moves it one place down. *)
Record MachineIRBuilder : Type := {
  B_MRI : MachineRegisterInfo;
  InsertPt : nat
}.

Definition BM (A : Type) : Type :=
  MachineIRBuilder -> Res (A * MachineIRBuilder).

Definition retB {A : Type} (a : A) : BM A := fun B => Ok (a, B).

Definition bindB {A C : Type} (m : BM A) (k : A -> BM C) : BM C :=
  fun B =>
    match m B with
    | Ok (a, B') => k a B'
    | Abort => Abort
    | Fatal msg => Fatal msg
    end.

Definition liftB {A : Type} (r : Res A) : BM A :=
  fun B =>
    match r with
    | Ok a => Ok (a, B)
    | Abort => Abort
    | Fatal msg => Fatal msg
    end.

Notation "x <~ m ;; k" := (bindB m (fun x => k))
  (at level 61, m at next level, right associativity).

Definition insertAt {A : Type} (n : nat) (x : A) (l : list A) : list A :=
  firstn n l ++ x :: skipn n l.

Definition removeAt {A : Type} (n : nat) (l : list A) : list A :=
  firstn n l ++ skipn (S n) l.

Definition setInstrAndDebugLoc (pos : nat) : BM unit :=
  fun B => Ok (tt, {| B_MRI := B_MRI B; InsertPt := pos |}).

Definition createGenericVirtualRegister (ty : LLT) : BM Register :=
  fun B =>
    let MRI := B_MRI B in
    Ok (length (VRegToType MRI),
        {| B_MRI := {| Insts := Insts MRI;
                       VRegToType := VRegToType MRI ++ [ty] |};
           InsertPt := InsertPt B |}).

Definition insertInstr (MI : MachineInstr) : BM unit :=
  fun B =>
    let MRI := B_MRI B in
    Ok (tt,
        {| B_MRI := {| Insts := insertAt (InsertPt B) MI (Insts MRI);
                       VRegToType := VRegToType MRI |};
           InsertPt := S (InsertPt B) |}).

(** The instruction the insertion point stands in front of. *)
Definition currentInstr : BM MachineInstr :=
  fun B =>
    match nth_error (Insts (B_MRI B)) (InsertPt B) with
    | Some MI => Ok (MI, B)
    | None => Abort
    end.

(** [MI.eraseFromParent()] for the instruction at the insertion point. *)
Definition eraseFromParent : BM unit :=
  fun B =>
    let MRI := B_MRI B in
    Ok (tt,
        {| B_MRI := {| Insts := removeAt (InsertPt B) (Insts MRI);
                       VRegToType := VRegToType MRI |};
           InsertPt := InsertPt B |}).

(** [buildInstr(Opc, {Ty}, {Srcs...})]: a fresh result register. *)
Definition buildInstr (o : Opcode) (ty : LLT) (srcs : list Register)
    : BM Register :=
  r <~ createGenericVirtualRegister ty ;;
  _ <~ insertInstr (mkInstr o (def r :: map use srcs)) ;;
  retB r.

(** [buildInstr(Opc, {DstReg}, {Srcs...})]: a given result register. *)
Definition buildInstrTo (o : Opcode) (DstReg : Register)
    (srcs : list Register) : BM unit :=
  insertInstr (mkInstr o (def DstReg :: map use srcs)).

(** [buildConstant(Ty, Val)]: for a vector type the scalar constant is
    splatted with a build vector. *)
Definition buildConstant (ty : LLT) (v : Z) : BM Register :=
  match ty with
  | LLT_fixed_vector n s =>
      e <~ createGenericVirtualRegister (LLT_scalar s) ;;
      _ <~ insertInstr
             (mkInstr G_CONSTANT [def e; MO_CImmediate (APInt.make s v)]) ;;
      buildInstr G_BUILD_VECTOR ty (repeat e (Z.to_nat n))
  | _ =>
      sz <~ liftB (getScalarSizeInBits ty) ;;
      r <~ createGenericVirtualRegister ty ;;
      _ <~ insertInstr
             (mkInstr G_CONSTANT [def r; MO_CImmediate (APInt.make sz v)]) ;;
      retB r
  end.

Definition buildShl (ty : LLT) (src amt : Register) : BM Register :=
  buildInstr G_SHL ty [src; amt].

Definition buildCopy (DstReg SrcReg : Register) : BM unit :=
  buildInstrTo COPY DstReg [SrcReg].

Definition buildPtrAdd (ty : LLT) (base off : Register) : BM Register :=
  buildInstr G_PTR_ADD ty [base; off].

Definition buildExtractVectorElement (ty : LLT) (vec idx : Register)
    : BM Register :=
  buildInstr G_EXTRACT_VECTOR_ELT ty [vec; idx].

Definition buildStore (val addr : Register) (MMO : MachineMemOperand)
    : BM unit :=
  insertInstr {| Opc := G_STORE; Operands := [use val; use addr];
                 MemOperands := [MMO] |}.

(** ** Rule: multiply by a constant *)

Definition isSignExtended (R : Register) (MRI : MachineRegisterInfo)
    : Res bool :=
  DefMI <- deref (getVRegDef MRI R) ;;
  let Opc := getOpcode (snd DefMI) in
  Ok (Opcode_eqb Opc G_SEXT || Opcode_eqb Opc G_SEXT_INREG).

Definition isZeroExtended (R : Register) (MRI : MachineRegisterInfo)
    : Res bool :=
  DefMI <- deref (getVRegDef MRI R) ;;
  Ok (Opcode_eqb (getOpcode (snd DefMI)) G_ZEXT).

(** What the closure [ApplyFn] captures by value. *)
Record MulConstApplyFn : Type := {
  ShiftAmt : Z;
  AddSubOpc : Opcode;
  ShiftValUseIsLHS : bool;
  NegateResult : bool;
  TrailingZeroes : Z;
  Ty : LLT;
  LHS : Register
}.

(** The result is [Ok None] for [return false] and [Ok (Some fn)] for
    [return true] with the closure stored in [ApplyFn]. *)
Definition matchAArch64MulConstCombine (MI : MachineInstr)
    (MRI : MachineRegisterInfo) : Res (option MulConstApplyFn) :=
  _ <- assert (Opcode_eqb (getOpcode MI) G_MUL) ;;
  LHS <- getOperandReg MI 1 ;;
  RHS <- getOperandReg MI 2 ;;
  Dst <- getOperandReg MI 0 ;;
  let Ty := getType MRI LHS in
  (* The below optimizations require a constant RHS. *)
  match getIConstantVRegValWithLookThrough RHS MRI with
  | None => Ok None
  | Some Const =>
      W <- getSizeInBits Ty ;;
      ConstValue <- APInt.sext (Value Const) W ;;
      let TrailingZeroes := APInt.countr_zero ConstValue in
      bail <-
        (if TrailingZeroes =? 0 then Ok false
         else
           (* the mul might be folded into smul or umul *)
           ext <-
             (if hasOneNonDBGUse MRI LHS then
                s <- isSignExtended LHS MRI ;;
                if s then Ok true else isZeroExtended LHS MRI
              else Ok false) ;;
           if ext then Ok true
           else
             (* the mul might be folded into madd or msub *)
             if hasOneNonDBGUse MRI Dst then
               UseMI <- deref (use_instr_begin MRI Dst) ;;
               let UseOpc := getOpcode (snd UseMI) in
               Ok (Opcode_eqb UseOpc G_ADD || Opcode_eqb UseOpc G_PTR_ADD
                   || Opcode_eqb UseOpc G_SUB)
             else Ok false) ;;
      if bail then Ok None
      else
        let ShiftedConstValue := APInt.ashr ConstValue TrailingZeroes in
        let choice :=
          if APInt.isNonNegative ConstValue then
            (* (mul x, 2^N + 1) => (add (shl x, N), x)
               (mul x, 2^N - 1) => (sub (shl x, N), x)
               (mul x, (2^N + 1) * 2^M) => (shl (add (shl x, N), x), M) *)
            let SCVMinus1 := APInt.sub ShiftedConstValue 1 in
            let CVPlus1 := APInt.add ConstValue 1 in
            if APInt.isPowerOf2 SCVMinus1 then
              Some (APInt.logBase2 SCVMinus1, G_ADD, true, false)
            else if APInt.isPowerOf2 CVPlus1 then
              Some (APInt.logBase2 CVPlus1, G_SUB, true, false)
            else None
          else
            (* (mul x, -(2^N - 1)) => (sub x, (shl x, N))
               (mul x, -(2^N + 1)) => - (add (shl x, N), x) *)
            let CVNegPlus1 := APInt.add (APInt.neg ConstValue) 1 in
            let CVNegMinus1 := APInt.sub (APInt.neg ConstValue) 1 in
            if APInt.isPowerOf2 CVNegPlus1 then
              Some (APInt.logBase2 CVNegPlus1, G_SUB, false, false)
            else if APInt.isPowerOf2 CVNegMinus1 then
              Some (APInt.logBase2 CVNegMinus1, G_ADD, true, true)
            else None in
        match choice with
        | None => Ok None
        | Some (ShiftAmt, AddSubOpc, ShiftValUseIsLHS, NegateResult) =>
            if NegateResult && negb (TrailingZeroes =? 0) then Ok None
            else
              Ok (Some {| ShiftAmt := ShiftAmt;
                          AddSubOpc := AddSubOpc;
                          ShiftValUseIsLHS := ShiftValUseIsLHS;
                          NegateResult := NegateResult;
                          TrailingZeroes := TrailingZeroes;
                          Ty := Ty;
                          LHS := LHS |})
        end
  end.

(** The body of the closure built at the end of the matcher. *)
Definition ApplyFn (fn : MulConstApplyFn) (DstReg : Register) : BM unit :=
  Shift <~ buildConstant (LLT_scalar 64) (ShiftAmt fn) ;;
  ShiftedVal <~ buildShl (Ty fn) (LHS fn) Shift ;;
  let AddSubLHS := if ShiftValUseIsLHS fn then ShiftedVal else LHS fn in
  let AddSubRHS := if ShiftValUseIsLHS fn then LHS fn else ShiftedVal in
  Res <~ buildInstr (AddSubOpc fn) (Ty fn) [AddSubLHS; AddSubRHS] ;;
  _ <~ liftB (assert (negb (NegateResult fn
                            && negb (TrailingZeroes fn =? 0)))) ;;
  if NegateResult fn then
    (* Negate the result. *)
    Zero <~ buildConstant (Ty fn) 0 ;;
    buildInstrTo G_SUB DstReg [Zero; Res]
  else if negb (TrailingZeroes fn =? 0) then
    (* Shift the result. *)
    Amt <~ buildConstant (LLT_scalar 64) (TrailingZeroes fn) ;;
    buildInstrTo G_SHL DstReg [Res; Amt]
  else
    buildCopy DstReg Res.

Definition applyAArch64MulConstCombine (pos : nat)
    (fn : MulConstApplyFn) : BM unit :=
  _ <~ setInstrAndDebugLoc pos ;;
  MI <~ currentInstr ;;
  DstReg <~ liftB (getOperandReg MI 0) ;;
  _ <~ ApplyFn fn DstReg ;;
  eraseFromParent.

(** ** Rule: extraction of a pairwise floating-point add

    (s32 (g_extract_vector_elt
            (g_fadd (vXs32 Other)
                    (g_vector_shuffle (vXs32 Other) undef <1,X,...> )) 0))
    ->
    (s32 (g_fadd (g_extract_vector_elt (vXs32 Other) 0)
                 (g_extract_vector_elt (vXs32 Other) 1)) *)

Definition PairwiseAddMatchInfo : Type := (Opcode * LLT * Register)%type.

Definition matchExtractVecEltPairwiseAdd (MI : MachineInstr)
    (MRI : MachineRegisterInfo) : Res (option PairwiseAddMatchInfo) :=
  Src1 <- getOperandReg MI 1 ;;
  Src2 <- getOperandReg MI 2 ;;
  Dst <- getOperandReg MI 0 ;;
  let DstTy := getType MRI Dst in
  match getIConstantVRegValWithLookThrough Src2 MRI with
  | None => Ok None
  | Some Cst =>
      if negb (APInt.isZero (Value Cst)) then Ok None
      else
        (* Now check for an fadd operation. *)
        match getOpcodeDef G_FADD Src1 MRI with
        | None => Ok None
        | Some FAddMI =>
            DstSize <- getSizeInBits DstTy ;;
            if negb (DstSize =? 16) && negb (DstSize =? 32)
               && negb (DstSize =? 64)
            then Ok None
            else
              Src1Op1 <- getOperandReg (snd FAddMI) 1 ;;
              Src1Op2 <- getOperandReg (snd FAddMI) 2 ;;
              let '(Shuffle, Other) :=
                match getOpcodeDef G_SHUFFLE_VECTOR Src1Op2 MRI with
                | Some Sh => (Some Sh, getVRegDef MRI Src1Op1)
                | None => (getOpcodeDef G_SHUFFLE_VECTOR Src1Op1 MRI,
                           getVRegDef MRI Src1Op2)
                end in
              (* We're looking for a shuffle that moves the second element
                 to index 0. *)
              match Shuffle with
              | None => Ok None
              | Some Sh =>
                  MaskOp <- getOperand (snd Sh) 3 ;;
                  Mask <- getShuffleMask MaskOp ;;
                  Mask0 <- deref (nth_error Mask 0) ;;
                  if Mask0 =? 1 then
                    ShSrc <- getOperandReg (snd Sh) 1 ;;
                    if MIPtr_eqb Other (getVRegDef MRI ShSrc) then
                      OtherMI <- deref Other ;;
                      Src <- getOperandReg (snd OtherMI) 0 ;;
                      Ok (Some (G_FADD, DstTy, Src))
                    else Ok None
                  else Ok None
              end
        end
  end.

Definition applyExtractVecEltPairwiseAdd (pos : nat)
    (MatchInfo : PairwiseAddMatchInfo) : BM unit :=
  let '(Opc, Ty, Src) := MatchInfo in
  _ <~ liftB (assert (Opcode_eqb Opc G_FADD)) ;;
  (* We want to generate two extracts of elements 0 and 1, and add them. *)
  let s64 := LLT_scalar 64 in
  _ <~ setInstrAndDebugLoc pos ;;
  MI <~ currentInstr ;;
  Idx0 <~ buildConstant s64 0 ;;
  Elt0 <~ buildExtractVectorElement Ty Src Idx0 ;;
  Idx1 <~ buildConstant s64 1 ;;
  Elt1 <~ buildExtractVectorElement Ty Src Idx1 ;;
  Dst <~ liftB (getOperandReg MI 0) ;;
  _ <~ buildInstrTo Opc Dst [Elt0; Elt1] ;;
  eraseFromParent.

(** ** Rule: merge with zero to zero-extend *)

(** Modelled from the spec: GISelChangeObserver is declared outside the
    translated file; it receives "mutation notifications (about-to-change,
    changed, about-to-erase)".  The observer is the list of what it has
    been told. *)
Inductive ObserverEvent : Type :=
| changingInstr (pos : nat)
| changedInstr (pos : nat).

Definition GISelChangeObserver : Type := list ObserverEvent.

(** Modelled from the spec: the accessors of GMerge are declared outside
    the translated file; a merge has a "source count" and its sources
    follow the single result. *)
Definition getSourceReg (MI : MachineInstr) (i : nat) : Res Register :=
  getOperandReg MI (S i).

Definition getNumSources (MI : MachineInstr) : Z :=
  Z.of_nat (length (Operands MI)) - 1.

(** Try to fold a G_MERGE_VALUES of 2 s32 sources, where the second source
    is a zero, into a G_ZEXT of the first. *)
Definition matchFoldMergeToZext (MI : MachineInstr)
    (MRI : MachineRegisterInfo) : Res bool :=
  _ <- assert (Opcode_eqb (getOpcode MI) G_MERGE_VALUES) ;;
  Src0 <- getSourceReg MI 0 ;;
  let SrcTy := getType MRI Src0 in
  if negb (LLT_eqb SrcTy (LLT_scalar 32)) || negb (getNumSources MI =? 2)
  then Ok false
  else
    Src1 <- getSourceReg MI 1 ;;
    Ok (m_SpecificICst 0 Src1 MRI).

(** Modelled from the spec: "in-place instruction mutation
    (opcode/operand replacement)".  [setDesc] changes the opcode,
    [removeOperand] drops an operand that must exist, and [mutateInstr]
    overwrites the instruction at [pos], which the C++ code mutates through
    the reference [MI]. *)
Definition setDesc (o : Opcode) (MI : MachineInstr) : MachineInstr :=
  {| Opc := o; Operands := Operands MI; MemOperands := MemOperands MI |}.

Definition removeOperand (i : nat) (MI : MachineInstr) : Res MachineInstr :=
  _ <- assert (Nat.ltb i (length (Operands MI))) ;;
  Ok {| Opc := Opc MI; Operands := removeAt i (Operands MI);
        MemOperands := MemOperands MI |}.

Definition replaceAt {A : Type} (n : nat) (x : A) (l : list A) : list A :=
  firstn n l ++ x :: skipn (S n) l.

Definition mutateInstr (pos : nat) (MI : MachineInstr)
    (MRI : MachineRegisterInfo) : MachineRegisterInfo :=
  {| Insts := replaceAt pos MI (Insts MRI); VRegToType := VRegToType MRI |}.

(** Mutate %d(s64) = G_MERGE_VALUES %a(s32), 0(s32)
     ->
    %d(s64) = G_ZEXT %a(s32) *)
Definition applyFoldMergeToZext (pos : nat) (MRI : MachineRegisterInfo)
    (Observer : GISelChangeObserver)
    : Res (MachineRegisterInfo * GISelChangeObserver) :=
  MI <- deref (nth_error (Insts MRI) pos) ;;
  let Observer := Observer ++ [changingInstr pos] in
  let MI := setDesc G_ZEXT MI in
  MI <- removeOperand 2 MI ;;
  let Observer := Observer ++ [changedInstr pos] in
  Ok (mutateInstr pos MI MRI, Observer).

(** ** Rule: any-extend of a compare to zero-extend *)

(** Modelled from the spec: the pattern [m_GICmp]/[m_GFCmp] of
    MIPatternMatch.h is not part of the translated file; "source is
    produced by an integer-compare or float-compare instruction (any
    predicate, any operands)". *)
Definition m_AnyCmp (R : Register) (MRI : MachineRegisterInfo) : bool :=
  match getVRegDef MRI R with
  | Some (_, DefMI) =>
      Opcode_eqb (Opc DefMI) G_ICMP || Opcode_eqb (Opc DefMI) G_FCMP
  | None => false
  end.

Definition matchMutateAnyExtToZExt (MI : MachineInstr)
    (MRI : MachineRegisterInfo) : Res bool :=
  _ <- assert (Opcode_eqb (getOpcode MI) G_ANYEXT) ;;
  Dst <- getOperandReg MI 0 ;;
  Src <- getOperandReg MI 1 ;;
  Ok (isScalar (getType MRI Dst) && m_AnyCmp Src MRI).

Definition applyMutateAnyExtToZExt (pos : nat) (MRI : MachineRegisterInfo)
    (Observer : GISelChangeObserver)
    : Res (MachineRegisterInfo * GISelChangeObserver) :=
  MI <- deref (nth_error (Insts MRI) pos) ;;
  let Observer := Observer ++ [changingInstr pos] in
  let MI := setDesc G_ZEXT MI in
  let Observer := Observer ++ [changedInstr pos] in
  Ok (mutateInstr pos MI MRI, Observer).

(** ** Rule: split a 128-bit store of zero *)

(** Modelled from the spec: the accessors of GStore are declared outside
    the translated file; a store has the stored value, the address and the
    memory access descriptor, and is simple when it is "without
    atomic/volatile semantics". *)
Definition getValueReg (MI : MachineInstr) : Res Register :=
  getOperandReg MI 0.

Definition getPointerReg (MI : MachineInstr) : Res Register :=
  getOperandReg MI 1.

Definition getMMO (MI : MachineInstr) : Res MachineMemOperand :=
  deref (hd_error (MemOperands MI)).

Definition isSimple (MMO : MachineMemOperand) : bool :=
  negb (MMO_isAtomic MMO) && negb (MMO_isVolatile MMO).

(** The size of the memory type, all-ones when that type is unknown. *)
Definition getMemSizeInBits (MMO : MachineMemOperand) : Z :=
  match getSizeInBits (MMO_MemoryType MMO) with
  | Ok sz => sz
  | _ => 2 ^ 64 - 1
  end.

(** Match a 128b store of zero and split it into two 64 bit stores, for
    size/performance reasons. *)
Definition matchSplitStoreZero128 (MI : MachineInstr)
    (MRI : MachineRegisterInfo) : Res bool :=
  _ <- assert (Opcode_eqb (getOpcode MI) G_STORE) ;;
  MMO <- getMMO MI ;;
  if negb (isSimple MMO) then Ok false
  else
    ValueReg <- getValueReg MI ;;
    let ValTy := getType MRI ValueReg in
    if negb (isVector ValTy) then Ok false
    else
      ValSize <- getSizeInBits ValTy ;;
      if negb (ValSize =? 128) then Ok false
      else if negb (ValSize =? getMemSizeInBits MMO) then
        Ok false (* Don't split truncating stores. *)
      else if negb (hasOneNonDBGUse MRI ValueReg) then Ok false
      else
        DefMI <- deref (getVRegDef MRI ValueReg) ;;
        MaybeCst <- isConstantOrConstantSplatVector (snd DefMI) MRI ;;
        match MaybeCst with
        | Some Cst => Ok (APInt.isZero Cst)
        | None => Ok false
        end.

(** Modelled from the spec: [MachineFunction::getMachineMemOperand] is not
    part of the translated file; the new descriptor is "scoped to 8 bytes"
    with "the appropriate byte offset inherited from the original access":
    the pointer offset moves by [Offset], the memory type becomes [Ty], and
    alignment and ordering flags are those of the original. *)
Definition getMachineMemOperand (MMO : MachineMemOperand) (Offset : Z)
    (Ty : LLT) : MachineMemOperand :=
  {| MMO_Offset := MMO_Offset MMO + Offset;
     MMO_MemoryType := Ty;
     MMO_BaseAlign := MMO_BaseAlign MMO;
     MMO_isVolatile := MMO_isVolatile MMO;
     MMO_isAtomic := MMO_isAtomic MMO |}.

Definition getTypeB (R : Register) : BM LLT :=
  fun B => Ok (getType (B_MRI B) R, B).

Definition applySplitStoreZero128 (pos : nat) : BM unit :=
  _ <~ setInstrAndDebugLoc pos ;;
  Store <~ currentInstr ;;
  _ <~ liftB (assert (Opcode_eqb (getOpcode Store) G_STORE)) ;;
  ValueReg <~ liftB (getValueReg Store) ;;
  ValTy <~ getTypeB ValueReg ;;
  _ <~ liftB (assert (isVector ValTy)) ;;
  let NewTy := LLT_scalar 64 in
  PtrReg <~ liftB (getPointerReg Store) ;;
  Zero <~ buildConstant NewTy 0 ;;
  PtrTy <~ getTypeB PtrReg ;;
  Eight <~ buildConstant (LLT_scalar 64) 8 ;;
  HighPtr <~ buildPtrAdd PtrTy PtrReg Eight ;;
  MMO <~ liftB (getMMO Store) ;;
  let LowMMO := getMachineMemOperand MMO 0 NewTy in
  let HighMMO := getMachineMemOperand MMO 8 NewTy in
  _ <~ buildStore Zero PtrReg LowMMO ;;
  _ <~ buildStore Zero HighPtr HighMMO ;;
  eraseFromParent.

(** ** The combiner pass *)

(** Modelled from the spec: "a named rule-enable/disable configuration: a
    set of rule names to include/exclude".  The command line names rules to
    switch off and rules to leave on alone. *)
Record RuleConfigOption : Type := {
  DisableOption : list string;
  OnlyEnableOption : list string
}.

Definition isRegisteredRule (Rules : list string) (Identifier : string)
    : bool :=
  existsb (String.eqb Identifier) Rules.

(** Modelled from the spec: [parseCommandLineOption] belongs to the
    generated rule configuration (AArch64GenPostLegalizeGICombiner.inc),
    which is not part of the translated file; the configuration is "a set
    of rule names to include/exclude; unknown names are a fatal startup
    error".  [Rules] is the table of registered rule names; parsing
    succeeds when every name on the command line is in the table. *)
Definition parseCommandLineOption (Rules : list string)
    (CLOption : RuleConfigOption) : bool :=
  forallb (isRegisteredRule Rules) (DisableOption CLOption)
  && forallb (isRegisteredRule Rules) (OnlyEnableOption CLOption).

Record AArch64PostLegalizerCombinerInfo : Type := {
  AllowIllegalOps : bool;
  ShouldLegalizeIllegal : bool;
  EnableOpt : bool;
  OptSize : bool;
  MinSize : bool;
  RuleConfig : RuleConfigOption
}.

(** The constructor of the combiner info. *)
Definition mkAArch64PostLegalizerCombinerInfo (Rules : list string)
    (CLOption : RuleConfigOption) (EnableOpt OptSize MinSize : bool)
    : Res AArch64PostLegalizerCombinerInfo :=
  if negb (parseCommandLineOption Rules CLOption) then
    Fatal "Invalid rule identifier"
  else
    Ok {| AllowIllegalOps := true;
          ShouldLegalizeIllegal := false;
          EnableOpt := EnableOpt;
          OptSize := OptSize;
          MinSize := MinSize;
          RuleConfig := CLOption |}.

(** Modelled from the spec: MachineFunction is declared outside the
    translated file; what the pass reads of it is the instruction graph,
    whether instruction selection has failed, whether the function is
    legalized, and the optimization settings. *)
Record MachineFunction : Type := {
  MF_MRI : MachineRegisterInfo;
  FailedISel : bool;
  Legalized : bool;
  OptLevelNone : bool;
  skipFunction : bool;
  hasOptSize : bool;
  hasMinSize : bool
}.

(** The positions of the instructions that have been offered to
    [combine], oldest first. *)
Definition CombineTrace : Type := list nat.

(** Modelled from the spec: the generic driver
    [Combiner::combineMachineInstrs] is not part of the translated file;
    it "iterates instructions, tries each enabled rule in priority
    order, repeats until no rule fires".  The pass is given one: it
    receives the combiner info and the function, offers instructions to
    [combine], and says whether anything changed. *)
Definition CombinerDriver : Type :=
  AArch64PostLegalizerCombinerInfo -> MachineFunction -> CombineTrace ->
  bool * CombineTrace.

Definition runOnMachineFunction (combineMachineInstrs : CombinerDriver)
    (Rules : list string) (CLOption : RuleConfigOption)
    (MF : MachineFunction) (Trace : CombineTrace)
    : Res bool * CombineTrace :=
  if FailedISel MF then (Ok false, Trace)
  else
    if negb (Legalized MF) then (Abort, Trace)
    else
      let EnableOpt := negb (OptLevelNone MF) && negb (skipFunction MF) in
      match mkAArch64PostLegalizerCombinerInfo Rules CLOption EnableOpt
              (hasOptSize MF) (hasMinSize MF) with
      | Ok PCInfo =>
          let '(Changed, Trace') := combineMachineInstrs PCInfo MF Trace in
          (Ok Changed, Trace')
      | Abort => (Abort, Trace)
      | Fatal msg => (Fatal msg, Trace)
      end.

(** * Specification vocabulary

    Definitions used to state the properties: the shape of the function
    around the instruction being rewritten, abbreviations for the
    instructions that are built, and views of the multiply matcher. *)

(** A power of two, as the rule text uses the words. *)
Definition IsPow2 (z : Z) : Prop := exists N, 0 <= N /\ z = 2 ^ N.

(** Apply a rule to a function: run the builder program and keep the
    function it leaves behind. *)
Definition rewriteWith (m : BM unit) (MRI : MachineRegisterInfo)
    : Res MachineRegisterInfo :=
  match m {| B_MRI := MRI; InsertPt := 0 |} with
  | Ok (_, B) => Ok (B_MRI B)
  | Abort => Abort
  | Fatal msg => Fatal msg
  end.

(** While a rule is applied the function has the shape
    [pre ++ mid ++ post]: [pre] is untouched, [mid] is what has been built
    so far and [post] starts with the instruction being replaced. *)
Definition building (pre mid post : list MachineInstr) (T : list LLT)
    : MachineIRBuilder :=
  {| B_MRI := {| Insts := pre ++ mid ++ post; VRegToType := T |};
     InsertPt := length pre + length mid |}.

(** The instruction [MI] sits in [MRI] between [pre] and [post]. *)
Definition InstrAt (MRI : MachineRegisterInfo) (pre : list MachineInstr)
    (MI : MachineInstr) (post : list MachineInstr) : Prop :=
  Insts MRI = pre ++ MI :: post.

(** Shorthands for the instructions the rules build. *)
Definition cst (r : Register) (w v : Z) : MachineInstr :=
  mkInstr G_CONSTANT [def r; MO_CImmediate (APInt.make w v)].

Definition binop (o : Opcode) (d a b : Register) : MachineInstr :=
  mkInstr o [def d; use a; use b].

Definition copy (d s : Register) : MachineInstr :=
  mkInstr COPY [def d; use s].

Definition store (v a : Register) (MMO : MachineMemOperand) : MachineInstr :=
  {| Opc := G_STORE; Operands := [use v; use a]; MemOperands := [MMO] |}.

(** ** Views of the multiply matcher *)

(** The two fusion guards of the matcher, entered when the constant has
    trailing zero bits. *)
Definition mulFusionGuard (MRI : MachineRegisterInfo) (lhs dst : Register)
    : Res bool :=
  ext <-
    (if hasOneNonDBGUse MRI lhs then
       s <- isSignExtended lhs MRI ;;
       if s then Ok true else isZeroExtended lhs MRI
     else Ok false) ;;
  if ext then Ok true
  else
    if hasOneNonDBGUse MRI dst then
      UseMI <- deref (use_instr_begin MRI dst) ;;
      let UseOpc := getOpcode (snd UseMI) in
      Ok (Opcode_eqb UseOpc G_ADD || Opcode_eqb UseOpc G_PTR_ADD
          || Opcode_eqb UseOpc G_SUB)
    else Ok false.

(** Shift amount, opcode, operand order and negation chosen for a
    constant. *)
Definition mulChoice (ConstValue : APInt.t)
    : option (Z * Opcode * bool * bool) :=
  let TrailingZeroes := APInt.countr_zero ConstValue in
  let ShiftedConstValue := APInt.ashr ConstValue TrailingZeroes in
  if APInt.isNonNegative ConstValue then
    let SCVMinus1 := APInt.sub ShiftedConstValue 1 in
    let CVPlus1 := APInt.add ConstValue 1 in
    if APInt.isPowerOf2 SCVMinus1 then
      Some (APInt.logBase2 SCVMinus1, G_ADD, true, false)
    else if APInt.isPowerOf2 CVPlus1 then
      Some (APInt.logBase2 CVPlus1, G_SUB, true, false)
    else None
  else
    let CVNegPlus1 := APInt.add (APInt.neg ConstValue) 1 in
    let CVNegMinus1 := APInt.sub (APInt.neg ConstValue) 1 in
    if APInt.isPowerOf2 CVNegPlus1 then
      Some (APInt.logBase2 CVNegPlus1, G_SUB, false, false)
    else if APInt.isPowerOf2 CVNegMinus1 then
      Some (APInt.logBase2 CVNegMinus1, G_ADD, true, true)
    else None.

Definition mkFn (sa : Z) (o : Opcode) (islhs neg : bool) (t : Z) (ty : LLT)
    (lhs : Register) : MulConstApplyFn :=
  {| ShiftAmt := sa; AddSubOpc := o; ShiftValUseIsLHS := islhs;
     NegateResult := neg; TrailingZeroes := t; Ty := ty; LHS := lhs |}.

(** The matcher once the operands and the constant have been read. *)
Definition mulConstView (MRI : MachineRegisterInfo) (lhs dst : Register)
    (ConstValue : APInt.t) : Res (option MulConstApplyFn) :=
  let t := APInt.countr_zero ConstValue in
  bail <- (if t =? 0 then Ok false else mulFusionGuard MRI lhs dst) ;;
  if bail then Ok None
  else
    match mulChoice ConstValue with
    | None => Ok None
    | Some (sa, o, islhs, neg) =>
        if neg && negb (t =? 0) then Ok None
        else Ok (Some (mkFn sa o islhs neg t (getType MRI lhs) lhs))
    end.

(** A multiply [dst = G_MUL lhs, rhs] of width [W] whose right operand is
    the known constant [Const]. *)
Record MulOfConst (MI : MachineInstr) (MRI : MachineRegisterInfo)
    (dst lhs rhs : Register) (W : Z) (Const : ValueAndVReg) : Prop := {
  moc_opcode : getOpcode MI = G_MUL;
  moc_dst : getOperandReg MI 0 = Ok dst;
  moc_lhs : getOperandReg MI 1 = Ok lhs;
  moc_rhs : getOperandReg MI 2 = Ok rhs;
  moc_width : getSizeInBits (getType MRI lhs) = Ok W;
  moc_const : getIConstantVRegValWithLookThrough rhs MRI = Some Const;
  moc_wf : APInt.wf (Value Const);
  moc_fits : APInt.BitWidth (Value Const) <= W
}.

(** The multiply cannot fold into an extending multiply: its left operand
    is used elsewhere too, or is not defined by an extension. *)
Definition NoExtMulFusion (MRI : MachineRegisterInfo) (lhs : Register)
    : Prop :=
  hasOneNonDBGUse MRI lhs = false \/
  exists DefMI, getVRegDef MRI lhs = Some DefMI /\
    ~ In (getOpcode (snd DefMI)) [G_SEXT; G_SEXT_INREG; G_ZEXT].

(** The multiply cannot fold into a multiply-add or multiply-subtract. *)
Definition NoMulAddFusion (MRI : MachineRegisterInfo) (dst : Register)
    : Prop :=
  hasOneNonDBGUse MRI dst = false \/
  exists UseMI, use_instr_begin MRI dst = Some UseMI /\
    ~ In (getOpcode (snd UseMI)) [G_ADD; G_PTR_ADD; G_SUB].

Definition NoFusionGuard (MRI : MachineRegisterInfo) (lhs dst : Register)
    : Prop :=
  NoExtMulFusion MRI lhs /\ NoMulAddFusion MRI dst.

(** The multiply rule fires on [MI] with closure [fn] and puts [seq] in
    the place of the multiply. *)
Definition firesWith (MI : MachineInstr) (MRI : MachineRegisterInfo)
    (pre post : list MachineInstr) (fn : MulConstApplyFn)
    (seq : list MachineInstr) : Prop :=
  matchAArch64MulConstCombine MI MRI = Ok (Some fn) /\
  exists MRI',
    rewriteWith (applyAArch64MulConstCombine (length pre) fn) MRI = Ok MRI'
    /\ Insts MRI' = pre ++ seq ++ post.

(** ** Example functions *)

Definition s32 : LLT := LLT_scalar 32.
Definition s64 : LLT := LLT_scalar 64.

(** Physical registers carry no type. *)
Definition w0 : Register := 1000.

Definition mulInstr : MachineInstr := binop G_MUL 2 0 1.

(** %0:_(s32) = COPY $w0
    %1:_(s32) = G_CONSTANT i32 c
    %2:_(s32) = G_MUL %0, %1
    followed by the users of %2. *)
Definition mulFunction (c : Z) (users : list MachineInstr)
    (tys : list LLT) : MachineRegisterInfo :=
  {| Insts := [copy 0 w0; cst 1 32 c; mulInstr] ++ users;
     VRegToType := [s32; s32; s32] ++ tys |}.

Definition constOf (c : Z) : ValueAndVReg :=
  {| Value := APInt.make 32 c; VReg := 1 |}.

Definition x0 : Register := 1001.
Definition q0 : Register := 1002.

Definition mergeInstr : MachineInstr :=
  mkInstr G_MERGE_VALUES [def 2; use 0; use 1].

(** %0:_(s32) = COPY $w0
    %1:_(s32) = second source
    %2:_(s64) = G_MERGE_VALUES %0, %1 *)
Definition mergeFunction (second : MachineInstr) : MachineRegisterInfo :=
  {| Insts := [copy 0 w0; second; mergeInstr];
     VRegToType := [s32; s32; s64] |}.

(** ** The store rule in the words of its description *)

(** The register is an integer constant, or a build vector whose elements
    are all the same constant, and that constant is [Cst]. *)
Definition ConstantOrSplat (MRI : MachineRegisterInfo) (R : Register)
    (Cst : APInt.t) : Prop :=
  exists DefMI,
    getVRegDef MRI R = Some DefMI /\
    isConstantOrConstantSplatVector (snd DefMI) MRI = Ok (Some Cst).

(** "Store is simple; stored value type is a 128-bit vector; store's memory
    access size equals the full value width; stored value has exactly one
    use; stored value is a constant (or uniformly-zero splat) equal to
    zero." *)
Definition SplitStoreZero128Pattern (MI : MachineInstr)
    (MRI : MachineRegisterInfo) : Prop :=
  exists MMO ValueReg Cst,
    getMMO MI = Ok MMO /\
    getValueReg MI = Ok ValueReg /\
    isSimple MMO = true /\
    isVector (getType MRI ValueReg) = true /\
    getSizeInBits (getType MRI ValueReg) = Ok 128 /\
    getMemSizeInBits MMO = 128 /\
    hasOneNonDBGUse MRI ValueReg = true /\
    ConstantOrSplat MRI ValueReg Cst /\
    APInt.isZero Cst = true.

Definition v2s64 : LLT := LLT_fixed_vector 2 64.
Definition p0 : LLT := LLT_pointer 0 64.

Definition storeMMO : MachineMemOperand :=
  {| MMO_Offset := 0; MMO_MemoryType := v2s64; MMO_BaseAlign := 16;
     MMO_isVolatile := false; MMO_isAtomic := false |}.

Definition storeInstr : MachineInstr := store 2 0 storeMMO.

(** %0:_(p0) = COPY $x0
    %1:_(s64) = G_CONSTANT i64 c
    %2:_(<2 x s64>) = G_BUILD_VECTOR %1, %1
    G_STORE %2, %0 :: (store (<2 x s64>))
    followed by further users. *)
Definition storeFunction (c : Z) (users : list MachineInstr)
    : MachineRegisterInfo :=
  {| Insts := [copy 0 x0; cst 1 64 c; binop G_BUILD_VECTOR 2 1 1; storeInstr]
              ++ users;
     VRegToType := [p0; s64; v2s64] |}.

(** ** The pairwise add pattern *)

(** Of the two operands [a] and [b] of the add, the matcher takes [b] for
    the shuffle when it is one, and [a] otherwise; [v] is the remaining
    operand. *)
Definition ShuffleOperand (MRI : MachineRegisterInfo) (a b v : Register)
    (Sh : MIPtr) : Prop :=
  (getOpcodeDef G_SHUFFLE_VECTOR b MRI = Some Sh /\ v = a) \/
  (getOpcodeDef G_SHUFFLE_VECTOR b MRI = None /\
   getOpcodeDef G_SHUFFLE_VECTOR a MRI = Some Sh /\ v = b).

Definition extractInstr : MachineInstr := binop G_EXTRACT_VECTOR_ELT 5 3 4.

Definition shuffleInstr : MachineInstr :=
  mkInstr G_SHUFFLE_VECTOR [def 2; use 0; use 1; MO_ShuffleMask [1; -1]].

(** %0:_(<2 x sN>) = COPY $q0
    %1:_(<2 x sN>) = G_IMPLICIT_DEF
    %2:_(<2 x sN>) = G_SHUFFLE_VECTOR %0, %1, shufflemask(1, undef)
    %3:_(<2 x sN>) = G_FADD %0, %2
    %4:_(s64) = G_CONSTANT i64 0
    %5:_(sN) = G_EXTRACT_VECTOR_ELT %3, %4 *)
Definition pairwiseFunction (N : Z) : MachineRegisterInfo :=
  {| Insts := [copy 0 q0; mkInstr G_IMPLICIT_DEF [def 1]; shuffleInstr;
               binop G_FADD 3 0 2; cst 4 64 0; extractInstr];
     VRegToType := [LLT_fixed_vector 2 N; LLT_fixed_vector 2 N;
                    LLT_fixed_vector 2 N; LLT_fixed_vector 2 N;
                    s64; LLT_scalar N] |}.

(** %0:_(<2 x s32>) = COPY $q0
    %1:_(<2 x s32>) = G_IMPLICIT_DEF
    %2:_(<2 x s32>) = G_SHUFFLE_VECTOR %0, %1, shufflemask(0, 1)
    %3:_(<2 x s32>) = G_SHUFFLE_VECTOR %2, %1, shufflemask(1, undef)
    %4:_(<2 x s32>) = G_FADD %3, %2
    %5:_(s64) = G_CONSTANT i64 0
    %6:_(s32) = G_EXTRACT_VECTOR_ELT %4, %5 *)
Definition shuffleOfShuffleFunction : MachineRegisterInfo :=
  {| Insts := [copy 0 q0; mkInstr G_IMPLICIT_DEF [def 1];
               mkInstr G_SHUFFLE_VECTOR
                 [def 2; use 0; use 1; MO_ShuffleMask [0; 1]];
               mkInstr G_SHUFFLE_VECTOR
                 [def 3; use 2; use 1; MO_ShuffleMask [1; -1]];
               binop G_FADD 4 3 2; cst 5 64 0;
               binop G_EXTRACT_VECTOR_ELT 6 4 5];
     VRegToType := [LLT_fixed_vector 2 32; LLT_fixed_vector 2 32;
                    LLT_fixed_vector 2 32; LLT_fixed_vector 2 32;
                    LLT_fixed_vector 2 32; s64; s32] |}.

(** ** A reference interpreter *)

(** Modelled from the spec: the meaning of the generic opcodes is fixed by
    the target-independent instruction set and not by the translated file;
    the properties speak of "the identical value ... for every possible
    input register value".  Integers wrap at their width; a shift by the
    width or more has no defined result; a floating-point add is whatever
    the parameter [fadd] says on bit patterns.  An undefined scalar or lane
    is [None]. *)
Inductive RegValue : Type :=
| VScalar (w : Z) (v : option Z)
| VVector (w : Z) (elts : list (option Z)).

Definition RegFile : Type := Register -> option RegValue.

Definition noRegs : RegFile := fun _ => None.

Definition setReg (r : Register) (v : RegValue) (rf : RegFile) : RegFile :=
  fun r' => if Nat.eqb r' r then Some v else rf r'.

Definition lift2 (f : Z -> Z -> option Z) (x y : option Z) : option Z :=
  match x, y with
  | Some a, Some b => f a b
  | _, _ => None
  end.

Fixpoint zipWith {A : Type} (f : A -> A -> A) (l1 l2 : list A) : list A :=
  match l1, l2 with
  | x :: l1', y :: l2' => f x y :: zipWith f l1' l2'
  | _, _ => []
  end.

Definition scalarOp (fadd : Z -> Z -> Z -> Z) (o : Opcode) (w : Z)
    : option (Z -> Z -> option Z) :=
  match o with
  | G_ADD => Some (fun a b => Some ((a + b) mod 2 ^ w))
  | G_SUB => Some (fun a b => Some ((a - b) mod 2 ^ w))
  | G_MUL => Some (fun a b => Some ((a * b) mod 2 ^ w))
  | G_SHL => Some (fun a s => if s <? w then Some ((a * 2 ^ s) mod 2 ^ w)
                              else None)
  | G_PTR_ADD => Some (fun a b => Some ((a + b) mod 2 ^ w))
  | G_FADD => Some (fun a b => Some (fadd w a b))
  | _ => None
  end.

Definition evalInstr (fadd : Z -> Z -> Z -> Z) (MRI : MachineRegisterInfo)
    (MI : MachineInstr) (rf : RegFile) : option RegFile :=
  match Opc MI, Operands MI with
  | COPY, [MO_Register true d; MO_Register false s] =>
      match rf s with
      | Some v => Some (setReg d v rf)
      | None => None
      end
  | G_CONSTANT, [MO_Register true d; MO_CImmediate c] =>
      Some (setReg d (VScalar (APInt.BitWidth c) (Some (APInt.Val c))) rf)
  | G_ZEXT, [MO_Register true d; MO_Register false s] =>
      match getType MRI d, rf s with
      | LLT_scalar w, Some (VScalar _ v) => Some (setReg d (VScalar w v) rf)
      | _, _ => None
      end
  | G_MERGE_VALUES,
    [MO_Register true d; MO_Register false lo; MO_Register false hi] =>
      match rf lo, rf hi with
      | Some (VScalar wl x), Some (VScalar wh y) =>
          Some (setReg d
                  (VScalar (wl + wh)
                     (lift2 (fun a b => Some (a + b * 2 ^ wl)) x y)) rf)
      | _, _ => None
      end
  | G_IMPLICIT_DEF, [MO_Register true d] =>
      match getType MRI d with
      | LLT_scalar w => Some (setReg d (VScalar w None) rf)
      | LLT_fixed_vector k w =>
          Some (setReg d (VVector w (repeat None (Z.to_nat k))) rf)
      | _ => None
      end
  | G_UNMERGE_VALUES,
    [MO_Register true d1; MO_Register true d2; MO_Register false s] =>
      match rf s with
      | Some (VVector w e) =>
          let h := Nat.div (length e) 2 in
          Some (setReg d2 (VVector w (skipn h e))
                  (setReg d1 (VVector w (firstn h e)) rf))
      | _ => None
      end
  | G_SHUFFLE_VECTOR,
    [MO_Register true d; MO_Register false a; MO_Register false b;
     MO_ShuffleMask m] =>
      match rf a, rf b with
      | Some (VVector w ea), Some (VVector _ eb) =>
          let lane i :=
            if i <? 0 then None else nth (Z.to_nat i) (ea ++ eb) None in
          Some (setReg d (VVector w (map lane m)) rf)
      | _, _ => None
      end
  | G_EXTRACT_VECTOR_ELT,
    [MO_Register true d; MO_Register false v; MO_Register false i] =>
      match rf v, rf i with
      | Some (VVector w e), Some (VScalar _ (Some k)) =>
          Some (setReg d (VScalar w (nth (Z.to_nat k) e None)) rf)
      | _, _ => None
      end
  | o, [MO_Register true d; MO_Register false a; MO_Register false b] =>
      match rf a, rf b with
      | Some (VScalar w x), Some (VScalar _ y) =>
          match scalarOp fadd o w with
          | Some f => Some (setReg d (VScalar w (lift2 f x y)) rf)
          | None => None
          end
      | Some (VVector w ex), Some (VVector _ ey) =>
          match scalarOp fadd o w with
          | Some f =>
              Some (setReg d (VVector w (zipWith (lift2 f) ex ey)) rf)
          | None => None
          end
      | _, _ => None
      end
  | _, _ => None
  end.

(** Run a list of instructions in order. *)
Fixpoint execInsts (fadd : Z -> Z -> Z -> Z) (MRI : MachineRegisterInfo)
    (l : list MachineInstr) (rf : RegFile) : option RegFile :=
  match l with
  | [] => Some rf
  | MI :: l' =>
      match evalInstr fadd MRI MI rf with
      | Some rf' => execInsts fadd MRI l' rf'
      | None => None
      end
  end.

(** The value a function leaves in [r], from the live-in values [rf]. *)
Definition resultOf (fadd : Z -> Z -> Z -> Z) (MRI : MachineRegisterInfo)
    (rf : RegFile) (r : Register) : option RegValue :=
  match execInsts fadd MRI (Insts MRI) rf with
  | Some rf' => rf' r
  | None => None
  end.

(** Memory is a map from byte addresses to bytes; addresses wrap at 64
    bits. *)
Definition Memory : Type := Z -> Z.

(** All the bits of a fully defined value, lane 0 lowest. *)
Fixpoint laneBits (w : Z) (lanes : list (option Z)) : option Z :=
  match lanes with
  | [] => Some 0
  | Some x :: lanes' =>
      match laneBits w lanes' with
      | Some rest => Some (x + rest * 2 ^ w)
      | None => None
      end
  | None :: _ => None
  end.

Definition valueBits (v : RegValue) : option (Z * Z) :=
  match v with
  | VScalar w (Some x) => Some (w, x)
  | VScalar _ None => None
  | VVector w lanes =>
      match laneBits w lanes with
      | Some bits => Some (w * Z.of_nat (length lanes), bits)
      | None => None
      end
  end.

(** Write the low [n] bytes of [bits] at address [a], lowest byte first. *)
Definition storeBytes (a n bits : Z) (mem : Memory) : Memory :=
  fun p =>
    let k := (p - a) mod 2 ^ 64 in
    if k <? n then (bits / 2 ^ (8 * k)) mod 256 else mem p.

(** A store that is not truncating writes its whole value; every other
    instruction leaves memory alone. *)
Definition evalInstrMem (fadd : Z -> Z -> Z -> Z)
    (MRI : MachineRegisterInfo) (MI : MachineInstr)
    (st : RegFile * Memory) : option (RegFile * Memory) :=
  let '(rf, mem) := st in
  match Opc MI, Operands MI, MemOperands MI with
  | G_STORE, [MO_Register false v; MO_Register false a], MMO :: _ =>
      match rf v, rf a with
      | Some val, Some (VScalar _ (Some addr)) =>
          match valueBits val with
          | Some (w, bits) =>
              if w =? getMemSizeInBits MMO
              then Some (rf, storeBytes addr (w / 8) bits mem)
              else None
          | None => None
          end
      | _, _ => None
      end
  | _, _, _ =>
      match evalInstr fadd MRI MI rf with
      | Some rf' => Some (rf', mem)
      | None => None
      end
  end.

Fixpoint execInstsMem (fadd : Z -> Z -> Z -> Z) (MRI : MachineRegisterInfo)
    (l : list MachineInstr) (st : RegFile * Memory)
    : option (RegFile * Memory) :=
  match l with
  | [] => Some st
  | MI :: l' =>
      match evalInstrMem fadd MRI MI st with
      | Some st' => execInstsMem fadd MRI l' st'
      | None => None
      end
  end.

Definition v2s32 : LLT := LLT_fixed_vector 2 32.
Definition v4s32 : LLT := LLT_fixed_vector 4 32.

Definition unmergeExtract : MachineInstr := binop G_EXTRACT_VECTOR_ELT 7 5 6.

(** %0:_(<4 x s32>) = COPY $q0
    %1:_(<2 x s32>), %2:_(<2 x s32>) = G_UNMERGE_VALUES %0
    %3:_(<2 x s32>) = G_IMPLICIT_DEF
    %4:_(<2 x s32>) = G_SHUFFLE_VECTOR %2, %3, shufflemask(1, undef)
    %5:_(<2 x s32>) = G_FADD %2, %4
    %6:_(s64) = G_CONSTANT i64 0
    %7:_(s32) = G_EXTRACT_VECTOR_ELT %5, %6 *)
Definition unmergePairwiseFunction : MachineRegisterInfo :=
  {| Insts := [copy 0 q0;
               mkInstr G_UNMERGE_VALUES [def 1; def 2; use 0];
               mkInstr G_IMPLICIT_DEF [def 3];
               mkInstr G_SHUFFLE_VECTOR
                 [def 4; use 2; use 3; MO_ShuffleMask [1; -1]];
               binop G_FADD 5 2 4;
               cst 6 64 0;
               unmergeExtract];
     VRegToType := [v4s32; v2s32; v2s32; v2s32; v2s32; v2s32; s64; s32] |}.

(** A driver that offers every instruction once, for the examples. *)
Definition onePassDriver : CombinerDriver :=
  fun _ MF Trace =>
    (false, Trace ++ seq 0 (length (Insts (MF_MRI MF)))).

Definition ruleTable : list string :=
  ["extractvecelt_pairwise_add"; "mul_const"; "fold_merge_to_zext";
   "mutate_anyext_to_zext"; "split_store_zero_128"]%string.

Definition legalizedFunction (MRI : MachineRegisterInfo) : MachineFunction :=
  {| MF_MRI := MRI; FailedISel := false; Legalized := true;
     OptLevelNone := false; skipFunction := false;
     hasOptSize := false; hasMinSize := false |}.

(** The value the sequence built by [ApplyFn] computes from [x] in
    wrap-around arithmetic of width [W]: shift, add or subtract, then
    negate or shift. *)
Definition mulConstValue (W : Z) (fn : MulConstApplyFn) (x : Z) : Z :=
  let M := 2 ^ W in
  let ShiftedVal := (x * 2 ^ ShiftAmt fn) mod M in
  let AddSubLHS := if ShiftValUseIsLHS fn then ShiftedVal else x in
  let AddSubRHS := if ShiftValUseIsLHS fn then x else ShiftedVal in
  let Sum :=
    if Opcode_eqb (AddSubOpc fn) G_ADD then (AddSubLHS + AddSubRHS) mod M
    else (AddSubLHS - AddSubRHS) mod M in
  if NegateResult fn then (0 - Sum) mod M
  else if negb (TrailingZeroes fn =? 0) then
    (Sum * 2 ^ TrailingZeroes fn) mod M
  else Sum.

(** ** Use counts over a list of instructions *)

(** The non-debug uses of [r] in the instructions [l]. *)
Definition usesIn (r : Register) (l : list MachineInstr) : nat :=
  countNonDBGUses {| Insts := l; VRegToType := [] |} r.

(** ** The analyses of the pass *)

(** Modelled from the spec: the pass manager's AnalysisUsage is declared
    outside the translated file; the pass works with "auxiliary analyses
    (a known-bits oracle, a dominator tree, a common-subexpression cache)
    that the engine queries", and a "no-optimize" mode may "skip
    constructing auxiliary analyses (dominator tree, common-subexpression
    cache)".  A usage is the list of analyses a pass requires, the list it
    preserves and whether it preserves the control flow graph; an analysis
    is entered in a list once. *)
Inductive AnalysisID : Type :=
| TargetPassConfig
| GISelKnownBitsAnalysis
| MachineDominatorTree
| GISelCSEAnalysisWrapperPass
| OtherAnalysis (name : string).

Definition AnalysisID_eq_dec (a b : AnalysisID) : {a = b} + {a <> b}.
Proof. decide equality. apply string_dec. Defined.

Record AnalysisUsage : Type := {
  Required : list AnalysisID;
  Preserved : list AnalysisID
}.

Definition pushUnique (ID : AnalysisID) (l : list AnalysisID)
    : list AnalysisID :=
  if in_dec AnalysisID_eq_dec ID l then l else l ++ [ID].

Definition addRequired (ID : AnalysisID) (AU : AnalysisUsage)
    : AnalysisUsage :=
  {| Required := pushUnique ID (Required AU);
     Preserved := Preserved AU |}.

Definition addPreserved (ID : AnalysisID) (AU : AnalysisUsage)
    : AnalysisUsage :=
  {| Required := Required AU;
     Preserved := pushUnique ID (Preserved AU) |}.

Section PassAnalyses.

(** The calls whose effect is fixed outside the translated file: marking
    the analyses that depend on the control flow graph alone as preserved,
    the usage of the SelectionDAG fallback and that of the base class. *)
Variable setPreservesCFG : AnalysisUsage -> AnalysisUsage.
Variable getSelectionDAGFallbackAnalysisUsage : AnalysisUsage -> AnalysisUsage.
Variable MachineFunctionPass_getAnalysisUsage : AnalysisUsage -> AnalysisUsage.

Definition getAnalysisUsage (IsOptNone : bool) (AU : AnalysisUsage)
    : AnalysisUsage :=
  let AU := addRequired TargetPassConfig AU in
  let AU := setPreservesCFG AU in
  let AU := getSelectionDAGFallbackAnalysisUsage AU in
  let AU := addRequired GISelKnownBitsAnalysis AU in
  let AU := addPreserved GISelKnownBitsAnalysis AU in
  let AU :=
    if negb IsOptNone then
      let AU := addRequired MachineDominatorTree AU in
      let AU := addPreserved MachineDominatorTree AU in
      let AU := addRequired GISelCSEAnalysisWrapperPass AU in
      addPreserved GISelCSEAnalysisWrapperPass AU
    else AU in
  MachineFunctionPass_getAnalysisUsage AU.

End PassAnalyses.

(** [runOnMachineFunction] once more, with the pass's [IsOptNone] and the
    analyses it asks the pass manager for through [getAnalysis], in the
    order of the calls, up to the point where it returns or stops. *)
Definition runOnMachineFunctionFetching (IsOptNone : bool)
    (combineMachineInstrs : CombinerDriver)
    (Rules : list string) (CLOption : RuleConfigOption)
    (MF : MachineFunction) (Trace : CombineTrace)
    : Res bool * CombineTrace * list AnalysisID :=
  if FailedISel MF then (Ok false, Trace, [])
  else
    if negb (Legalized MF) then (Abort, Trace, [])
    else
      let Fetched := [TargetPassConfig] in
      let EnableOpt := negb (OptLevelNone MF) && negb (skipFunction MF) in
      let Fetched := Fetched ++ [GISelKnownBitsAnalysis] in
      let Fetched :=
        if IsOptNone then Fetched else Fetched ++ [MachineDominatorTree] in
      match mkAArch64PostLegalizerCombinerInfo Rules CLOption EnableOpt
              (hasOptSize MF) (hasMinSize MF) with
      | Ok PCInfo =>
          let Fetched := Fetched ++ [GISelCSEAnalysisWrapperPass] in
          let '(Changed, Trace') := combineMachineInstrs PCInfo MF Trace in
          (Ok Changed, Trace', Fetched)
      | Abort => (Abort, Trace, Fetched)
      | Fatal msg => (Fatal msg, Trace, Fetched)
      end.

(** * Properties *)

(** ** Facts about the integer model *)

Lemma make_small (w v : Z) : 0 <= v < 2 ^ w -> APInt.make w v = APInt.mk w v.
Proof. intros H. unfold APInt.make. now rewrite Z.mod_small. Qed.

Lemma make_wf (w v : Z) : 0 < w -> APInt.wf (APInt.make w v).
Proof.
  intros Hw. unfold APInt.wf, APInt.make; simpl. split; [assumption|].
  apply Z.mod_pos_bound. apply Z.pow_pos_nonneg; lia.
Qed.

Lemma pow2_ge (k w : Z) : 0 <= k <= w -> 2 ^ k <= 2 ^ w.
Proof. intros H. apply Z.pow_le_mono_r; lia. Qed.

Lemma is_pow2_pos_log2 (p : positive) :
  APInt.is_pow2_pos p = true -> Zpos p = 2 ^ Z.log2 (Zpos p).
Proof.
  induction p as [p IH | p IH |]; intros H; cbn [APInt.is_pow2_pos] in H.
  - discriminate.
  - specialize (IH H).
    change (Zpos p~0) with (2 * Zpos p).
    rewrite Z.log2_double by lia.
    rewrite Z.pow_succ_r by apply Z.log2_nonneg.
    now rewrite <- IH.
  - reflexivity.
Qed.

Lemma isPowerOf2_log2 (a : APInt.t) :
  APInt.isPowerOf2 a = true -> APInt.Val a = 2 ^ APInt.logBase2 a.
Proof.
  unfold APInt.isPowerOf2, APInt.logBase2.
  destruct (APInt.Val a); try discriminate.
  apply is_pow2_pos_log2.
Qed.

Lemma is_pow2_pos_pow (n : nat) : APInt.is_pow2_pos (Pos.shiftl_nat 1 n) = true.
Proof. induction n; simpl; auto. Qed.

Lemma isPowerOf2_pow2 (w k : Z) :
  0 <= k -> APInt.isPowerOf2 (APInt.mk w (2 ^ k)) = true.
Proof.
  intros Hk. unfold APInt.isPowerOf2; simpl.
  rewrite <- (Z2Nat.id k) by assumption.
  generalize (Z.to_nat k) as n. intros n.
  replace (2 ^ Z.of_nat n) with (Zpos (Pos.shiftl_nat 1 n)).
  - apply is_pow2_pos_pow.
  - induction n.
    + reflexivity.
    + rewrite Nat2Z.inj_succ, Z.pow_succ_r by lia.
      rewrite <- IHn. reflexivity.
Qed.

Lemma ctz_pos_nonneg (p : positive) : 0 <= APInt.ctz_pos p.
Proof. induction p; simpl; lia. Qed.

Lemma ctz_pos_divide (p : positive) :
  exists m, Zpos p = 2 ^ APInt.ctz_pos p * m /\ Z.odd m = true.
Proof.
  induction p as [p IH | p IH |].
  - exists (Zpos p~1). simpl APInt.ctz_pos. split; [lia | reflexivity].
  - destruct IH as [m [Hm Ho]]. exists m. split; [|assumption].
    simpl APInt.ctz_pos. rewrite Z.pow_succ_r by apply ctz_pos_nonneg.
    change (Zpos p~0) with (2 * Zpos p). rewrite Hm. ring.
  - exists 1. split; reflexivity.
Qed.

Lemma countr_zero_odd (w v : Z) :
  Z.odd v = true -> 0 <= v -> APInt.countr_zero (APInt.mk w v) = 0.
Proof.
  unfold APInt.countr_zero; simpl. destruct v as [|p|p]; try discriminate; try lia.
  destruct p; simpl; try discriminate; reflexivity.
Qed.

Lemma pow2_split (w : Z) : 0 < w -> 2 ^ w = 2 * 2 ^ (w - 1).
Proof.
  intros Hw. replace w with (Z.succ (w - 1)) at 1 by lia.
  apply Z.pow_succ_r. lia.
Qed.

Lemma pow2_pos (w : Z) : 0 <= w -> 0 < 2 ^ w.
Proof. intros. apply Z.pow_pos_nonneg; lia. Qed.

Lemma sval_range (a : APInt.t) :
  APInt.wf a ->
  - 2 ^ (APInt.BitWidth a - 1) <= APInt.sval a < 2 ^ (APInt.BitWidth a - 1).
Proof.
  intros [Hw Hv]. unfold APInt.sval.
  pose proof (pow2_split _ Hw).
  destruct (Z.ltb_spec (APInt.Val a) (2 ^ (APInt.BitWidth a - 1))); lia.
Qed.

Lemma isPowerOf2_spec (w z : Z) :
  APInt.isPowerOf2 (APInt.mk w z) = true <-> IsPow2 z.
Proof.
  split.
  - intros H. exists (Z.log2 z). split; [apply Z.log2_nonneg|].
    apply (isPowerOf2_log2 (APInt.mk w z) H).
  - intros [N [HN ->]]. now apply isPowerOf2_pow2.
Qed.

Lemma IsPow2_odd (z : Z) : IsPow2 z -> Z.odd z = true -> z = 1.
Proof.
  intros [N [HN ->]] Ho.
  destruct (Z.eq_dec N 0) as [->|Hne]; [reflexivity|].
  replace N with (Z.succ (N - 1)) in Ho by lia.
  rewrite Z.pow_succ_r, Z.odd_mul in Ho by lia. discriminate.
Qed.

(** The sign-extended constant in terms of its signed value. *)
Lemma sext_make (a : APInt.t) (W : Z) :
  APInt.BitWidth a <= W ->
  APInt.sext a W = Ok (APInt.make W (APInt.sval a)).
Proof.
  intros H. unfold APInt.sext.
  destruct (Z.leb_spec (APInt.BitWidth a) W); [reflexivity | lia].
Qed.

Lemma make_nonneg (W C : Z) :
  0 < W -> 0 <= C < 2 ^ (W - 1) -> APInt.make W C = APInt.mk W C.
Proof.
  intros HW HC. apply make_small. pose proof (pow2_split _ HW). lia.
Qed.

Lemma make_negative (W C : Z) :
  0 < W -> - 2 ^ (W - 1) <= C < 0 ->
  APInt.make W C = APInt.mk W (2 ^ W + C).
Proof.
  intros HW HC. unfold APInt.make. f_equal.
  pose proof (pow2_split _ HW).
  symmetry. apply Z.mod_unique with (q := -1); lia.
Qed.

Lemma match_mul_view MI MRI dst lhs rhs W Const :
  MulOfConst MI MRI dst lhs rhs W Const ->
  matchAArch64MulConstCombine MI MRI =
  mulConstView MRI lhs dst (APInt.make W (APInt.sval (Value Const))).
Proof.
  intros [Hopc Hdst Hlhs Hrhs Hty Hcst Hwf Hw].
  unfold matchAArch64MulConstCombine.
  rewrite Hopc, Hlhs, Hrhs, Hdst. cbn [bind].
  simpl (assert _). cbn [bind].
  rewrite Hcst, Hty. cbn [bind].
  rewrite (sext_make _ _ Hw). cbn [bind].
  reflexivity.
Qed.

Lemma MulOfConst_W_pos MI MRI dst lhs rhs W Const :
  MulOfConst MI MRI dst lhs rhs W Const -> 0 < W.
Proof. intros [_ _ _ _ _ _ [H _] Hw]. lia. Qed.

Lemma MulOfConst_range MI MRI dst lhs rhs W Const :
  MulOfConst MI MRI dst lhs rhs W Const ->
  - 2 ^ (W - 1) <= APInt.sval (Value Const) < 2 ^ (W - 1).
Proof.
  intros [_ _ _ _ _ _ Hwf Hw].
  pose proof (sval_range _ Hwf) as Hr. destruct Hwf as [Hb _].
  assert (2 ^ (APInt.BitWidth (Value Const) - 1) <= 2 ^ (W - 1))
    by (apply pow2_ge; lia).
  lia.
Qed.

Lemma insertAt_app (A : Type) (l1 l2 : list A) (x : A) :
  insertAt (length l1) x (l1 ++ l2) = l1 ++ x :: l2.
Proof.
  unfold insertAt.
  rewrite firstn_app, firstn_all, Nat.sub_diag, skipn_app, skipn_all,
    Nat.sub_diag. simpl. now rewrite app_nil_r.
Qed.

Lemma removeAt_app (A : Type) (l1 l2 : list A) (x : A) :
  removeAt (length l1) (l1 ++ x :: l2) = l1 ++ l2.
Proof.
  unfold removeAt.
  rewrite firstn_app, firstn_all, Nat.sub_diag, skipn_app.
  replace (S (length l1) - length l1)%nat with 1%nat by lia.
  rewrite skipn_all2 by lia. simpl. now rewrite app_nil_r.
Qed.

Lemma replaceAt_app (A : Type) (l1 l2 : list A) (x y : A) :
  replaceAt (length l1) y (l1 ++ x :: l2) = l1 ++ y :: l2.
Proof.
  unfold replaceAt.
  rewrite firstn_app, firstn_all, Nat.sub_diag, skipn_app.
  replace (S (length l1) - length l1)%nat with 1%nat by lia.
  rewrite skipn_all2 by lia. simpl. now rewrite app_nil_r.
Qed.

Lemma building_start pre MI post T pt :
  setInstrAndDebugLoc (length pre)
    {| B_MRI := {| Insts := pre ++ MI :: post; VRegToType := T |};
       InsertPt := pt |}
  = Ok (tt, building pre [] (MI :: post) T).
Proof.
  unfold setInstrAndDebugLoc, building. simpl. now rewrite Nat.add_0_r.
Qed.

Lemma run_insertInstr pre mid post T x :
  insertInstr x (building pre mid post T)
  = Ok (tt, building pre (mid ++ [x]) post T).
Proof.
  unfold insertInstr, building. simpl. do 2 f_equal.
  f_equal.
  - f_equal. rewrite <- length_app, app_assoc, insertAt_app.
    now rewrite <- !app_assoc.
  - rewrite length_app. simpl. lia.
Qed.

Lemma run_createVReg pre mid post T ty :
  createGenericVirtualRegister ty (building pre mid post T)
  = Ok (length T, building pre mid post (T ++ [ty])).
Proof. reflexivity. Qed.

Lemma run_currentInstr pre mid MI post T :
  currentInstr (building pre mid (MI :: post) T)
  = Ok (MI, building pre mid (MI :: post) T).
Proof.
  unfold currentInstr, building. simpl.
  rewrite <- length_app, app_assoc, nth_error_app2 by lia.
  now rewrite Nat.sub_diag.
Qed.

Lemma run_eraseFromParent pre mid MI post T :
  eraseFromParent (building pre mid (MI :: post) T)
  = Ok (tt, building pre mid post T).
Proof.
  unfold eraseFromParent, building. simpl. do 3 f_equal.
  rewrite <- length_app, app_assoc, removeAt_app. now rewrite <- app_assoc.
Qed.

Lemma run_getTypeB pre mid post T r :
  getTypeB r (building pre mid post T)
  = Ok (nth r T LLT_invalid, building pre mid post T).
Proof. reflexivity. Qed.

Lemma run_buildInstr pre mid post T o ty srcs :
  buildInstr o ty srcs (building pre mid post T)
  = Ok (length T,
        building pre (mid ++ [mkInstr o (def (length T) :: map use srcs)])
          post (T ++ [ty])).
Proof.
  unfold buildInstr, bindB. rewrite run_createVReg, run_insertInstr.
  reflexivity.
Qed.

Lemma run_buildInstrTo pre mid post T o d srcs :
  buildInstrTo o d srcs (building pre mid post T)
  = Ok (tt, building pre (mid ++ [mkInstr o (def d :: map use srcs)]) post T).
Proof. unfold buildInstrTo. apply run_insertInstr. Qed.

Lemma run_buildConstant_scalar pre mid post T w v :
  buildConstant (LLT_scalar w) v (building pre mid post T)
  = Ok (length T,
        building pre
          (mid ++ [mkInstr G_CONSTANT
                     [def (length T); MO_CImmediate (APInt.make w v)]])
          post (T ++ [LLT_scalar w])).
Proof.
  unfold buildConstant, bindB, liftB. simpl getScalarSizeInBits. cbv iota.
  rewrite run_createVReg, run_insertInstr. reflexivity.
Qed.

Lemma run_buildStore pre mid post T v a MMO :
  buildStore v a MMO (building pre mid post T)
  = Ok (tt,
        building pre
          (mid ++ [{| Opc := G_STORE; Operands := [use v; use a];
                      MemOperands := [MMO] |}]) post T).
Proof. unfold buildStore. apply run_insertInstr. Qed.

Lemma countr_zero_nonneg (a : APInt.t) :
  0 < APInt.BitWidth a -> 0 <= APInt.countr_zero a.
Proof.
  unfold APInt.countr_zero. destruct (APInt.Val a); try lia.
  intros _. apply ctz_pos_nonneg.
Qed.

Lemma isPowerOf2_odd_false (w z : Z) :
  Z.odd z = true -> z <> 1 -> APInt.isPowerOf2 (APInt.mk w z) = false.
Proof.
  intros Ho Hne. destruct (APInt.isPowerOf2 (APInt.mk w z)) eqn:E; [|reflexivity].
  apply isPowerOf2_spec in E. now apply IsPow2_odd in E.
Qed.

Lemma pow2_ge_4 (W : Z) : 2 <= W -> 4 <= 2 ^ W.
Proof. intros. change 4 with (2 ^ 2). apply pow2_ge. lia. Qed.

Lemma allones_not_pow2 (W : Z) :
  2 <= W -> APInt.isPowerOf2 (APInt.mk W (2 ^ W - 1)) = false.
Proof.
  intros HW. apply isPowerOf2_odd_false.
  - rewrite pow2_split by lia.
    replace (2 * 2 ^ (W - 1) - 1) with (1 + 2 * (2 ^ (W - 1) - 1)) by ring.
    now rewrite Z.odd_add_mul_2.
  - pose proof (pow2_ge_4 _ HW). lia.
Qed.

Lemma shiftr_le (C t : Z) : 0 <= C -> 0 <= t -> 0 <= Z.shiftr C t <= C.
Proof.
  intros HC Ht. rewrite Z.shiftr_div_pow2 by assumption.
  pose proof (pow2_pos _ Ht). split.
  - apply Z.div_pos; lia.
  - apply Z.div_le_upper_bound; [lia|]. nia.
Qed.

(** The decomposition of a non-negative constant, in plain integers. *)
Lemma mulChoice_nonneg (W C : Z) :
  2 <= W -> 0 <= C < 2 ^ (W - 1) ->
  let t := APInt.countr_zero (APInt.mk W C) in
  let C' := Z.shiftr C t in
  mulChoice (APInt.mk W C) =
    if APInt.isPowerOf2 (APInt.mk W (C' - 1)) then
      Some (Z.log2 (C' - 1), G_ADD, true, false)
    else if APInt.isPowerOf2 (APInt.mk W (C + 1)) then
      Some (Z.log2 (C + 1), G_SUB, true, false)
    else None.
Proof.
  intros HW HC t C'. unfold mulChoice. fold t.
  assert (Ht : 0 <= t) by (apply countr_zero_nonneg; simpl; lia).
  assert (Hnn : APInt.isNonNegative (APInt.mk W C) = true).
  { unfold APInt.isNonNegative; simpl. apply Z.ltb_lt. lia. }
  assert (Hsv : APInt.sval (APInt.mk W C) = C).
  { unfold APInt.sval; simpl.
    destruct (Z.ltb_spec C (2 ^ (W - 1))); [reflexivity | lia]. }
  rewrite Hnn. unfold APInt.ashr. rewrite Hsv. fold C'.
  pose proof (shiftr_le _ _ (proj1 HC) Ht) as HC'. fold C' in HC'.
  simpl APInt.BitWidth.
  rewrite (make_nonneg W C') by lia.
  unfold APInt.add, APInt.sub. simpl APInt.BitWidth. simpl APInt.Val.
  pose proof (pow2_split W) as Hs.
  rewrite (make_small W (C + 1)) by lia.
  destruct (Z.eq_dec C' 0) as [E0 | Hne].
  - rewrite E0.
    assert (H4 : 4 <= 2 ^ W) by now apply pow2_ge_4.
    replace (APInt.make W (0 - 1)) with (APInt.mk W (2 ^ W - 1)).
    + rewrite allones_not_pow2 by assumption. reflexivity.
    + unfold APInt.make. f_equal.
      apply Z.mod_unique with (q := -1); lia.
  - rewrite (make_small W (C' - 1)) by lia. reflexivity.
Qed.

(** The decomposition of a negative constant, in plain integers. *)
Lemma mulChoice_negative (W C : Z) :
  2 <= W -> - 2 ^ (W - 1) <= C < 0 ->
  mulChoice (APInt.mk W (2 ^ W + C)) =
    if APInt.isPowerOf2 (APInt.mk W (- C + 1)) then
      Some (Z.log2 (- C + 1), G_SUB, false, false)
    else if APInt.isPowerOf2 (APInt.mk W (- C - 1)) then
      Some (Z.log2 (- C - 1), G_ADD, true, true)
    else None.
Proof.
  intros HW HC. unfold mulChoice.
  pose proof (pow2_split W) as Hs.
  assert (H4 : 4 <= 2 ^ W) by now apply pow2_ge_4.
  assert (Hnn : APInt.isNonNegative (APInt.mk W (2 ^ W + C)) = false).
  { unfold APInt.isNonNegative; simpl. apply Z.ltb_ge. lia. }
  rewrite Hnn. unfold APInt.neg, APInt.add, APInt.sub.
  simpl APInt.BitWidth. simpl APInt.Val.
  assert (Hneg : - (2 ^ W + C) mod 2 ^ W = - C).
  { symmetry. apply Z.mod_unique with (q := -1); lia. }
  rewrite Hneg.
  rewrite (make_small W (- C + 1)) by lia.
  rewrite (make_small W (- C - 1)) by lia.
  reflexivity.
Qed.

Lemma destruct_MRI (MRI : MachineRegisterInfo) :
  MRI = {| Insts := Insts MRI; VRegToType := VRegToType MRI |}.
Proof. now destruct MRI. Qed.

(** What the multiply closure builds when no negation is needed. *)
Lemma apply_mul_no_negate MRI pre MI post dst fn :
  InstrAt MRI pre MI post ->
  getOperandReg MI 0 = Ok dst ->
  NegateResult fn = false ->
  let n := length (VRegToType MRI) in
  let sum :=
    if ShiftValUseIsLHS fn then binop (AddSubOpc fn) (2 + n) (1 + n) (LHS fn)
    else binop (AddSubOpc fn) (2 + n) (LHS fn) (1 + n) in
  let last :=
    if TrailingZeroes fn =? 0 then [copy dst (2 + n)]
    else [cst (3 + n) 64 (TrailingZeroes fn);
          binop G_SHL dst (2 + n) (3 + n)] in
  exists MRI',
    rewriteWith (applyAArch64MulConstCombine (length pre) fn) MRI = Ok MRI'
    /\ Insts MRI' =
       pre ++ ([cst n 64 (ShiftAmt fn); binop G_SHL (1 + n) (LHS fn) n; sum]
               ++ last) ++ post.
Proof.
  intros Hat Hdst Hneg n sum last.
  unfold rewriteWith, applyAArch64MulConstCombine, bindB.
  rewrite (destruct_MRI MRI), Hat. simpl Insts. simpl VRegToType.
  rewrite building_start, run_currentInstr. unfold liftB at 1. rewrite Hdst.
  unfold ApplyFn, bindB, buildShl.
  rewrite run_buildConstant_scalar, run_buildInstr, run_buildInstr.
  rewrite Hneg. simpl (liftB _ _).
  assert (L1 : length (VRegToType MRI ++ [LLT_scalar 64]) = (1 + n)%nat)
    by (rewrite length_app; simpl; lia).
  assert (L2 : length ((VRegToType MRI ++ [LLT_scalar 64]) ++ [Ty fn])
               = (2 + n)%nat)
    by (rewrite !length_app; simpl; lia).
  assert (L3 : length (((VRegToType MRI ++ [LLT_scalar 64]) ++ [Ty fn])
                       ++ [Ty fn]) = (3 + n)%nat)
    by (rewrite !length_app; simpl; lia).
  rewrite L1, L2.
  subst last. destruct (TrailingZeroes fn =? 0); cbn [negb].
  - unfold buildCopy. rewrite run_buildInstrTo, run_eraseFromParent.
    eexists; split; [reflexivity|]. simpl Insts.
    subst sum. destruct (ShiftValUseIsLHS fn); reflexivity.
  - rewrite run_buildConstant_scalar, run_buildInstrTo, run_eraseFromParent.
    rewrite L3.
    eexists; split; [reflexivity|]. simpl Insts.
    subst sum. destruct (ShiftValUseIsLHS fn); reflexivity.
Qed.

(** The builder never aborts on a valid type. *)
Lemma buildConstant_total ty v B :
  ty <> LLT_invalid -> exists r B', buildConstant ty v B = Ok (r, B').
Proof.
  intros Hty. destruct ty; try congruence; do 2 eexists; reflexivity.
Qed.

Lemma buildInstr_total o ty srcs B :
  exists r B', buildInstr o ty srcs B = Ok (r, B').
Proof. do 2 eexists; reflexivity. Qed.

Lemma ApplyFn_total (fn : MulConstApplyFn) (DstReg : Register)
    (B : MachineIRBuilder) :
  Ty fn <> LLT_invalid ->
  NegateResult fn && negb (TrailingZeroes fn =? 0) = false ->
  exists B', ApplyFn fn DstReg B = Ok (tt, B').
Proof.
  intros Hty Hex. unfold ApplyFn, bindB, buildShl.
  destruct (buildConstant_total (LLT_scalar 64) (ShiftAmt fn) B)
    as [r1 [B1 E1]]; [discriminate|]. rewrite E1.
  destruct (buildInstr_total G_SHL (Ty fn) [LHS fn; r1] B1) as [r2 [B2 E2]].
  rewrite E2.
  match goal with
  | |- context [buildInstr (AddSubOpc fn) (Ty fn) ?l B2] =>
      destruct (buildInstr_total (AddSubOpc fn) (Ty fn) l B2)
        as [r3 [B3 E3]]; rewrite E3
  end.
  rewrite Hex. simpl (liftB _ _).
  destruct (NegateResult fn).
  - destruct (buildConstant_total (Ty fn) 0 B3 Hty) as [r4 [B4 E4]].
    rewrite E4. eexists. reflexivity.
  - destruct (negb (TrailingZeroes fn =? 0)).
    + destruct (buildConstant_total (LLT_scalar 64) (TrailingZeroes fn) B3)
        as [r4 [B4 E4]]; [discriminate|]. rewrite E4. eexists. reflexivity.
    + eexists. reflexivity.
Qed.

(** What a successful match tells about the closure. *)
Lemma match_mul_inv MI MRI fn :
  matchAArch64MulConstCombine MI MRI = Ok (Some fn) ->
  Ty fn <> LLT_invalid /\
  NegateResult fn && negb (TrailingZeroes fn =? 0) = false.
Proof.
  unfold matchAArch64MulConstCombine.
  destruct (assert _); try discriminate. cbn [bind].
  destruct (getOperandReg MI 1) as [lhs| |]; try discriminate. cbn [bind].
  destruct (getOperandReg MI 2) as [rhs| |]; try discriminate. cbn [bind].
  destruct (getOperandReg MI 0) as [dst| |]; try discriminate. cbn [bind].
  destruct (getIConstantVRegValWithLookThrough rhs MRI) as [Const|];
    try discriminate.
  destruct (getSizeInBits (getType MRI lhs)) as [W| |] eqn:EW;
    try discriminate. cbn [bind].
  destruct (APInt.sext (Value Const) W) as [CV| |]; try discriminate.
  cbn [bind].
  match goal with
  | |- bind ?g _ = _ -> _ => destruct g as [bail| |]; try discriminate
  end.
  cbn [bind]. destruct bail; try discriminate.
  match goal with
  | |- match ?c with Some _ => _ | None => _ end = _ -> _ =>
      destruct c as [[[[sa op] islhs] neg]|]; try discriminate
  end.
  destruct (neg && negb (APInt.countr_zero CV =? 0)) eqn:Eex;
    try discriminate.
  intros H. inversion H; subst; clear H. simpl. split; [|assumption].
  intros E. rewrite E in EW. discriminate.
Qed.

Lemma Opcode_eqb_true (a b : Opcode) : Opcode_eqb a b = true <-> a = b.
Proof.
  unfold Opcode_eqb. destruct (Opcode_eq_dec a b); split; congruence.
Qed.

Lemma opcode_in3 (o a b c : Opcode) :
  Opcode_eqb o a || Opcode_eqb o b || Opcode_eqb o c = true
  <-> In o [a; b; c].
Proof.
  rewrite !orb_true_iff, !Opcode_eqb_true. simpl. intuition congruence.
Qed.

Lemma opcode_notin3 (o a b c : Opcode) :
  ~ In o [a; b; c] ->
  Opcode_eqb o a || Opcode_eqb o b || Opcode_eqb o c = false.
Proof.
  intros H. destruct (_ || _ || _) eqn:E; [|reflexivity].
  apply opcode_in3 in E. contradiction.
Qed.

Lemma ext_check_false MRI lhs :
  NoExtMulFusion MRI lhs ->
  (if hasOneNonDBGUse MRI lhs then
     s <- isSignExtended lhs MRI ;;
     if s then Ok true else isZeroExtended lhs MRI
   else Ok false) = Ok false.
Proof.
  intros [-> | [DefMI [Hd Hn]]]; [reflexivity|].
  destruct (hasOneNonDBGUse MRI lhs); [|reflexivity].
  unfold isSignExtended, isZeroExtended. rewrite Hd. cbn [deref bind].
  destruct (Opcode_eqb (getOpcode (snd DefMI)) G_SEXT) eqn:E1;
    [apply Opcode_eqb_true in E1; rewrite E1 in Hn; simpl in Hn; tauto|].
  destruct (Opcode_eqb (getOpcode (snd DefMI)) G_SEXT_INREG) eqn:E2;
    [apply Opcode_eqb_true in E2; rewrite E2 in Hn; simpl in Hn; tauto|].
  destruct (Opcode_eqb (getOpcode (snd DefMI)) G_ZEXT) eqn:E3;
    [apply Opcode_eqb_true in E3; rewrite E3 in Hn; simpl in Hn; tauto|].
  reflexivity.
Qed.

Lemma mulFusionGuard_false MRI lhs dst :
  NoExtMulFusion MRI lhs -> NoMulAddFusion MRI dst ->
  mulFusionGuard MRI lhs dst = Ok false.
Proof.
  intros Hext Hadd. unfold mulFusionGuard.
  rewrite (ext_check_false _ _ Hext). cbn [bind].
  destruct Hadd as [-> | [UseMI [Hu Hn]]]; [reflexivity|].
  destruct (hasOneNonDBGUse MRI dst); [|reflexivity].
  rewrite Hu. cbn [deref bind]. now rewrite opcode_notin3.
Qed.

Lemma mulFusionGuard_ext MRI lhs dst DefMI :
  hasOneNonDBGUse MRI lhs = true ->
  getVRegDef MRI lhs = Some DefMI ->
  In (getOpcode (snd DefMI)) [G_SEXT; G_SEXT_INREG; G_ZEXT] ->
  mulFusionGuard MRI lhs dst = Ok true.
Proof.
  intros H1 Hd Hin. unfold mulFusionGuard, isSignExtended, isZeroExtended.
  rewrite H1, Hd. cbn [deref bind].
  simpl in Hin. destruct Hin as [E | [E | [E | []]]]; rewrite <- E; reflexivity.
Qed.

Lemma mulFusionGuard_madd MRI lhs dst DefMI UseMI :
  getVRegDef MRI lhs = Some DefMI ->
  hasOneNonDBGUse MRI dst = true ->
  use_instr_begin MRI dst = Some UseMI ->
  In (getOpcode (snd UseMI)) [G_ADD; G_PTR_ADD; G_SUB] ->
  mulFusionGuard MRI lhs dst = Ok true.
Proof.
  intros Hd H1 Hu Hin. unfold mulFusionGuard, isSignExtended, isZeroExtended.
  rewrite Hd. cbn [deref bind].
  assert (E : (if hasOneNonDBGUse MRI lhs
               then if Opcode_eqb (getOpcode (snd DefMI)) G_SEXT
                       || Opcode_eqb (getOpcode (snd DefMI)) G_SEXT_INREG
                    then Ok true
                    else Ok (Opcode_eqb (getOpcode (snd DefMI)) G_ZEXT)
               else Ok false) = Ok true \/ 
              (if hasOneNonDBGUse MRI lhs
               then if Opcode_eqb (getOpcode (snd DefMI)) G_SEXT
                       || Opcode_eqb (getOpcode (snd DefMI)) G_SEXT_INREG
                    then Ok true
                    else Ok (Opcode_eqb (getOpcode (snd DefMI)) G_ZEXT)
               else Ok false) = Ok false).
  { destruct (hasOneNonDBGUse MRI lhs); [|now right].
    destruct (_ || _); [now left|].
    destruct (Opcode_eqb _ G_ZEXT); [now left | now right]. }
  destruct E as [E | E]; rewrite E; cbn [bind]; [reflexivity|].
  rewrite H1, Hu. cbn [deref bind]. apply opcode_in3 in Hin.
  now rewrite Hin.
Qed.

(** The matcher on a constant of known sign, with the guards out of the
    way. *)
Lemma odd_pow2_plus (W C : Z) :
  0 < W -> Z.odd C = true -> Z.odd (2 ^ W + C) = true.
Proof.
  intros HW Ho. rewrite pow2_split by assumption.
  rewrite Z.add_comm, Z.odd_add_mul_2. assumption.
Qed.

Lemma W_ge_2 (W C : Z) :
  0 < W -> - 2 ^ (W - 1) <= C < 2 ^ (W - 1) -> (C < -1 \/ 1 <= C) -> 2 <= W.
Proof.
  intros HW HC Hb. destruct (Z.le_gt_cases 2 W) as [|Hlt]; [assumption|].
  replace W with 1 in HC by lia. simpl in HC. lia.
Qed.

Lemma view_nonneg MRI lhs dst W C :
  2 <= W -> 0 <= C < 2 ^ (W - 1) ->
  let t := APInt.countr_zero (APInt.mk W C) in
  let C' := Z.shiftr C t in
  t = 0 \/ mulFusionGuard MRI lhs dst = Ok false ->
  mulConstView MRI lhs dst (APInt.make W C) =
    if APInt.isPowerOf2 (APInt.mk W (C' - 1)) then
      Ok (Some (mkFn (Z.log2 (C' - 1)) G_ADD true false t
                  (getType MRI lhs) lhs))
    else if APInt.isPowerOf2 (APInt.mk W (C + 1)) then
      Ok (Some (mkFn (Z.log2 (C + 1)) G_SUB true false t
                  (getType MRI lhs) lhs))
    else Ok None.
Proof.
  intros HW HC t C' Hg. rewrite make_nonneg by lia.
  unfold mulConstView. fold t.
  assert (Hb : (if t =? 0 then Ok false else mulFusionGuard MRI lhs dst)
               = Ok false).
  { destruct Hg as [-> | ->]; [reflexivity | now destruct (t =? 0)]. }
  rewrite Hb. cbn [bind].
  rewrite mulChoice_nonneg by assumption. fold t. fold C'.
  destruct (APInt.isPowerOf2 (APInt.mk W (C' - 1))); [reflexivity|].
  destruct (APInt.isPowerOf2 (APInt.mk W (C + 1))); reflexivity.
Qed.

Lemma view_negative MRI lhs dst W C :
  2 <= W -> - 2 ^ (W - 1) <= C < 0 ->
  APInt.countr_zero (APInt.mk W (2 ^ W + C)) = 0 ->
  mulConstView MRI lhs dst (APInt.make W C) =
    if APInt.isPowerOf2 (APInt.mk W (- C + 1)) then
      Ok (Some (mkFn (Z.log2 (- C + 1)) G_SUB false false 0
                  (getType MRI lhs) lhs))
    else if APInt.isPowerOf2 (APInt.mk W (- C - 1)) then
      Ok (Some (mkFn (Z.log2 (- C - 1)) G_ADD true true 0
                  (getType MRI lhs) lhs))
    else Ok None.
Proof.
  intros HW HC Ht. rewrite make_negative by lia.
  unfold mulConstView. rewrite Ht. cbn [Z.eqb bind].
  rewrite mulChoice_negative by assumption.
  destruct (APInt.isPowerOf2 (APInt.mk W (- C + 1))); [reflexivity|].
  destruct (APInt.isPowerOf2 (APInt.mk W (- C - 1))); reflexivity.
Qed.

Section MulConstCases.
Variables (MI : MachineInstr) (MRI : MachineRegisterInfo).
Variables (dst lhs rhs : Register) (W : Z) (Const : ValueAndVReg).
Variables (pre post : list MachineInstr).
Hypothesis Hmul : MulOfConst MI MRI dst lhs rhs W Const.
Hypothesis Hat : InstrAt MRI pre MI post.

Let C := APInt.sval (Value Const).
Let n := length (VRegToType MRI).
Let ty := getType MRI lhs.

Lemma fires_no_negate fn seq :
  matchAArch64MulConstCombine MI MRI = Ok (Some fn) ->
  NegateResult fn = false ->
  seq = [cst n 64 (ShiftAmt fn); binop G_SHL (1 + n) (LHS fn) n;
         if ShiftValUseIsLHS fn
         then binop (AddSubOpc fn) (2 + n) (1 + n) (LHS fn)
         else binop (AddSubOpc fn) (2 + n) (LHS fn) (1 + n)]
        ++ (if TrailingZeroes fn =? 0 then [copy dst (2 + n)]
            else [cst (3 + n) 64 (TrailingZeroes fn);
                  binop G_SHL dst (2 + n) (3 + n)]) ->
  firesWith MI MRI pre post fn seq.
Proof.
  intros Hm Hneg ->. split; [assumption|].
  apply (apply_mul_no_negate MRI pre MI post dst fn Hat (moc_dst _ _ _ _ _ _ _ Hmul) Hneg).
Qed.

Lemma C_range : - 2 ^ (W - 1) <= C < 2 ^ (W - 1).
Proof. apply (MulOfConst_range _ _ _ _ _ _ _ Hmul). Qed.

Lemma W_pos : 0 < W.
Proof. apply (MulOfConst_W_pos _ _ _ _ _ _ _ Hmul). Qed.

Lemma match_nonneg_case (c : Z) (fn : MulConstApplyFn) :
  C = c -> 1 <= c ->
  APInt.countr_zero (APInt.mk W c) = 0
    \/ mulFusionGuard MRI lhs dst = Ok false ->
  (let t := APInt.countr_zero (APInt.mk W c) in
   let C' := Z.shiftr c t in
   if APInt.isPowerOf2 (APInt.mk W (C' - 1)) then
     Ok (Some (mkFn (Z.log2 (C' - 1)) G_ADD true false t ty lhs))
   else if APInt.isPowerOf2 (APInt.mk W (c + 1)) then
     Ok (Some (mkFn (Z.log2 (c + 1)) G_SUB true false t ty lhs))
   else Ok None) = Ok (Some fn) ->
  matchAArch64MulConstCombine MI MRI = Ok (Some fn).
Proof.
  intros HC Hc Hg Hv. pose proof C_range as Hr. pose proof W_pos as HW.
  rewrite (match_mul_view _ _ _ _ _ _ _ Hmul). fold C. rewrite HC in *.
  assert (2 <= W) by (apply (W_ge_2 W c); lia).
  rewrite view_nonneg by (assumption || lia). exact Hv.
Qed.
End MulConstCases.

Lemma mulFunction_MulOfConst (c : Z) users tys :
  MulOfConst mulInstr (mulFunction c users tys) 2 0 1 32 (constOf c).
Proof.
  split; try reflexivity.
  apply make_wf. lia.
Defined.

(** C2, amended.  The multiply rule on the listed constants: for C = 3 it
    fires and builds a shift left by 1 and an add of the original operand;
    for C = 7 a shift left by 3 and a subtract of the original operand; for
    C = 6, when neither fusion guard applies, a shift left by 1, an add and
    a final shift left by 1; for C = -3 a shift left by 2 and a subtract
    whose right operand is the shifted value ([ShiftValUseIsLHS] is false);
    for C = 11 it does not fire.  Without a final shift or negation the
    result reaches the destination through a copy. *)
Theorem mul_const_concrete_decompositions
    (MI : MachineInstr) (MRI : MachineRegisterInfo)
    (dst lhs rhs : Register) (W : Z) (Const : ValueAndVReg)
    (pre post : list MachineInstr)
    (Hmul : MulOfConst MI MRI dst lhs rhs W Const)
    (Hat : InstrAt MRI pre MI post) :
  let C := APInt.sval (Value Const) in
  let n := length (VRegToType MRI) in
  let ty := getType MRI lhs in
  let fires := firesWith MI MRI pre post in
  (C = 3 ->
     fires (mkFn 1 G_ADD true false 0 ty lhs)
       [cst n 64 1; binop G_SHL (1 + n) lhs n;
        binop G_ADD (2 + n) (1 + n) lhs; copy dst (2 + n)])
  /\ (C = 7 ->
     fires (mkFn 3 G_SUB true false 0 ty lhs)
       [cst n 64 3; binop G_SHL (1 + n) lhs n;
        binop G_SUB (2 + n) (1 + n) lhs; copy dst (2 + n)])
  /\ (C = 6 -> NoFusionGuard MRI lhs dst ->
     fires (mkFn 1 G_ADD true false 1 ty lhs)
       [cst n 64 1; binop G_SHL (1 + n) lhs n;
        binop G_ADD (2 + n) (1 + n) lhs;
        cst (3 + n) 64 1; binop G_SHL dst (2 + n) (3 + n)])
  /\ (C = -3 ->
     fires (mkFn 2 G_SUB false false 0 ty lhs)
       [cst n 64 2; binop G_SHL (1 + n) lhs n;
        binop G_SUB (2 + n) lhs (1 + n); copy dst (2 + n)])
  /\ (C = 11 -> matchAArch64MulConstCombine MI MRI = Ok None).
Proof.
  intros C n ty fires.
  pose proof (MulOfConst_range _ _ _ _ _ _ _ Hmul) as Hr. fold C in Hr.
  pose proof (MulOfConst_W_pos _ _ _ _ _ _ _ Hmul) as HW.
  split; [|split; [|split; [|split]]]; intros HC.
  - eapply fires_no_negate; [exact Hmul | exact Hat | | reflexivity..].
    apply (match_nonneg_case _ _ _ _ _ _ _ Hmul 3); auto; try lia.
  - eapply fires_no_negate; [exact Hmul | exact Hat | | reflexivity..].
    apply (match_nonneg_case _ _ _ _ _ _ _ Hmul 7); auto; try lia.
  - intros [Hext Hadd].
    eapply fires_no_negate; [exact Hmul | exact Hat | | reflexivity..].
    apply (match_nonneg_case _ _ _ _ _ _ _ Hmul 6); auto; try lia.
    right. now apply mulFusionGuard_false.
  - eapply fires_no_negate; [exact Hmul | exact Hat | | reflexivity..].
    rewrite (match_mul_view _ _ _ _ _ _ _ Hmul). fold C. rewrite HC in *.
    assert (2 <= W) by (apply (W_ge_2 W (-3)); lia).
    rewrite view_negative; [reflexivity | assumption | lia |].
    apply countr_zero_odd.
    + now apply odd_pow2_plus.
    + pose proof (pow2_ge_4 _ H). lia.
  - rewrite (match_mul_view _ _ _ _ _ _ _ Hmul). fold C. rewrite HC in *.
    assert (2 <= W) by (apply (W_ge_2 W 11); lia).
    rewrite view_nonneg; [reflexivity | assumption | lia |].
    left. reflexivity.
Qed.

Lemma mul_const_concrete_decompositions_witness :
  firesWith mulInstr (mulFunction 3 [] []) [copy 0 w0; cst 1 32 3] []
    (mkFn 1 G_ADD true false 0 s32 0)
    [cst 3 64 1; binop G_SHL 4 0 3; binop G_ADD 5 4 0; copy 2 5].
Proof.
  exact (proj1 (mul_const_concrete_decompositions
                  mulInstr (mulFunction 3 [] []) 2 0 1 32 (constOf 3)
                  [copy 0 w0; cst 1 32 3] []
                  (mulFunction_MulOfConst 3 [] []) eq_refl) eq_refl).
Defined.

(** C2 as stated fails at C = 6 when the product feeds an add: the
    constant has one trailing zero bit, the result has exactly one use, an
    add, and the rule does not fire. *)
Lemma mul_const_6_feeding_add_not_lowered :
  let MRI := mulFunction 6 [binop G_ADD 3 2 0] [s32] in
  let pre := [copy 0 w0; cst 1 32 6] in
  let post := [binop G_ADD 3 2 0] in
  MulOfConst mulInstr MRI 2 0 1 32 (constOf 6)
  /\ InstrAt MRI pre mulInstr post
  /\ APInt.sval (Value (constOf 6)) = 6
  /\ matchAArch64MulConstCombine mulInstr MRI = Ok None
  /\ ~ firesWith mulInstr MRI pre post (mkFn 1 G_ADD true false 1 s32 0)
        [cst 4 64 1; binop G_SHL 5 0 4; binop G_ADD 6 5 0;
         cst 7 64 1; binop G_SHL 2 6 7].
Proof.
  intros MRI pre post.
  split; [apply mulFunction_MulOfConst|].
  split; [reflexivity|]. split; [reflexivity|]. split; [reflexivity|].
  intros [Hm _]. discriminate Hm.
Qed.

Lemma isPowerOf2_true_iff w z : APInt.isPowerOf2 (APInt.mk w z) = true <-> IsPow2 z.
Proof. apply isPowerOf2_spec. Qed.

Lemma isPowerOf2_false_iff w z :
  APInt.isPowerOf2 (APInt.mk w z) = false <-> ~ IsPow2 z.
Proof.
  rewrite <- (isPowerOf2_spec w z).
  destruct (APInt.isPowerOf2 (APInt.mk w z)); split; congruence.
Qed.

Example mul_by_7_at_32_bits :
  matchAArch64MulConstCombine mulInstr (mulFunction 7 [] [])
  = Ok (Some (mkFn 3 G_SUB true false 0 s32 0)).
Proof. reflexivity. Qed.

Example mul_by_6_at_32_bits :
  matchAArch64MulConstCombine mulInstr (mulFunction 6 [] [])
  = Ok (Some (mkFn 1 G_ADD true false 1 s32 0))
  /\ rewriteWith (applyAArch64MulConstCombine 2
                    (mkFn 1 G_ADD true false 1 s32 0)) (mulFunction 6 [] [])
     = Ok {| Insts := [copy 0 w0; cst 1 32 6; cst 3 64 1; binop G_SHL 4 0 3;
                       binop G_ADD 5 4 0; cst 6 64 1; binop G_SHL 2 5 6];
             VRegToType := [s32; s32; s32; s64; s32; s32; s64] |}.
Proof. split; reflexivity. Qed.

Example mul_by_minus_3_at_32_bits :
  matchAArch64MulConstCombine mulInstr (mulFunction (-3) [] [])
  = Ok (Some (mkFn 2 G_SUB false false 0 s32 0)).
Proof. reflexivity. Qed.

Example mul_by_11_at_32_bits :
  matchAArch64MulConstCombine mulInstr (mulFunction 11 [] []) = Ok None.
Proof. reflexivity. Qed.

(** C3, amended.  For a non-negative constant C of width at least 2, with
    t trailing zero bits and C' = C >> t, and with the fusion guards out of
    the way: if C' - 1 is a power of two the rule fires with a shift left
    by log2 (C' - 1) and an add of the original operand; otherwise, if
    C + 1 -- the constant itself, not C' -- is a power of two, it fires
    with a shift left by log2 (C + 1) and a subtract of the operand from
    the shifted value; in both cases a final shift left by t follows when
    t > 0, and a copy otherwise.  In every other case it does not fire. *)
Theorem mul_const_nonneg_decomposition
    (MI : MachineInstr) (MRI : MachineRegisterInfo)
    (dst lhs rhs : Register) (W : Z) (Const : ValueAndVReg)
    (pre post : list MachineInstr)
    (Hmul : MulOfConst MI MRI dst lhs rhs W Const)
    (Hat : InstrAt MRI pre MI post) :
  let C := APInt.sval (Value Const) in
  let t := APInt.countr_zero (APInt.make W C) in
  let C' := Z.shiftr C t in
  let n := length (VRegToType MRI) in
  let ty := getType MRI lhs in
  let fires := firesWith MI MRI pre post in
  let final :=
    if t =? 0 then [copy dst (2 + n)]
    else [cst (3 + n) 64 t; binop G_SHL dst (2 + n) (3 + n)] in
  2 <= W -> 0 <= C ->
  t = 0 \/ NoFusionGuard MRI lhs dst ->
  (IsPow2 (C' - 1) ->
     fires (mkFn (Z.log2 (C' - 1)) G_ADD true false t ty lhs)
       ([cst n 64 (Z.log2 (C' - 1)); binop G_SHL (1 + n) lhs n;
         binop G_ADD (2 + n) (1 + n) lhs] ++ final))
  /\ (~ IsPow2 (C' - 1) -> IsPow2 (C + 1) ->
     fires (mkFn (Z.log2 (C + 1)) G_SUB true false t ty lhs)
       ([cst n 64 (Z.log2 (C + 1)); binop G_SHL (1 + n) lhs n;
         binop G_SUB (2 + n) (1 + n) lhs] ++ final))
  /\ (~ IsPow2 (C' - 1) -> ~ IsPow2 (C + 1) ->
     matchAArch64MulConstCombine MI MRI = Ok None).
Proof.
  intros C t C' n ty fires final HW HC Hg.
  pose proof (MulOfConst_range _ _ _ _ _ _ _ Hmul) as Hr. fold C in Hr.
  assert (Hmk : APInt.make W C = APInt.mk W C) by (apply make_nonneg; lia).
  assert (Hview :
    matchAArch64MulConstCombine MI MRI =
      if APInt.isPowerOf2 (APInt.mk W (C' - 1)) then
        Ok (Some (mkFn (Z.log2 (C' - 1)) G_ADD true false t ty lhs))
      else if APInt.isPowerOf2 (APInt.mk W (C + 1)) then
        Ok (Some (mkFn (Z.log2 (C + 1)) G_SUB true false t ty lhs))
      else Ok None).
  { rewrite (match_mul_view _ _ _ _ _ _ _ Hmul). fold C.
    rewrite view_nonneg; try lia.
    - subst C' t. rewrite Hmk. reflexivity.
    - rewrite <- Hmk. fold t.
      destruct Hg as [? | [? ?]]; [now left | right].
      now apply mulFusionGuard_false. }
  split; [|split].
  - intros Hp. apply (isPowerOf2_true_iff W) in Hp. rewrite Hp in Hview.
    eapply fires_no_negate; [exact Hmul | exact Hat | assumption
                            | reflexivity..].
  - intros Hn Hp. apply (isPowerOf2_false_iff W) in Hn.
    apply (isPowerOf2_true_iff W) in Hp. rewrite Hn, Hp in Hview.
    eapply fires_no_negate; [exact Hmul | exact Hat | assumption
                            | reflexivity..].
  - intros Hn Hn'. apply (isPowerOf2_false_iff W) in Hn.
    apply (isPowerOf2_false_iff W) in Hn'. now rewrite Hn, Hn' in Hview.
Qed.

Lemma NoFusionGuard_mulFunction c :
  NoFusionGuard (mulFunction c [] []) 0 2.
Proof.
  split.
  - right. exists (0%nat, copy 0 w0). split; [reflexivity|].
    simpl. intuition discriminate.
  - left. reflexivity.
Defined.

Lemma IsPow2_4 : IsPow2 (Z.shiftr 12 2 - 1).
Proof. exists 1. split; [lia | reflexivity]. Defined.

Lemma mul_const_nonneg_decomposition_witness :
  firesWith mulInstr (mulFunction 12 [] []) [copy 0 w0; cst 1 32 12] []
    (mkFn 1 G_ADD true false 2 s32 0)
    [cst 3 64 1; binop G_SHL 4 0 3; binop G_ADD 5 4 0;
     cst 6 64 2; binop G_SHL 2 5 6].
Proof.
  refine (proj1 (mul_const_nonneg_decomposition
                   mulInstr (mulFunction 12 [] []) 2 0 1 32 (constOf 12)
                   [copy 0 w0; cst 1 32 12] []
                   (mulFunction_MulOfConst 12 [] []) eq_refl _ _ _) IsPow2_4).
  - lia.
  - vm_compute. discriminate.
  - right. apply NoFusionGuard_mulFunction.
Defined.

(** C3 as stated fails at C = 14: there t = 1 and C' = 7, C' - 1 is not a
    power of two and C' + 1 = 8 is, no guard applies, and yet the rule does
    not fire. *)
Lemma mul_const_14_not_lowered :
  let MRI := mulFunction 14 [] [] in
  let C := APInt.sval (Value (constOf 14)) in
  let t := APInt.countr_zero (APInt.make 32 C) in
  let C' := Z.shiftr C t in
  MulOfConst mulInstr MRI 2 0 1 32 (constOf 14)
  /\ 0 <= C /\ t = 1 /\ C' = 7
  /\ ~ IsPow2 (C' - 1) /\ IsPow2 (C' + 1)
  /\ NoFusionGuard MRI 0 2
  /\ matchAArch64MulConstCombine mulInstr MRI = Ok None.
Proof.
  intros MRI C t C'.
  split; [apply mulFunction_MulOfConst|].
  split; [vm_compute; discriminate|].
  split; [reflexivity|]. split; [reflexivity|].
  split; [now apply (isPowerOf2_false_iff 32)|].
  split; [exists 3; split; [lia | reflexivity]|].
  split; [apply NoFusionGuard_mulFunction | reflexivity].
Qed.

(** The second guard alone: when the result has exactly one use and that
    use is an add, a subtract or a pointer add, the guards never answer
    false. *)
Lemma mulFusionGuard_madd_only MRI lhs dst UseMI b :
  hasOneNonDBGUse MRI dst = true ->
  use_instr_begin MRI dst = Some UseMI ->
  In (getOpcode (snd UseMI)) [G_ADD; G_PTR_ADD; G_SUB] ->
  mulFusionGuard MRI lhs dst = Ok b -> b = true.
Proof.
  intros H1 Hu Hin. apply opcode_in3 in Hin.
  unfold mulFusionGuard, isSignExtended, isZeroExtended.
  rewrite H1, Hu. cbn [deref bind]. rewrite Hin.
  destruct (hasOneNonDBGUse MRI lhs); cbn [bind].
  - destruct (getVRegDef MRI lhs) as [DefMI|]; cbn [deref bind];
      [|discriminate].
    destruct (Opcode_eqb (getOpcode (snd DefMI)) G_SEXT
              || Opcode_eqb (getOpcode (snd DefMI)) G_SEXT_INREG);
      cbn [bind]; [congruence|].
    destruct (Opcode_eqb (getOpcode (snd DefMI)) G_ZEXT); cbn [bind];
      congruence.
  - congruence.
Qed.

Lemma mulFusionGuard_madd_no_ext MRI lhs dst UseMI :
  hasOneNonDBGUse MRI lhs = false ->
  hasOneNonDBGUse MRI dst = true ->
  use_instr_begin MRI dst = Some UseMI ->
  In (getOpcode (snd UseMI)) [G_ADD; G_PTR_ADD; G_SUB] ->
  mulFusionGuard MRI lhs dst = Ok true.
Proof.
  intros H0 H1 Hu Hin. apply opcode_in3 in Hin.
  unfold mulFusionGuard. rewrite H0, H1, Hu. cbn [deref bind].
  now rewrite Hin.
Qed.

(** Without trailing zero bits the matcher never reaches the guards. *)
Lemma view_no_trailing_zeroes MRI lhs dst CV :
  APInt.countr_zero CV = 0 ->
  mulConstView MRI lhs dst CV =
    match mulChoice CV with
    | None => Ok None
    | Some (sa, o, islhs, neg) =>
        Ok (Some (mkFn sa o islhs neg 0 (getType MRI lhs) lhs))
    end.
Proof.
  intros Ht. unfold mulConstView. rewrite Ht. cbn [Z.eqb bind].
  destruct (mulChoice CV) as [[[[sa o] islhs] neg]|]; [|reflexivity].
  cbn [negb]. now rewrite andb_false_r.
Qed.

(** C4, amended.  When the constant has trailing zero bits (t > 0), the
    rule does not fire if the non-constant operand has exactly one use and
    is itself defined by a sign or zero extension, and it does not fire if
    the result of the multiply has exactly one use and the first
    instruction on its use list is an add, a subtract or a pointer add: the
    matcher then never returns a closure, and it returns false whenever the
    first guard can be evaluated (the non-constant operand has a defining
    instruction, or not exactly one use).  When t = 0 neither guard is
    consulted: the answer of the matcher is fixed by the constant, the type
    and the operand alone, whatever the uses and definitions are. *)
Theorem mul_const_fusion_guards
    (MI : MachineInstr) (MRI : MachineRegisterInfo)
    (dst lhs rhs : Register) (W : Z) (Const : ValueAndVReg)
    (Hmul : MulOfConst MI MRI dst lhs rhs W Const) :
  let CV := APInt.make W (APInt.sval (Value Const)) in
  let t := APInt.countr_zero CV in
  (0 < t ->
   (forall DefMI,
       hasOneNonDBGUse MRI lhs = true ->
       getVRegDef MRI lhs = Some DefMI ->
       In (getOpcode (snd DefMI)) [G_SEXT; G_SEXT_INREG; G_ZEXT] ->
       matchAArch64MulConstCombine MI MRI = Ok None)
   /\ (forall UseMI,
       hasOneNonDBGUse MRI dst = true ->
       use_instr_begin MRI dst = Some UseMI ->
       In (getOpcode (snd UseMI)) [G_ADD; G_PTR_ADD; G_SUB] ->
       (forall fn, matchAArch64MulConstCombine MI MRI <> Ok (Some fn))
       /\ (hasOneNonDBGUse MRI lhs = false
           \/ (exists DefMI, getVRegDef MRI lhs = Some DefMI) ->
           matchAArch64MulConstCombine MI MRI = Ok None)))
  /\ (t = 0 ->
      matchAArch64MulConstCombine MI MRI =
        match mulChoice CV with
        | None => Ok None
        | Some (sa, o, islhs, neg) =>
            Ok (Some (mkFn sa o islhs neg 0 (getType MRI lhs) lhs))
        end).
Proof.
  intros CV t. split.
  - intros Ht.
    assert (Hz : (t =? 0) = false) by (apply Z.eqb_neq; lia).
    split.
    + intros DefMI H1 Hd Hin. rewrite (match_mul_view _ _ _ _ _ _ _ Hmul).
      unfold mulConstView. fold CV. fold t. rewrite Hz.
      now rewrite (mulFusionGuard_ext _ _ dst _ H1 Hd Hin).
    + intros UseMI H1 Hu Hin. split.
      * intros fn. rewrite (match_mul_view _ _ _ _ _ _ _ Hmul).
        unfold mulConstView. fold CV. fold t. rewrite Hz.
        destruct (mulFusionGuard MRI lhs dst) as [b| |] eqn:Eg;
          cbn [bind]; try discriminate.
        rewrite (mulFusionGuard_madd_only _ _ _ _ _ H1 Hu Hin Eg).
        discriminate.
      * intros Hl. rewrite (match_mul_view _ _ _ _ _ _ _ Hmul).
        unfold mulConstView. fold CV. fold t. rewrite Hz.
        destruct Hl as [H0 | [DefMI Hd]].
        -- now rewrite (mulFusionGuard_madd_no_ext _ _ _ _ H0 H1 Hu Hin).
        -- now rewrite (mulFusionGuard_madd _ _ _ _ _ Hd H1 Hu Hin).
  - intros Ht. rewrite (match_mul_view _ _ _ _ _ _ _ Hmul). fold CV.
    apply view_no_trailing_zeroes. exact Ht.
Qed.

Lemma mul_const_fusion_guards_witness :
  matchAArch64MulConstCombine mulInstr
    (mulFunction 6 [binop G_ADD 3 2 0] [s32]) = Ok None.
Proof.
  refine (proj2 (proj2 (proj1 (mul_const_fusion_guards
                   mulInstr (mulFunction 6 [binop G_ADD 3 2 0] [s32])
                   2 0 1 32 (constOf 6)
                   (mulFunction_MulOfConst 6 [binop G_ADD 3 2 0] [s32])) _)
            (3%nat, binop G_ADD 3 2 0) eq_refl eq_refl _) _).
  - vm_compute. reflexivity.
  - simpl. tauto.
  - right. exists (0%nat, copy 0 w0). reflexivity.
Defined.

(** C4 as stated fails without trailing zero bits: a multiply by 3 whose
    result has exactly one use, an add, is lowered all the same. *)
Lemma mul_const_3_feeding_add_is_lowered :
  let MRI := mulFunction 3 [binop G_ADD 3 2 0] [s32] in
  MulOfConst mulInstr MRI 2 0 1 32 (constOf 3)
  /\ hasOneNonDBGUse MRI 2 = true
  /\ use_instr_begin MRI 2 = Some (3%nat, binop G_ADD 3 2 0)
  /\ getOpcode (binop G_ADD 3 2 0) = G_ADD
  /\ matchAArch64MulConstCombine mulInstr MRI
     = Ok (Some (mkFn 1 G_ADD true false 0 s32 0)).
Proof.
  intros MRI. split; [apply mulFunction_MulOfConst|].
  repeat split.
Qed.

(** What a successful match has chosen, in terms of the constant. *)
Lemma match_mul_choice (MI : MachineInstr) (MRI : MachineRegisterInfo)
    (dst lhs rhs : Register) (W : Z) (Const : ValueAndVReg)
    (fn : MulConstApplyFn) :
  MulOfConst MI MRI dst lhs rhs W Const ->
  matchAArch64MulConstCombine MI MRI = Ok (Some fn) ->
  let CV := APInt.make W (APInt.sval (Value Const)) in
  let t := APInt.countr_zero CV in
  exists sa o islhs neg,
    mulChoice CV = Some (sa, o, islhs, neg)
    /\ neg && negb (t =? 0) = false
    /\ fn = mkFn sa o islhs neg t (getType MRI lhs) lhs.
Proof.
  intros Hmul Hm CV t.
  rewrite (match_mul_view _ _ _ _ _ _ _ Hmul) in Hm.
  unfold mulConstView in Hm. fold CV in Hm. fold t in Hm.
  destruct (if t =? 0 then Ok false else mulFusionGuard MRI lhs dst)
    as [bail| |]; try discriminate.
  cbn [bind] in Hm. destruct bail; try discriminate.
  destruct (mulChoice CV) as [[[[sa o] islhs] neg]|]; try discriminate.
  destruct (neg && negb (t =? 0)) eqn:Eex; try discriminate.
  inversion Hm. exists sa, o, islhs, neg. auto.
Qed.

(** C5.  After a successful match the closure never asks for both a
    negation and a trailing shift, its trailing-zero count being that of
    the constant; so the assertion in its body holds and running it always
    succeeds. *)
Theorem mul_const_negate_excludes_trailing_shift
    (MI : MachineInstr) (MRI : MachineRegisterInfo) (fn : MulConstApplyFn) :
  matchAArch64MulConstCombine MI MRI = Ok (Some fn) ->
  ~ (NegateResult fn = true /\ TrailingZeroes fn <> 0)
  /\ (forall dst lhs rhs W Const,
        MulOfConst MI MRI dst lhs rhs W Const ->
        TrailingZeroes fn
        = APInt.countr_zero (APInt.make W (APInt.sval (Value Const))))
  /\ forall (DstReg : Register) (B : MachineIRBuilder),
       exists B', ApplyFn fn DstReg B = Ok (tt, B').
Proof.
  intros Hm. destruct (match_mul_inv _ _ _ Hm) as [Hty Hex].
  split; [|split].
  - intros [Hn Ht]. rewrite Hn in Hex. simpl in Hex.
    apply negb_false_iff, Z.eqb_eq in Hex. contradiction.
  - intros dst lhs rhs W Const Hmul.
    destruct (match_mul_choice _ _ _ _ _ _ _ _ Hmul Hm)
      as (sa & o & islhs & neg & _ & _ & ->).
    reflexivity.
  - intros DstReg B. now apply ApplyFn_total.
Qed.

Lemma mul_const_negate_excludes_trailing_shift_witness :
  let fn := mkFn 2 G_ADD true true 0 s32 0 in
  ~ (NegateResult fn = true /\ TrailingZeroes fn <> 0)
  /\ (forall dst lhs rhs W Const,
        MulOfConst mulInstr (mulFunction (-5) [] []) dst lhs rhs W Const ->
        TrailingZeroes fn
        = APInt.countr_zero (APInt.make W (APInt.sval (Value Const))))
  /\ forall (DstReg : Register) (B : MachineIRBuilder),
       exists B', ApplyFn fn DstReg B = Ok (tt, B').
Proof.
  exact (mul_const_negate_excludes_trailing_shift mulInstr
           (mulFunction (-5) [] []) (mkFn 2 G_ADD true true 0 s32 0)
           eq_refl).
Defined.

(** ** Merge with zero *)

Lemma LLT_eqb_eq (a b : LLT) : LLT_eqb a b = true <-> a = b.
Proof.
  destruct a, b; simpl; split; intros H; try discriminate; try reflexivity.
  - apply Z.eqb_eq in H. now subst.
  - inversion H. apply Z.eqb_refl.
  - apply andb_true_iff in H. destruct H as [H1 H2].
    apply Z.eqb_eq in H1, H2. now subst.
  - inversion H. now rewrite !Z.eqb_refl.
  - apply andb_true_iff in H. destruct H as [H1 H2].
    apply Z.eqb_eq in H1, H2. now subst.
  - inversion H. now rewrite !Z.eqb_refl.
Qed.

Lemma m_SpecificICst_spec (v : Z) (R : Register) (MRI : MachineRegisterInfo) :
  m_SpecificICst v R MRI = true <->
  exists c, getIConstantVRegVal R MRI = Some c /\
            APInt.BitWidth c <= 64 /\ APInt.sval c = v.
Proof.
  unfold m_SpecificICst. destruct (getIConstantVRegVal R MRI) as [c|].
  - rewrite andb_true_iff, Z.leb_le, Z.eqb_eq. split.
    + intros [H1 H2]. now exists c.
    + intros [c' [E [H1 H2]]]. inversion E; subst. now split.
  - split; [discriminate|]. intros [c [E _]]. discriminate.
Qed.

Lemma length3 (A : Type) (l : list A) :
  length l = 3%nat -> exists d a z, l = [d; a; z].
Proof.
  destruct l as [|d [|a [|z [|x rest]]]]; simpl; intros H; try discriminate.
  now exists d, a, z.
Qed.

Lemma merge_match_iff (MI : MachineInstr) (MRI : MachineRegisterInfo) :
  getOpcode MI = G_MERGE_VALUES ->
  (matchFoldMergeToZext MI MRI = Ok true <->
   exists d fa a fz z,
     Operands MI = [d; MO_Register fa a; MO_Register fz z]
     /\ getType MRI a = LLT_scalar 32
     /\ m_SpecificICst 0 z MRI = true).
Proof.
  intros Hopc. unfold matchFoldMergeToZext. rewrite Hopc.
  cbn [assert bind Opcode_eqb]. simpl (Opcode_eqb _ _). cbn [assert bind].
  destruct (Z.eqb_spec (getNumSources MI) 2) as [E2 | N2].
  - unfold getNumSources in E2.
    destruct (length3 _ (Operands MI)) as (d & a & z & E); [lia|].
    unfold getSourceReg, getOperandReg, getOperand. rewrite E.
    cbn [nth_error deref bind negb orb].
    destruct a as [fa a| | | |]; cbn [getReg bind];
      try (split; [discriminate|];
           intros (? & ? & ? & ? & ? & E' & _); discriminate).
    destruct (LLT_eqb (getType MRI a) (LLT_scalar 32)) eqn:Ety;
      cbn [negb orb].
    + apply LLT_eqb_eq in Ety.
      destruct z as [fz z| | | |]; cbn [getReg bind];
        try (split; [discriminate|];
             intros (? & ? & ? & ? & ? & E' & _); discriminate).
      split.
      * intros H. inversion H as [Hm].
        exists d, fa, a, fz, z. rewrite Hm. auto.
      * intros (? & ? & ? & ? & ? & E' & _ & Hm).
        inversion E'; subst. now rewrite Hm.
    + split; [discriminate|].
      intros (? & ? & ? & ? & ? & E' & Ht & _). inversion E'; subst.
      rewrite Ht in Ety. discriminate.
  - split.
    + destruct (getSourceReg MI 0); cbn [bind negb]; try discriminate.
      rewrite orb_true_r. discriminate.
    + intros (? & ? & ? & ? & ? & E' & _). exfalso. apply N2.
      unfold getNumSources. rewrite E'. reflexivity.
Qed.

(** C7.  The merge rule matches exactly when the instruction has two
    sources, the first source is a 32-bit scalar and the second source is
    defined by the constant zero; it never matches when the second source
    is not a constant.  On a match, apply rewrites the instruction where it
    stands: the opcode becomes G_ZEXT and the second source is dropped,
    while the destination operand, the first source, the rest of the
    function and the register types stay as they were, and the observer
    hears of the change before and after. *)
Theorem fold_merge_to_zext_in_place
    (MI : MachineInstr) (MRI : MachineRegisterInfo)
    (pre post : list MachineInstr) (Observer : GISelChangeObserver) :
  getOpcode MI = G_MERGE_VALUES ->
  InstrAt MRI pre MI post ->
  (matchFoldMergeToZext MI MRI = Ok true <->
     exists d fa a fz z c,
       Operands MI = [d; MO_Register fa a; MO_Register fz z]
       /\ getType MRI a = LLT_scalar 32
       /\ getIConstantVRegVal z MRI = Some c
       /\ APInt.BitWidth c <= 64 /\ APInt.sval c = 0)
  /\ (forall src1,
        getSourceReg MI 1 = Ok src1 ->
        getIConstantVRegVal src1 MRI = None ->
        matchFoldMergeToZext MI MRI <> Ok true)
  /\ (matchFoldMergeToZext MI MRI = Ok true ->
      exists d a z,
        Operands MI = [d; a; z] /\
        applyFoldMergeToZext (length pre) MRI Observer =
          Ok ({| Insts :=
                   pre ++ {| Opc := G_ZEXT; Operands := [d; a];
                             MemOperands := MemOperands MI |} :: post;
                 VRegToType := VRegToType MRI |},
              Observer ++ [changingInstr (length pre);
                           changedInstr (length pre)])).
Proof.
  intros Hopc Hat. pose proof (merge_match_iff MI MRI Hopc) as Hiff.
  split; [|split].
  - rewrite Hiff. split.
    + intros (d & fa & a & fz & z & E & Ht & Hm).
      apply m_SpecificICst_spec in Hm. destruct Hm as (c & Hc & Hw & Hv).
      exists d, fa, a, fz, z, c. auto.
    + intros (d & fa & a & fz & z & c & E & Ht & Hc & Hw & Hv).
      exists d, fa, a, fz, z. repeat split; auto.
      apply m_SpecificICst_spec. now exists c.
  - intros src1 Hs Hn Hm. apply Hiff in Hm.
    destruct Hm as (d & fa & a & fz & z & E & Ht & Hz).
    unfold getSourceReg, getOperandReg, getOperand in Hs.
    rewrite E in Hs. simpl in Hs. inversion Hs; subst.
    apply m_SpecificICst_spec in Hz. destruct Hz as (c & Hc & _).
    rewrite Hn in Hc. discriminate.
  - intros Hm. apply Hiff in Hm.
    destruct Hm as (d & fa & a & fz & z & E & Ht & Hz).
    exists d, (MO_Register fa a), (MO_Register fz z). split; [assumption|].
    unfold applyFoldMergeToZext. unfold InstrAt in Hat. rewrite Hat.
    rewrite nth_error_app2 by lia. rewrite Nat.sub_diag. cbn [nth_error deref bind].
    unfold removeOperand, setDesc. cbn [Operands Opc MemOperands].
    rewrite E. cbn [length Nat.ltb Nat.leb assert bind].
    unfold mutateInstr. rewrite Hat, replaceAt_app.
    rewrite <- !app_assoc. reflexivity.
Qed.

Lemma fold_merge_to_zext_in_place_witness :
  applyFoldMergeToZext 2 (mergeFunction (cst 1 32 0)) [] =
    Ok ({| Insts := [copy 0 w0; cst 1 32 0; mkInstr G_ZEXT [def 2; use 0]];
           VRegToType := [s32; s32; s64] |},
        [changingInstr 2; changedInstr 2]).
Proof.
  destruct (proj2 (proj2 (fold_merge_to_zext_in_place
                            mergeInstr (mergeFunction (cst 1 32 0))
                            [copy 0 w0; cst 1 32 0] [] [] eq_refl eq_refl))
              eq_refl) as (d & a & z & E & H).
  cbv [mergeInstr mkInstr Operands] in E. injection E as <- <- <-. exact H.
Defined.

(** ** Split store of zero *)

Ltac same_rhs :=
  repeat match goal with
         | H : ?x = _, H' : ?x = _ |- _ =>
             rewrite H in H'; inversion H'; subst; clear H'
         end.

Ltac no_pattern :=
  split;
  [ discriminate
  | intros (?M & ?V & ?C & ?H1 & ?H2 & ?H3 & ?H4 & ?H5 & ?H6 & ?H7
            & (?D & ?H8 & ?H9) & ?H10);
    same_rhs; try discriminate; try congruence; try lia ].

Lemma split_store_match_iff (MI : MachineInstr) (MRI : MachineRegisterInfo) :
  getOpcode MI = G_STORE ->
  (matchSplitStoreZero128 MI MRI = Ok true <->
   SplitStoreZero128Pattern MI MRI).
Proof.
  intros Hopc. unfold matchSplitStoreZero128, SplitStoreZero128Pattern,
    ConstantOrSplat.
  rewrite Hopc. simpl (assert _). cbn [bind].
  destruct (getMMO MI) as [MMO| |] eqn:EM; cbn [bind]; try no_pattern.
  destruct (isSimple MMO) eqn:ES; cbn [negb]; try no_pattern.
  destruct (getValueReg MI) as [ValueReg| |] eqn:EV; cbn [bind];
    try no_pattern.
  destruct (isVector (getType MRI ValueReg)) eqn:EVec; cbn [negb];
    try no_pattern.
  destruct (getSizeInBits (getType MRI ValueReg)) as [sz| |] eqn:Esz;
    cbn [bind]; try no_pattern.
  destruct (Z.eqb_spec sz 128) as [E128 | N128]; cbn [negb];
    try no_pattern.
  destruct (Z.eqb_spec sz (getMemSizeInBits MMO)) as [Emem | Nmem];
    cbn [negb]; try no_pattern.
  destruct (hasOneNonDBGUse MRI ValueReg) eqn:Euse; cbn [negb];
    try no_pattern.
  destruct (getVRegDef MRI ValueReg) as [DefMI|] eqn:Edef; cbn [deref bind];
    try no_pattern.
  destruct (isConstantOrConstantSplatVector (snd DefMI) MRI)
    as [[Cst|]| |] eqn:Ecst; cbn [bind]; try no_pattern.
  split.
  - intros H. inversion H as [Hz].
    exists MMO, ValueReg, Cst. rewrite Hz. subst sz.
    repeat split; auto. exists DefMI. auto.
  - intros (M & V & C & H1 & H2 & H3 & H4 & H5 & H6 & H7
            & (D & H8 & H9) & H10).
    same_rhs. congruence.
Qed.

(** C6.  The store rule matches exactly when the store is simple, the
    stored value is a 128-bit vector, the access is as wide as the value,
    the value has exactly one use and is a constant or splat equal to
    zero.  On a match, apply puts in place of the store a 64-bit zero, the
    address A + 8, and two 64-bit stores of that zero, to A and to A + 8,
    whose memory operands are the original one moved by 0 and by 8 bytes
    and narrowed to 64 bits.  A non-zero constant does not match, nor does
    a value with another number of uses. *)
Theorem split_store_zero_128
    (MI : MachineInstr) (MRI : MachineRegisterInfo)
    (pre post : list MachineInstr) (ValueReg A : Register)
    (MMO : MachineMemOperand) :
  getOpcode MI = G_STORE ->
  InstrAt MRI pre MI post ->
  getValueReg MI = Ok ValueReg ->
  getPointerReg MI = Ok A ->
  getMMO MI = Ok MMO ->
  let n := length (VRegToType MRI) in
  let half (Offset : Z) :=
    {| MMO_Offset := MMO_Offset MMO + Offset;
       MMO_MemoryType := LLT_scalar 64;
       MMO_BaseAlign := MMO_BaseAlign MMO;
       MMO_isVolatile := MMO_isVolatile MMO;
       MMO_isAtomic := MMO_isAtomic MMO |} in
  (matchSplitStoreZero128 MI MRI = Ok true <->
     SplitStoreZero128Pattern MI MRI)
  /\ (matchSplitStoreZero128 MI MRI = Ok true ->
      exists MRI',
        rewriteWith (applySplitStoreZero128 (length pre)) MRI = Ok MRI' /\
        Insts MRI' =
          pre ++ [cst n 64 0; cst (1 + n) 64 8;
                  binop G_PTR_ADD (2 + n) A (1 + n);
                  store n A (half 0); store n (2 + n) (half 8)] ++ post)
  /\ (forall Cst,
        ConstantOrSplat MRI ValueReg Cst -> APInt.isZero Cst = false ->
        matchSplitStoreZero128 MI MRI = Ok false)
  /\ (hasOneNonDBGUse MRI ValueReg = false ->
      matchSplitStoreZero128 MI MRI <> Ok true).
Proof.
  intros Hopc Hat HV HA HM n half.
  pose proof (split_store_match_iff MI MRI Hopc) as Hiff.
  split; [exact Hiff|]. split; [|split].
  - intros Hm. apply Hiff in Hm.
    destruct Hm as (M & V & C & H1 & H2 & H3 & H4 & H5 & H6 & H7 & H8 & H9).
    rewrite HM in H1. inversion H1; subst M; clear H1.
    rewrite HV in H2. inversion H2; subst V; clear H2.
    unfold rewriteWith, applySplitStoreZero128, bindB.
    rewrite (destruct_MRI MRI). unfold InstrAt in Hat. rewrite Hat.
    cbn [Insts VRegToType].
    rewrite building_start, run_currentInstr. rewrite Hopc.
    simpl (liftB (assert _) _). unfold liftB at 1. rewrite HV.
    rewrite run_getTypeB. fold (getType MRI ValueReg). rewrite H4.
    simpl (liftB (assert _) _). unfold liftB at 1. rewrite HA.
    rewrite run_buildConstant_scalar, run_getTypeB,
      run_buildConstant_scalar.
    unfold buildPtrAdd. rewrite run_buildInstr.
    unfold liftB. rewrite HM.
    rewrite run_buildStore, run_buildStore, run_eraseFromParent.
    eexists. split; [reflexivity|]. cbn [B_MRI building Insts].
    rewrite !length_app. cbn [length app].
    replace (length (VRegToType MRI) + 1)%nat with (1 + n)%nat by (subst n; lia).
    replace (1 + n + 1)%nat with (2 + n)%nat by lia.
    reflexivity.
  - intros Cst (D & Hd & Hc) Hz.
    unfold matchSplitStoreZero128. rewrite Hopc. simpl (assert _).
    cbn [bind]. rewrite HM. cbn [bind].
    destruct (isSimple MMO); cbn [negb]; [|reflexivity].
    rewrite HV. cbn [bind].
    destruct (getType MRI ValueReg) as [| s | k s | a s];
      cbn [isVector negb getSizeInBits bind]; try reflexivity.
    destruct (negb (k * s =? 128)); [reflexivity|].
    destruct (negb (k * s =? getMemSizeInBits MMO)); [reflexivity|].
    destruct (negb (hasOneNonDBGUse MRI ValueReg)); [reflexivity|].
    rewrite Hd. cbn [deref bind]. rewrite Hc. cbn [bind]. now rewrite Hz.
  - intros Hu Hm. apply Hiff in Hm.
    destruct Hm as (M & V & C & H1 & H2 & H3 & H4 & H5 & H6 & H7 & H8 & H9).
    rewrite HV in H2. inversion H2; subst V. congruence.
Qed.

Lemma split_store_zero_128_witness :
  exists MRI',
    rewriteWith (applySplitStoreZero128 3) (storeFunction 0 []) = Ok MRI' /\
    Insts MRI' =
      [copy 0 x0; cst 1 64 0; binop G_BUILD_VECTOR 2 1 1]
      ++ [cst 3 64 0; cst 4 64 8; binop G_PTR_ADD 5 0 4;
          store 3 0 (getMachineMemOperand storeMMO 0 s64);
          store 3 5 (getMachineMemOperand storeMMO 8 s64)] ++ [].
Proof.
  exact (proj1 (proj2 (split_store_zero_128
                         storeInstr (storeFunction 0 [])
                         [copy 0 x0; cst 1 64 0; binop G_BUILD_VECTOR 2 1 1]
                         [] 2 0 storeMMO
                         eq_refl eq_refl eq_refl eq_refl eq_refl))
           eq_refl).
Defined.

Example split_store_nonzero_does_not_fire :
  matchSplitStoreZero128 storeInstr (storeFunction 1 []) = Ok false.
Proof. reflexivity. Qed.

Example split_store_two_uses_does_not_fire :
  matchSplitStoreZero128 storeInstr
    (storeFunction 0 [store 2 0 storeMMO]) = Ok false.
Proof. reflexivity. Qed.

(** ** Pairwise add *)

Lemma MIPtr_eqb_refl (p : option MIPtr) : MIPtr_eqb p p = true.
Proof. destruct p as [[i m]|]; simpl; [apply Nat.eqb_refl | reflexivity]. Qed.

Lemma size_check_passes (sz : Z) :
  In sz [16; 32; 64] ->
  negb (sz =? 16) && negb (sz =? 32) && negb (sz =? 64) = false.
Proof.
  simpl. intros [<- | [<- | [<- | []]]]; reflexivity.
Qed.

Lemma size_check_fails (sz : Z) :
  sz <> 16 -> sz <> 32 -> sz <> 64 ->
  negb (sz =? 16) && negb (sz =? 32) && negb (sz =? 64) = true.
Proof.
  intros H1 H2 H3.
  apply Z.eqb_neq in H1, H2, H3. now rewrite H1, H2, H3.
Qed.

(** C8, amended.  Take an extraction whose index is the constant zero,
    whose result is 16, 32 or 64 bits wide, and whose source is a float add
    of a vector v with a shuffle of v that puts element 1 first, the
    shuffle being the operand the matcher settles on and v being the first
    result of its defining instruction.  Then the rule matches, and apply
    puts in place of the extraction the extractions of elements 0 and 1 of
    v and their float add into the original destination. *)
Theorem extract_pairwise_fadd
    (MI : MachineInstr) (MRI : MachineRegisterInfo)
    (pre post : list MachineInstr)
    (dst src1 src2 a b v : Register) (Cst : ValueAndVReg)
    (FAddMI Sh VDef : MIPtr) (mask : list Z) (sz : Z) :
  InstrAt MRI pre MI post ->
  getOperandReg MI 0 = Ok dst ->
  getOperandReg MI 1 = Ok src1 ->
  getOperandReg MI 2 = Ok src2 ->
  getIConstantVRegValWithLookThrough src2 MRI = Some Cst ->
  APInt.isZero (Value Cst) = true ->
  getOpcodeDef G_FADD src1 MRI = Some FAddMI ->
  getOperandReg (snd FAddMI) 1 = Ok a ->
  getOperandReg (snd FAddMI) 2 = Ok b ->
  getSizeInBits (getType MRI dst) = Ok sz ->
  In sz [16; 32; 64] ->
  ShuffleOperand MRI a b v Sh ->
  getOperandReg (snd Sh) 1 = Ok v ->
  getOperand (snd Sh) 3 = Ok (MO_ShuffleMask mask) ->
  nth_error mask 0 = Some 1 ->
  getVRegDef MRI v = Some VDef ->
  getOperandReg (snd VDef) 0 = Ok v ->
  let n := length (VRegToType MRI) in
  let MatchInfo := (G_FADD, getType MRI dst, v) in
  matchExtractVecEltPairwiseAdd MI MRI = Ok (Some MatchInfo)
  /\ exists MRI',
       rewriteWith (applyExtractVecEltPairwiseAdd (length pre) MatchInfo) MRI
       = Ok MRI'
       /\ Insts MRI' =
          pre ++ [cst n 64 0; binop G_EXTRACT_VECTOR_ELT (1 + n) v n;
                  cst (2 + n) 64 1;
                  binop G_EXTRACT_VECTOR_ELT (3 + n) v (2 + n);
                  binop G_FADD dst (1 + n) (3 + n)] ++ post.
Proof.
  intros Hat Hd H1 H2 Hc Hz Hf Ha Hb Hsz Hin Hsh Hs1 Hs3 Hm0 Hv Hv0
    n MatchInfo.
  split.
  - unfold matchExtractVecEltPairwiseAdd.
    rewrite H1, H2, Hd. cbn [bind]. rewrite Hc, Hz. cbn [negb].
    rewrite Hf, Hsz. cbn [bind]. rewrite (size_check_passes sz Hin).
    rewrite Ha, Hb. cbn [bind].
    assert (Hpair :
      match getOpcodeDef G_SHUFFLE_VECTOR b MRI with
      | Some Sh0 => (Some Sh0, getVRegDef MRI a)
      | None => (getOpcodeDef G_SHUFFLE_VECTOR a MRI, getVRegDef MRI b)
      end = (Some Sh, Some VDef)).
    { destruct Hsh as [[E ->] | [E [E' ->]]]; rewrite E; [|rewrite E'];
        now rewrite Hv. }
    rewrite Hpair. rewrite Hs3. cbn [bind getShuffleMask].
    rewrite Hm0. cbn [deref bind]. cbn [Z.eqb Pos.eqb].
    rewrite Hs1. cbn [bind]. rewrite Hv, MIPtr_eqb_refl.
    cbn [deref bind]. rewrite Hv0. reflexivity.
  - unfold rewriteWith, applyExtractVecEltPairwiseAdd, MatchInfo, bindB.
    simpl (liftB (assert _) _).
    rewrite (destruct_MRI MRI). unfold InstrAt in Hat. rewrite Hat.
    cbn [Insts VRegToType].
    rewrite building_start, run_currentInstr.
    unfold buildExtractVectorElement.
    rewrite run_buildConstant_scalar, run_buildInstr,
      run_buildConstant_scalar, run_buildInstr.
    unfold liftB. rewrite Hd.
    rewrite run_buildInstrTo, run_eraseFromParent.
    eexists. split; [reflexivity|]. cbn [B_MRI building Insts].
    rewrite !length_app. cbn [length app map].
    replace (length (VRegToType MRI) + 1)%nat with (1 + n)%nat
      by (subst n; lia).
    replace (1 + n + 1)%nat with (2 + n)%nat by lia.
    replace (2 + n + 1)%nat with (3 + n)%nat by lia.
    reflexivity.
Qed.

Lemma extract_pairwise_fadd_witness :
  matchExtractVecEltPairwiseAdd extractInstr (pairwiseFunction 32)
  = Ok (Some (G_FADD, s32, 0%nat)).
Proof.
  refine (proj1 (extract_pairwise_fadd
                   extractInstr (pairwiseFunction 32)
                   [copy 0 q0; mkInstr G_IMPLICIT_DEF [def 1]; shuffleInstr;
                    binop G_FADD 3 0 2; cst 4 64 0] []
                   5 3 4 0 2 0 {| Value := APInt.make 64 0; VReg := 4 |}
                   (3%nat, binop G_FADD 3 0 2) (2%nat, shuffleInstr)
                   (0%nat, copy 0 q0) [1; -1] 32
                   eq_refl eq_refl eq_refl eq_refl eq_refl eq_refl eq_refl
                   eq_refl eq_refl eq_refl _ _ eq_refl eq_refl eq_refl
                   eq_refl eq_refl)).
  - simpl. tauto.
  - left. split; reflexivity.
Defined.

(** C8 as stated fails on 128-bit elements: the index is the constant
    zero, the source is a float add of %0 with a shuffle of %0 that puts
    element 1 first, and the rule does not match. *)
Lemma extract_pairwise_fadd_128_not_matched :
  let MRI := pairwiseFunction 128 in
  getOperandReg extractInstr 2 = Ok 4%nat
  /\ getIConstantVRegValWithLookThrough 4 MRI
     = Some {| Value := APInt.make 64 0; VReg := 4 |}
  /\ getOperandReg extractInstr 1 = Ok 3%nat
  /\ getOpcodeDef G_FADD 3 MRI = Some (3%nat, binop G_FADD 3 0 2)
  /\ getOpcodeDef G_SHUFFLE_VECTOR 2 MRI = Some (2%nat, shuffleInstr)
  /\ Operands shuffleInstr = [def 2; use 0; use 1; MO_ShuffleMask [1; -1]]
  /\ matchExtractVecEltPairwiseAdd extractInstr MRI = Ok None.
Proof. repeat split. Qed.

(** The matcher looks at the second operand of the add first: when that
    operand is a shuffle which does not put element 1 first, the first
    operand is not tried, even if it is the shuffle of the pattern. *)
Example extract_pairwise_fadd_second_operand_first :
  let MRI := shuffleOfShuffleFunction in
  getOpcodeDef G_FADD 4 MRI = Some (4%nat, binop G_FADD 4 3 2)
  /\ getOpcodeDef G_SHUFFLE_VECTOR 3 MRI
     = Some (3%nat, mkInstr G_SHUFFLE_VECTOR
                      [def 3; use 2; use 1; MO_ShuffleMask [1; -1]])
  /\ matchExtractVecEltPairwiseAdd (binop G_EXTRACT_VECTOR_ELT 6 4 5) MRI
     = Ok None.
Proof. repeat split. Qed.

(** C10.  An extraction whose result is not 16, 32 or 64 bits wide is
    never matched by the pairwise rule, whatever the rest of the pattern
    looks like. *)
Theorem extract_pairwise_fadd_width_gate
    (MI : MachineInstr) (MRI : MachineRegisterInfo)
    (dst src1 src2 : Register) (DstSize : Z) :
  getOperandReg MI 0 = Ok dst ->
  getOperandReg MI 1 = Ok src1 ->
  getOperandReg MI 2 = Ok src2 ->
  getSizeInBits (getType MRI dst) = Ok DstSize ->
  DstSize <> 16 -> DstSize <> 32 -> DstSize <> 64 ->
  matchExtractVecEltPairwiseAdd MI MRI = Ok None.
Proof.
  intros Hd H1 H2 Hsz N16 N32 N64.
  unfold matchExtractVecEltPairwiseAdd.
  rewrite H1, H2, Hd. cbn [bind].
  destruct (getIConstantVRegValWithLookThrough src2 MRI) as [Cst|];
    [|reflexivity].
  destruct (negb (APInt.isZero (Value Cst))); [reflexivity|].
  destruct (getOpcodeDef G_FADD src1 MRI) as [FAddMI|]; [|reflexivity].
  rewrite Hsz. cbn [bind].
  now rewrite (size_check_fails DstSize N16 N32 N64).
Qed.

Lemma extract_pairwise_fadd_width_gate_witness :
  matchExtractVecEltPairwiseAdd extractInstr (pairwiseFunction 8) = Ok None.
Proof.
  apply (extract_pairwise_fadd_width_gate
           extractInstr (pairwiseFunction 8) 5 3 4 8);
    try reflexivity; discriminate.
Defined.

(** ** The pass *)

Lemma parse_unknown_name (Rules : list string) (CLOption : RuleConfigOption)
    (name : string) :
  In name (DisableOption CLOption ++ OnlyEnableOption CLOption) ->
  ~ In name Rules ->
  parseCommandLineOption Rules CLOption = false.
Proof.
  intros Hin Hn. unfold parseCommandLineOption.
  assert (Hr : isRegisteredRule Rules name = false).
  { unfold isRegisteredRule.
    destruct (existsb (String.eqb name) Rules) eqn:E; [|reflexivity].
    apply existsb_exists in E. destruct E as [x [Hx Hxe]].
    apply String.eqb_eq in Hxe. subst x. contradiction. }
  apply in_app_or in Hin. apply andb_false_iff.
  destruct Hin as [Hin | Hin]; [left | right];
    (destruct (forallb (isRegisteredRule Rules) _) eqn:E; [|reflexivity];
     rewrite forallb_forall in E; rewrite (E name Hin) in Hr;
     discriminate).
Qed.

(** C9.  When the command line names a rule that is not registered,
    building the combiner info is a fatal error; the pass then offers no
    instruction to the combiner, whatever driver it is given, and on a
    function that reaches the combiner setup it ends in that fatal
    error. *)
Theorem unknown_rule_is_fatal_before_combining
    (combineMachineInstrs : CombinerDriver) (Rules : list string)
    (CLOption : RuleConfigOption) (name : string)
    (MF : MachineFunction) (Trace : CombineTrace) :
  In name (DisableOption CLOption ++ OnlyEnableOption CLOption) ->
  ~ In name Rules ->
  (forall EnableOpt OptSize MinSize,
      mkAArch64PostLegalizerCombinerInfo Rules CLOption EnableOpt OptSize
        MinSize = Fatal "Invalid rule identifier")
  /\ snd (runOnMachineFunction combineMachineInstrs Rules CLOption MF Trace)
     = Trace
  /\ (FailedISel MF = false -> Legalized MF = true ->
      fst (runOnMachineFunction combineMachineInstrs Rules CLOption MF Trace)
      = Fatal "Invalid rule identifier").
Proof.
  intros Hin Hn.
  pose proof (parse_unknown_name Rules CLOption name Hin Hn) as Hp.
  assert (Hctor : forall EnableOpt OptSize MinSize,
             mkAArch64PostLegalizerCombinerInfo Rules CLOption EnableOpt
               OptSize MinSize = Fatal "Invalid rule identifier").
  { intros. unfold mkAArch64PostLegalizerCombinerInfo. now rewrite Hp. }
  split; [exact Hctor|]. unfold runOnMachineFunction. split.
  - destruct (FailedISel MF); [reflexivity|].
    destruct (negb (Legalized MF)); [reflexivity|].
    now rewrite Hctor.
  - intros -> ->. cbn [negb]. now rewrite Hctor.
Qed.

Lemma unknown_rule_is_fatal_before_combining_witness :
  runOnMachineFunction onePassDriver ruleTable
    {| DisableOption := ["mul_konst"%string]; OnlyEnableOption := [] |}
    (legalizedFunction (mulFunction 3 [] [])) []
  = (Fatal "Invalid rule identifier", []).
Proof.
  pose proof (unknown_rule_is_fatal_before_combining
                onePassDriver ruleTable
                {| DisableOption := ["mul_konst"%string];
                   OnlyEnableOption := [] |}
                "mul_konst"%string
                (legalizedFunction (mulFunction 3 [] [])) []) as H.
  destruct H as (_ & Ht & Hf).
  - simpl. now left.
  - simpl. intuition discriminate.
  - rewrite (surjective_pairing (runOnMachineFunction _ _ _ _ _)).
    rewrite Ht, (Hf eq_refl eq_refl). reflexivity.
Defined.

(** ** The pairwise rule on a value with two results *)

(** C1, on an input where the pairwise rule changes the value.  The added
    vector %2 is the second result of an unmerge; the matcher records the
    first result %1 as the shared vector.  The original function leaves
    the float add of elements 2 and 3 of the live-in vector in the
    destination, the rewritten one the float add of elements 0 and 1. *)
Theorem pairwise_add_reads_first_result
    (fadd : Z -> Z -> Z -> Z) (e0 e1 e2 e3 : Z) :
  let MRI := unmergePairwiseFunction in
  let live :=
    setReg q0 (VVector 32 [Some e0; Some e1; Some e2; Some e3]) noRegs in
  matchExtractVecEltPairwiseAdd unmergeExtract MRI
    = Ok (Some (G_FADD, s32, 1%nat))
  /\ resultOf fadd MRI live 7 = Some (VScalar 32 (Some (fadd 32 e2 e3)))
  /\ exists MRI',
       rewriteWith
         (applyExtractVecEltPairwiseAdd 6 (G_FADD, s32, 1%nat)) MRI
       = Ok MRI'
       /\ resultOf fadd MRI' live 7
          = Some (VScalar 32 (Some (fadd 32 e0 e1))).
Proof.
  intros MRI live. split; [vm_compute; reflexivity|].
  split; [vm_compute; reflexivity|].
  eexists. split; [vm_compute; reflexivity|vm_compute; reflexivity].
Qed.

(** On a vector with a single defining result the same rule keeps the
    value. *)
Example pairwise_add_same_value (fadd : Z -> Z -> Z -> Z) (e0 e1 : Z) :
  let MRI := pairwiseFunction 32 in
  let live := setReg q0 (VVector 32 [Some e0; Some e1]) noRegs in
  resultOf fadd MRI live 5 = Some (VScalar 32 (Some (fadd 32 e0 e1)))
  /\ exists MRI',
       rewriteWith
         (applyExtractVecEltPairwiseAdd 5 (G_FADD, s32, 0%nat)) MRI
       = Ok MRI'
       /\ resultOf fadd MRI' live 5
          = Some (VScalar 32 (Some (fadd 32 e0 e1))).
Proof.
  intros MRI live. split; [vm_compute; reflexivity|].
  eexists. split; [vm_compute; reflexivity|vm_compute; reflexivity].
Qed.

(** ** The multiply rule computes the product *)

Lemma mod_eq_intro (a b k M : Z) : a = b + k * M -> a mod M = b mod M.
Proof. intros ->. apply Z_mod_plus_full. Qed.

Lemma mod_eq_elim (v p M : Z) : M <> 0 -> v mod M = p -> exists q, v = p + q * M.
Proof.
  intros HM <-. exists (v / M). rewrite (Z.div_mod v M HM) at 1. ring.
Qed.

Lemma shiftr_countr_zero (W u : Z) :
  0 <= u ->
  Z.shiftr u (APInt.countr_zero (APInt.mk W u))
  * 2 ^ APInt.countr_zero (APInt.mk W u) = u.
Proof.
  intros Hu. unfold APInt.countr_zero; simpl.
  destruct u as [|p|p]; try lia.
  - rewrite Z.shiftr_0_l. ring.
  - destruct (ctz_pos_divide p) as [m [Hm _]].
    pose proof (ctz_pos_nonneg p) as Hn.
    rewrite Z.shiftr_div_pow2 by assumption.
    pose proof (pow2_pos _ Hn) as Hp.
    assert (Hq : Z.pos p / 2 ^ APInt.ctz_pos p = m)
      by (symmetry; apply Z.div_unique_exact; [lia | exact Hm]).
    rewrite Hq. rewrite Hm. ring.
Qed.

Lemma countr_zero_even (W u : Z) :
  0 < u -> APInt.countr_zero (APInt.mk W u) <> 0 -> Z.odd u = false.
Proof.
  unfold APInt.countr_zero; simpl. destruct u as [|p|p]; try lia.
  intros _. destruct p; simpl; try congruence.
Qed.

Lemma pow2_even (W : Z) : 0 < W -> Z.odd (2 ^ W) = false.
Proof.
  intros HW. rewrite (pow2_split W HW). now rewrite Z.odd_mul.
Qed.

Lemma mulChoice_sound (W C sa : Z) (o : Opcode) (islhs neg : bool) :
  0 < W ->
  let CV := APInt.make W C in
  let t := APInt.countr_zero CV in
  mulChoice CV = Some (sa, o, islhs, neg) ->
  neg && negb (t =? 0) = false ->
  forall ty lhs x,
    mulConstValue W (mkFn sa o islhs neg t ty lhs) x = (x * C) mod 2 ^ W.
Proof.
  intros HW CV t Hch Hex ty lhs x.
  set (M := 2 ^ W) in *.
  assert (HM : 0 < M) by (apply pow2_pos; lia).
  assert (HMe : M = 2 * 2 ^ (W - 1)) by (apply pow2_split; assumption).
  assert (Hh : 0 < 2 ^ (W - 1)) by (apply pow2_pos; lia).
  set (u := C mod M).
  assert (Hu : 0 <= u < M) by (apply Z.mod_pos_bound; assumption).
  assert (HCV : CV = APInt.mk W u) by reflexivity.
  rewrite <- (Z.mul_mod_idemp_r x C M) by lia. fold u.
  assert (Ht : 0 <= t) by (apply countr_zero_nonneg; simpl; lia).
  unfold mulConstValue, mkFn. cbn [ShiftAmt AddSubOpc ShiftValUseIsLHS
    NegateResult TrailingZeroes]. fold M.
  unfold mulChoice in Hch. fold CV in Hch. fold t in Hch.
  rewrite HCV in Hch. unfold APInt.isNonNegative in Hch.
  cbn [APInt.Val APInt.BitWidth] in Hch.
  destruct (Z.ltb_spec u (2 ^ (W - 1))) as [Hnn | Hng].
  - (* non-negative constant *)
    assert (Hsv : APInt.sval (APInt.mk W u) = u).
    { unfold APInt.sval; simpl.
      destruct (Z.ltb_spec u (2 ^ (W - 1))); [reflexivity | lia]. }
    unfold APInt.ashr, APInt.sub, APInt.add, APInt.make in Hch.
    rewrite Hsv in Hch. cbn [APInt.Val APInt.BitWidth] in Hch. fold M in Hch.
    pose proof (shiftr_countr_zero W u (proj1 Hu)) as Hsh.
    rewrite <- HCV in Hsh. fold t in Hsh.
    remember (Z.shiftr u t) as u' eqn:Eu'.
    destruct (APInt.isPowerOf2 (APInt.mk W ((u' mod M - 1) mod M))) eqn:E1.
    + inversion Hch; subst sa o islhs neg; clear Hch.
      apply isPowerOf2_log2 in E1. unfold APInt.logBase2 in E1 |- *.
      cbn [APInt.Val] in E1 |- *.
      set (N := Z.log2 ((u' mod M - 1) mod M)) in *.
      rewrite Zminus_mod_idemp_l in E1.
      destruct (mod_eq_elim _ _ M ltac:(lia) E1) as [q Hq].
      change (Opcode_eqb G_ADD G_ADD) with true. cbv iota.
      rewrite Z.add_mod_idemp_l by lia.
      destruct (Z.eqb_spec t 0) as [E0 | N0]; cbn [negb].
      * rewrite E0 in Hsh. rewrite Z.pow_0_r, Z.mul_1_r in Hsh.
        apply mod_eq_intro with (k := - q * x).
        rewrite <- Hsh.
        replace u' with (2 ^ N + q * M + 1) by lia. ring.
      * rewrite Z.mul_mod_idemp_l by lia.
        apply mod_eq_intro with (k := - q * x * 2 ^ t).
        rewrite <- Hsh.
        replace u' with (2 ^ N + q * M + 1) by lia. ring.
    + destruct (APInt.isPowerOf2 (APInt.mk W ((u + 1) mod M))) eqn:E2;
        [|discriminate].
      inversion Hch; subst sa o islhs neg; clear Hch.
      assert (Hsmall : (u + 1) mod M = u + 1) by (apply Z.mod_small; lia).
      rewrite Hsmall in *.
      pose proof E2 as E2'. apply isPowerOf2_log2 in E2.
      unfold APInt.logBase2 in E2 |- *. cbn [APInt.Val] in E2 |- *.
      set (N := Z.log2 (u + 1)) in *.
      change (Opcode_eqb G_SUB G_ADD) with false. cbv iota.
      rewrite Zminus_mod_idemp_l.
      destruct (Z.eqb_spec t 0) as [E0 | N0]; cbn [negb].
      * apply mod_eq_intro with (k := 0). rewrite <- E2. ring.
      * rewrite Z.mul_mod_idemp_l by lia.
        assert (u = 0).
        { destruct (Z.eq_dec u 0) as [|Hne]; [assumption|].
          assert (Z.odd u = false)
            by (apply (countr_zero_even W); [lia | now rewrite <- HCV]).
          assert (Ho : Z.odd (u + 1) = true)
            by (rewrite Z.odd_add; rewrite H; reflexivity).
          apply isPowerOf2_spec in E2'.
          pose proof (IsPow2_odd _ E2' Ho). lia. }
        subst u. rewrite H in *. rewrite <- E2.
        apply mod_eq_intro with (k := 0). ring.
  - (* negative constant *)
    unfold APInt.neg, APInt.sub, APInt.add, APInt.make in Hch.
    cbn [APInt.Val APInt.BitWidth] in Hch. fold M in Hch.
    assert (Hnv : (- u) mod M = M - u).
    { symmetry. apply Z.mod_unique with (q := -1); lia. }
    rewrite Hnv in Hch.
    destruct (APInt.isPowerOf2 (APInt.mk W ((M - u + 1) mod M))) eqn:E1.
    + inversion Hch; subst sa o islhs neg; clear Hch.
      pose proof E1 as E1'. apply isPowerOf2_log2 in E1.
      unfold APInt.logBase2 in E1 |- *. cbn [APInt.Val] in E1 |- *.
      set (N := Z.log2 ((M - u + 1) mod M)) in *.
      destruct (mod_eq_elim _ _ M ltac:(lia) E1) as [q Hq].
      change (Opcode_eqb G_SUB G_ADD) with false. cbv iota.
      rewrite Zminus_mod_idemp_r.
      destruct (Z.eqb_spec t 0) as [E0 | N0]; cbn [negb].
      * apply mod_eq_intro with (k := (q - 1) * x).
        replace (2 ^ N) with (M - u + 1 - q * M) by lia. ring.
      * exfalso.
        assert (He : Z.odd u = false)
          by (apply (countr_zero_even W); [lia | now rewrite <- HCV]).
        assert (HMo : Z.odd M = false) by (apply pow2_even; assumption).
        assert (Ho : Z.odd (M - u + 1) = true).
        { rewrite Z.odd_add, Z.odd_sub, HMo, He. reflexivity. }
        assert (Hlt : M - u + 1 < M).
        { destruct (Z.eq_dec (M - u + 1) M) as [E|]; [|lia].
          rewrite E, HMo in Ho. discriminate. }
        rewrite Z.mod_small in E1' by lia.
        apply isPowerOf2_spec in E1'.
        pose proof (IsPow2_odd _ E1' Ho). lia.
    + destruct (APInt.isPowerOf2 (APInt.mk W ((M - u - 1) mod M))) eqn:E2;
        [|discriminate].
      inversion Hch; subst sa o islhs neg; clear Hch.
      cbn [andb] in Hex. apply negb_false_iff in Hex.
      apply isPowerOf2_log2 in E2.
      unfold APInt.logBase2 in E2 |- *. cbn [APInt.Val] in E2 |- *.
      set (N := Z.log2 ((M - u - 1) mod M)) in *.
      destruct (mod_eq_elim _ _ M ltac:(lia) E2) as [q Hq].
      change (Opcode_eqb G_ADD G_ADD) with true. cbv iota.
      rewrite Z.add_mod_idemp_l by lia.
      rewrite Zminus_mod_idemp_r.
      apply mod_eq_intro with (k := (q - 1) * x).
      replace (2 ^ N) with (M - u - 1 - q * M) by lia. ring.
Qed.

(** In wrap-around arithmetic the built sequence computes the product of
    the operand and the constant, for every width and every constant the
    matcher accepts. *)
Lemma mul_const_value (MI : MachineInstr) (MRI : MachineRegisterInfo)
    (dst lhs rhs : Register) (W : Z) (Const : ValueAndVReg)
    (fn : MulConstApplyFn) (x : Z) :
  MulOfConst MI MRI dst lhs rhs W Const ->
  matchAArch64MulConstCombine MI MRI = Ok (Some fn) ->
  mulConstValue W fn x = (x * APInt.sval (Value Const)) mod 2 ^ W.
Proof.
  intros Hmul Hm.
  destruct (match_mul_choice _ _ _ _ _ _ _ _ Hmul Hm)
    as (sa & o & islhs & neg & Hch & Hex & ->).
  apply mulChoice_sound; try assumption.
  apply (MulOfConst_W_pos _ _ _ _ _ _ _ Hmul).
Qed.

Lemma pow2_lt_inv (a W : Z) : 0 <= a -> 2 ^ a < 2 ^ W -> a < W.
Proof.
  intros Ha H. destruct (Z.lt_ge_cases a W) as [|Hge]; [assumption|].
  assert (2 ^ W <= 2 ^ a).
  { destruct (Z.lt_ge_cases W 0).
    - rewrite (Z.pow_neg_r 2 W) by assumption. pose proof (pow2_pos a Ha). lia.
    - apply pow2_ge. lia. }
  lia.
Qed.

Lemma logBase2_make_bound (W v : Z) :
  0 < W -> APInt.isPowerOf2 (APInt.make W v) = true ->
  0 <= APInt.logBase2 (APInt.make W v) < W.
Proof.
  intros HW Hp. pose proof (isPowerOf2_log2 _ Hp) as E.
  unfold APInt.logBase2 in *. unfold APInt.make in *. cbn [APInt.Val] in *.
  pose proof (Z.log2_nonneg (v mod 2 ^ W)) as Hn.
  split; [assumption|]. apply pow2_lt_inv; [assumption|].
  rewrite <- E. apply Z.mod_pos_bound. apply pow2_pos. lia.
Qed.

Lemma mulChoice_shape (CV : APInt.t) (sa : Z) (o : Opcode)
    (islhs neg : bool) :
  0 < APInt.BitWidth CV ->
  mulChoice CV = Some (sa, o, islhs, neg) ->
  0 <= sa < APInt.BitWidth CV /\ (o = G_ADD \/ o = G_SUB).
Proof.
  intros HW. unfold mulChoice.
  unfold APInt.sub, APInt.add, APInt.neg, APInt.ashr.
  cbn [APInt.BitWidth APInt.make].
  destruct (APInt.isNonNegative CV).
  - match goal with
    | |- (if APInt.isPowerOf2 ?a then _ else _) = _ -> _ =>
        destruct (APInt.isPowerOf2 a) eqn:E1
    end.
    + intros H. inversion H; subst. split; [|now left].
      now apply logBase2_make_bound.
    + match goal with
      | |- (if APInt.isPowerOf2 ?a then _ else _) = _ -> _ =>
          destruct (APInt.isPowerOf2 a) eqn:E2
      end; [|discriminate].
      intros H. inversion H; subst. split; [|now right].
      now apply logBase2_make_bound.
  - match goal with
    | |- (if APInt.isPowerOf2 ?a then _ else _) = _ -> _ =>
        destruct (APInt.isPowerOf2 a) eqn:E1
    end.
    + intros H. inversion H; subst. split; [|now right].
      now apply logBase2_make_bound.
    + match goal with
      | |- (if APInt.isPowerOf2 ?a then _ else _) = _ -> _ =>
          destruct (APInt.isPowerOf2 a) eqn:E2
      end; [|discriminate].
      intros H. inversion H; subst. split; [|now left].
      now apply logBase2_make_bound.
Qed.

Lemma countr_zero_lt_width (W u : Z) :
  0 < u < 2 ^ W -> APInt.countr_zero (APInt.mk W u) < W.
Proof.
  intros Hu. unfold APInt.countr_zero; simpl.
  destruct u as [|p|p]; try lia.
  destruct (ctz_pos_divide p) as [m [Hm Ho]].
  pose proof (ctz_pos_nonneg p) as Hn. pose proof (pow2_pos _ Hn) as Hp.
  apply pow2_lt_inv; [assumption|].
  assert (1 <= m).
  { destruct (Z.lt_ge_cases m 1); [|assumption]. exfalso.
    assert (m <= 0) by lia. nia. }
  nia.
Qed.

(** ** Running what the multiply rule builds *)

Lemma setReg_same (r : Register) (v : RegValue) (rf : RegFile) :
  setReg r v rf r = Some v.
Proof. unfold setReg. now rewrite Nat.eqb_refl. Qed.

Lemma setReg_other (r r' : Register) (v : RegValue) (rf : RegFile) :
  r' <> r -> setReg r v rf r' = rf r'.
Proof.
  intros H. unfold setReg. apply Nat.eqb_neq in H. now rewrite H.
Qed.

Lemma eval_cst fadd MRI r w v rf :
  evalInstr fadd MRI (cst r w v) rf
  = Some (setReg r (VScalar w (Some (v mod 2 ^ w))) rf).
Proof. reflexivity. Qed.

Lemma eval_copy fadd MRI d s v rf :
  rf s = Some v ->
  evalInstr fadd MRI (copy d s) rf = Some (setReg d v rf).
Proof. intros H. unfold evalInstr; simpl. now rewrite H. Qed.

Lemma eval_binop fadd MRI o d a b w w' x y f rf :
  In o [G_ADD; G_SUB; G_SHL] ->
  scalarOp fadd o w = Some f ->
  rf a = Some (VScalar w x) -> rf b = Some (VScalar w' y) ->
  evalInstr fadd MRI (binop o d a b) rf
  = Some (setReg d (VScalar w (lift2 f x y)) rf).
Proof.
  intros Hin Hf Ha Hb. simpl in Hin.
  destruct Hin as [<- | [<- | [<- | []]]]; unfold evalInstr; simpl;
    rewrite Ha, Hb; simpl in Hf; inversion Hf; reflexivity.
Qed.

Lemma exec_mul_sequence (fadd : Z -> Z -> Z -> Z)
    (MRI : MachineRegisterInfo) (fn : MulConstApplyFn) (W x : Z)
    (dst : Register) (n : nat) (rf : RegFile) :
  0 < W <= 2 ^ 64 ->
  0 <= ShiftAmt fn < W ->
  AddSubOpc fn = G_ADD \/ AddSubOpc fn = G_SUB ->
  0 <= TrailingZeroes fn < W ->
  (LHS fn < n)%nat -> (dst < n)%nat ->
  rf (LHS fn) = Some (VScalar W (Some x)) ->
  let sum :=
    if ShiftValUseIsLHS fn
    then binop (AddSubOpc fn) (2 + n) (1 + n) (LHS fn)
    else binop (AddSubOpc fn) (2 + n) (LHS fn) (1 + n) in
  let last :=
    if NegateResult fn then [cst (3 + n) W 0; binop G_SUB dst (3 + n) (2 + n)]
    else if TrailingZeroes fn =? 0 then [copy dst (2 + n)]
    else [cst (3 + n) 64 (TrailingZeroes fn);
          binop G_SHL dst (2 + n) (3 + n)] in
  exists rf',
    execInsts fadd MRI
      ([cst n 64 (ShiftAmt fn); binop G_SHL (1 + n) (LHS fn) n; sum] ++ last)
      rf = Some rf'
    /\ rf' dst = Some (VScalar W (Some (mulConstValue W fn x))).
Proof.
  intros HW Hsa Hop Ht Hl Hd Hx sum last.
  assert (H64 : forall a, 0 <= a < W -> a mod 2 ^ 64 = a)
    by (intros; apply Z.mod_small; lia).
  cbn [app execInsts]. rewrite eval_cst, (H64 _ Hsa).
  set (rf1 := setReg n _ rf).
  assert (Hx1 : rf1 (LHS fn) = Some (VScalar W (Some x)))
    by (unfold rf1; rewrite setReg_other by lia; exact Hx).
  rewrite (eval_binop fadd MRI G_SHL (1 + n) (LHS fn) n W 64 (Some x)
             (Some (ShiftAmt fn)) _ rf1 ltac:(simpl; tauto) eq_refl Hx1
             (setReg_same _ _ _)).
  cbn [lift2].
  destruct (Z.ltb_spec (ShiftAmt fn) W) as [_|]; [|lia].
  set (sh := (x * 2 ^ ShiftAmt fn) mod 2 ^ W).
  set (rf2 := setReg (1 + n) _ rf1).
  assert (Hx2 : rf2 (LHS fn) = Some (VScalar W (Some x)))
    by (unfold rf2; rewrite setReg_other by lia; exact Hx1).
  assert (Hs2 : rf2 (1 + n)%nat = Some (VScalar W (Some sh)))
    by apply setReg_same.
  unfold mulConstValue. fold sh.
  set (l := if ShiftValUseIsLHS fn then sh else x).
  set (r := if ShiftValUseIsLHS fn then x else sh).
  set (s := if Opcode_eqb (AddSubOpc fn) G_ADD then (l + r) mod 2 ^ W
            else (l - r) mod 2 ^ W).
  assert (Hsum : evalInstr fadd MRI sum rf2
                 = Some (setReg (2 + n) (VScalar W (Some s)) rf2)).
  { subst sum s l r.
    destruct (ShiftValUseIsLHS fn), Hop as [-> | ->].
    - now rewrite (eval_binop fadd MRI G_ADD (2 + n) (1 + n) (LHS fn) W W
                     (Some sh) (Some x) _ rf2 ltac:(simpl; tauto) eq_refl
                     Hs2 Hx2).
    - now rewrite (eval_binop fadd MRI G_SUB (2 + n) (1 + n) (LHS fn) W W
                     (Some sh) (Some x) _ rf2 ltac:(simpl; tauto) eq_refl
                     Hs2 Hx2).
    - now rewrite (eval_binop fadd MRI G_ADD (2 + n) (LHS fn) (1 + n) W W
                     (Some x) (Some sh) _ rf2 ltac:(simpl; tauto) eq_refl
                     Hx2 Hs2).
    - now rewrite (eval_binop fadd MRI G_SUB (2 + n) (LHS fn) (1 + n) W W
                     (Some x) (Some sh) _ rf2 ltac:(simpl; tauto) eq_refl
                     Hx2 Hs2). }
  rewrite Hsum. set (rf3 := setReg (2 + n) _ rf2).
  assert (Hs3 : rf3 (2 + n)%nat = Some (VScalar W (Some s)))
    by apply setReg_same.
  subst last. destruct (NegateResult fn).
  - cbn [execInsts]. rewrite eval_cst.
    set (rf4 := setReg (3 + n) _ rf3).
    assert (Hs4 : rf4 (2 + n)%nat = Some (VScalar W (Some s)))
      by (unfold rf4; rewrite setReg_other by lia; exact Hs3).
    rewrite (eval_binop fadd MRI G_SUB dst (3 + n) (2 + n) W W
               (Some (0 mod 2 ^ W)) (Some s) _ rf4
               ltac:(simpl; tauto) eq_refl (setReg_same _ _ _) Hs4).
    eexists. split; [reflexivity|]. rewrite setReg_same.
    cbn [lift2]. rewrite Z.mod_0_l by (pose proof (pow2_pos W); lia).
    reflexivity.
  - destruct (Z.eqb_spec (TrailingZeroes fn) 0) as [E0 | N0]; cbn [negb].
    + cbn [execInsts]. rewrite (eval_copy _ _ _ _ _ _ Hs3).
      eexists. split; [reflexivity|]. now rewrite setReg_same.
    + cbn [execInsts]. rewrite eval_cst, (H64 _ Ht).
      set (rf4 := setReg (3 + n) _ rf3).
      assert (Hs4 : rf4 (2 + n)%nat = Some (VScalar W (Some s)))
        by (unfold rf4; rewrite setReg_other by lia; exact Hs3).
      rewrite (eval_binop fadd MRI G_SHL dst (2 + n) (3 + n) W 64
                 (Some s) (Some (TrailingZeroes fn)) _ rf4
                 ltac:(simpl; tauto) eq_refl Hs4 (setReg_same _ _ _)).
      eexists. split; [reflexivity|]. rewrite setReg_same.
      cbn [lift2].
      destruct (Z.ltb_spec (TrailingZeroes fn) W) as [_|]; [|lia].
      reflexivity.
Qed.

(** Everything the multiply closure builds, negation included, for a
    scalar type. *)
Lemma apply_mul_emits MRI pre MI post dst fn W :
  InstrAt MRI pre MI post ->
  getOperandReg MI 0 = Ok dst ->
  Ty fn = LLT_scalar W ->
  NegateResult fn && negb (TrailingZeroes fn =? 0) = false ->
  let n := length (VRegToType MRI) in
  let sum :=
    if ShiftValUseIsLHS fn
    then binop (AddSubOpc fn) (2 + n) (1 + n) (LHS fn)
    else binop (AddSubOpc fn) (2 + n) (LHS fn) (1 + n) in
  let last :=
    if NegateResult fn then [cst (3 + n) W 0; binop G_SUB dst (3 + n) (2 + n)]
    else if TrailingZeroes fn =? 0 then [copy dst (2 + n)]
    else [cst (3 + n) 64 (TrailingZeroes fn);
          binop G_SHL dst (2 + n) (3 + n)] in
  exists MRI',
    rewriteWith (applyAArch64MulConstCombine (length pre) fn) MRI = Ok MRI'
    /\ Insts MRI' =
       pre ++ ([cst n 64 (ShiftAmt fn); binop G_SHL (1 + n) (LHS fn) n; sum]
               ++ last) ++ post.
Proof.
  intros Hat Hdst Hty Hex n sum last.
  destruct (NegateResult fn) eqn:Hneg.
  - unfold rewriteWith, applyAArch64MulConstCombine, bindB.
    rewrite (destruct_MRI MRI). unfold InstrAt in Hat. rewrite Hat.
    cbn [Insts VRegToType].
    rewrite building_start, run_currentInstr. unfold liftB at 1.
    rewrite Hdst. unfold ApplyFn, bindB, buildShl.
    rewrite run_buildConstant_scalar, run_buildInstr, run_buildInstr.
    rewrite Hneg, Hex. simpl (liftB _ _). rewrite Hty.
    rewrite run_buildConstant_scalar, run_buildInstrTo, run_eraseFromParent.
    eexists. split; [reflexivity|]. cbn [B_MRI building Insts].
    rewrite !length_app. cbn [length app map].
    replace (length (VRegToType MRI) + 1)%nat with (1 + n)%nat
      by (subst n; lia).
    replace (1 + n + 1)%nat with (2 + n)%nat by lia.
    replace (2 + n + 1)%nat with (3 + n)%nat by lia.
    subst sum last. destruct (ShiftValUseIsLHS fn); reflexivity.
  - apply (apply_mul_no_negate MRI pre MI post dst fn Hat Hdst Hneg).
Qed.

Lemma typed_register_bound (MRI : MachineRegisterInfo) (r : Register) (W : Z) :
  getType MRI r = LLT_scalar W -> (r < length (VRegToType MRI))%nat.
Proof.
  unfold getType. intros H.
  destruct (Nat.lt_ge_cases r (length (VRegToType MRI))); [assumption|].
  rewrite nth_overflow in H by assumption. discriminate.
Qed.

Lemma eval_mul (fadd : Z -> Z -> Z -> Z) (MRI : MachineRegisterInfo)
    (d a b : Register) (w w' : Z) (x y : option Z) (rf : RegFile) :
  rf a = Some (VScalar w x) -> rf b = Some (VScalar w' y) ->
  evalInstr fadd MRI (binop G_MUL d a b) rf
  = Some (setReg d
            (VScalar w (lift2 (fun a b => Some ((a * b) mod 2 ^ w)) x y)) rf).
Proof. intros Ha Hb. unfold evalInstr; simpl. now rewrite Ha, Hb. Qed.

(** X1.  The multiply rule keeps the value of the product: for a non-zero
    constant, the instructions it builds leave in the destination what the
    multiply leaves there, [x * C] modulo [2 ^ W], whatever [W]-bit [x] the
    operand holds. *)
Theorem mul_const_rewrite_computes_product
    (fadd : Z -> Z -> Z -> Z)
    (MI : MachineInstr) (MRI : MachineRegisterInfo)
    (dst lhs rhs : Register) (W : Z) (Const : ValueAndVReg)
    (pre post : list MachineInstr) (fn : MulConstApplyFn)
    (rf : RegFile) (x : Z) :
  MulOfConst MI MRI dst lhs rhs W Const ->
  MI = binop G_MUL dst lhs rhs ->
  InstrAt MRI pre MI post ->
  getType MRI lhs = LLT_scalar W ->
  getType MRI dst = LLT_scalar W ->
  W <= 2 ^ 64 ->
  matchAArch64MulConstCombine MI MRI = Ok (Some fn) ->
  APInt.sval (Value Const) <> 0 ->
  rf lhs = Some (VScalar W (Some x)) ->
  rf rhs = Some (VScalar W (Some (APInt.sval (Value Const) mod 2 ^ W))) ->
  let product :=
    Some (VScalar W (Some ((x * APInt.sval (Value Const)) mod 2 ^ W))) in
  (exists rf0, evalInstr fadd MRI MI rf = Some rf0 /\ rf0 dst = product)
  /\ exists MRI' seq rf',
       rewriteWith (applyAArch64MulConstCombine (length pre) fn) MRI
       = Ok MRI'
       /\ Insts MRI' = pre ++ seq ++ post
       /\ execInsts fadd MRI' seq rf = Some rf'
       /\ rf' dst = product.
Proof.
  intros Hmul HMI Hat Hlty Hdty HW64 Hm HC Hx Hy product.
  pose proof (MulOfConst_W_pos _ _ _ _ _ _ _ Hmul) as HW.
  pose proof (MulOfConst_range _ _ _ _ _ _ _ Hmul) as Hr.
  pose proof (mul_const_value _ _ _ _ _ _ _ fn x Hmul Hm) as Hval.
  destruct (match_mul_choice _ _ _ _ _ _ _ _ Hmul Hm)
    as (sa & o & islhs & neg & Hch & Hex & Hfn).
  set (C := APInt.sval (Value Const)) in *.
  set (CV := APInt.make W C) in *.
  set (t := APInt.countr_zero CV) in *.
  split.
  { rewrite HMI, (eval_mul fadd MRI dst lhs rhs W W _ _ rf Hx Hy).
    eexists. split; [reflexivity|]. rewrite setReg_same. cbn [lift2].
    unfold product. now rewrite Z.mul_mod_idemp_r by lia. }
  destruct (mulChoice_shape CV sa o islhs neg HW Hch) as [Hsa Hop].
  assert (Ht : 0 <= t < W).
  { split; [apply countr_zero_nonneg; exact HW|].
    unfold t, CV, APInt.make. apply countr_zero_lt_width.
    pose proof (Z.mod_pos_bound C (2 ^ W) (pow2_pos W ltac:(lia))) as Hb.
    pose proof (pow2_split W HW) as Hs.
    assert (C mod 2 ^ W <> 0).
    { intros E. apply Z.mod_divide in E; [|lia].
      destruct E as [k Hk]. assert (k = 0) by nia. subst k. lia. }
    lia. }
  destruct (apply_mul_emits MRI pre MI post dst fn W Hat
              (moc_dst _ _ _ _ _ _ _ Hmul)) as (MRI' & Hrw & Hins).
  { rewrite Hfn. exact Hlty. }
  { rewrite Hfn. exact Hex. }
  pose proof (typed_register_bound MRI lhs W Hlty) as Hl.
  pose proof (typed_register_bound MRI dst W Hdty) as Hd.
  destruct (exec_mul_sequence fadd MRI' fn W x dst
              (length (VRegToType MRI)) rf) as (rf' & Hexec & Hres);
    try (rewrite Hfn; cbn [ShiftAmt AddSubOpc TrailingZeroes LHS];
         assumption); try lia.
  exists MRI'. eexists. exists rf'.
  split; [exact Hrw|]. split; [exact Hins|]. split; [exact Hexec|].
  unfold product. now rewrite Hres, Hval.
Qed.

Lemma mul_const_rewrite_computes_product_example :
  let fadd := fun (_ a b : Z) => a + b in
  let rf :=
    setReg 1 (VScalar 32 (Some (2 ^ 32 - 5)))
      (setReg 0 (VScalar 32 (Some 7)) noRegs) in
  let product := Some (VScalar 32 (Some ((7 * -5) mod 2 ^ 32))) in
  (exists rf0,
      evalInstr fadd (mulFunction (-5) [] []) mulInstr rf = Some rf0
      /\ rf0 2%nat = product)
  /\ exists MRI' seq rf',
       rewriteWith (applyAArch64MulConstCombine 2
                      (mkFn 2 G_ADD true true 0 s32 0))
         (mulFunction (-5) [] [])
       = Ok MRI'
       /\ Insts MRI' = [copy 0 w0; cst 1 32 (-5)] ++ seq ++ []
       /\ execInsts fadd MRI' seq rf = Some rf'
       /\ rf' 2%nat = product.
Proof.
  intros fadd.
  apply (mul_const_rewrite_computes_product fadd mulInstr
           (mulFunction (-5) [] []) 2 0 1 32 (constOf (-5))
           [copy 0 w0; cst 1 32 (-5)] []);
    try reflexivity.
  - apply mulFunction_MulOfConst.
  - vm_compute. discriminate.
  - vm_compute. discriminate.
Defined.

(** Multiplying by zero: the rule fires with as many trailing zero bits as
    the type is wide, and the final shift it builds is by the full width,
    which leaves the destination undefined where the multiply gave zero. *)
Example mul_const_zero_shifts_by_width (fadd : Z -> Z -> Z -> Z) :
  let MRI := mulFunction 0 [] [] in
  let live := setReg w0 (VScalar 32 (Some 5)) noRegs in
  matchAArch64MulConstCombine mulInstr MRI
    = Ok (Some (mkFn 0 G_SUB true false 32 s32 0))
  /\ resultOf fadd MRI live 2 = Some (VScalar 32 (Some 0))
  /\ exists MRI',
       rewriteWith (applyAArch64MulConstCombine 2
                      (mkFn 0 G_SUB true false 32 s32 0)) MRI = Ok MRI'
       /\ Insts MRI' =
          [copy 0 w0; cst 1 32 0; cst 3 64 0; binop G_SHL 4 0 3;
           binop G_SUB 5 4 0; cst 6 64 32; binop G_SHL 2 5 6]
       /\ resultOf fadd MRI' live 2 = Some (VScalar 32 None).
Proof.
  intros MRI live. split; [vm_compute; reflexivity|].
  split; [vm_compute; reflexivity|].
  eexists. split; [vm_compute; reflexivity|].
  split; vm_compute; reflexivity.
Qed.

(** ** The other rules keep the value *)

(** Merging a 32-bit value with a 32-bit zero gives the value the
    zero-extension gives. *)
Lemma fold_merge_to_zext_same_value (fadd : Z -> Z -> Z -> Z)
    (MRI : MachineRegisterInfo) (d a z : Register) (x : option Z)
    (rf : RegFile) :
  getType MRI d = LLT_scalar 64 ->
  rf a = Some (VScalar 32 x) ->
  rf z = Some (VScalar 32 (Some 0)) ->
  evalInstr fadd MRI (mkInstr G_MERGE_VALUES [def d; use a; use z]) rf
  = evalInstr fadd MRI (mkInstr G_ZEXT [def d; use a]) rf.
Proof.
  intros Hd Ha Hz. unfold evalInstr; simpl. rewrite Hd, Ha, Hz.
  destruct x as [v|]; simpl; [|reflexivity].
  now rewrite Z.add_0_r.
Qed.

Lemma storeBytes_zero (a n : Z) (mem : Memory) (p : Z) :
  storeBytes a n 0 mem p = if (p - a) mod 2 ^ 64 <? n then 0 else mem p.
Proof.
  unfold storeBytes. destruct (_ <? n); [|reflexivity].
  now rewrite Zdiv_0_l, Zmod_0_l.
Qed.

Lemma two_halves (p addr : Z) :
  let k := (p - addr) mod 2 ^ 64 in
  let k' := (p - (addr + 8) mod 2 ^ 64) mod 2 ^ 64 in
  (k <? 16) = (k' <? 8) || (k <? 8).
Proof.
  intros k k'. set (M := 2 ^ 64) in *.
  assert (HM : M = 18446744073709551616) by reflexivity.
  assert (Hk : 0 <= k < M) by (apply Z.mod_pos_bound; lia).
  assert (Ek : k' = (k - 8) mod M).
  { unfold k', k. rewrite Zminus_mod_idemp_r, Zminus_mod_idemp_l.
    f_equal. ring. }
  destruct (Z.lt_ge_cases k 8) as [Hlt | Hge].
  - assert (k' = k - 8 + M)
      by (rewrite Ek; symmetry; apply Z.mod_unique with (q := -1); lia).
    destruct (Z.ltb_spec k 16), (Z.ltb_spec k' 8), (Z.ltb_spec k 8);
      try reflexivity; lia.
  - assert (k' = k - 8) by (rewrite Ek; apply Z.mod_small; lia).
    destruct (Z.ltb_spec k 16), (Z.ltb_spec k' 8), (Z.ltb_spec k 8);
      try reflexivity; lia.
Qed.

(** Storing 128 zero bits at an address writes the bytes that two stores of
    64 zero bits write at the address and eight bytes further on. *)
Lemma split_store_same_memory (fadd : Z -> Z -> Z -> Z)
    (MRI : MachineRegisterInfo) (v A : Register) (MMO : MachineMemOperand)
    (n : nat) (rf : RegFile) (mem : Memory) (val : RegValue) (addr : Z) :
  getMemSizeInBits MMO = 128 ->
  rf v = Some val ->
  valueBits val = Some (128, 0) ->
  rf A = Some (VScalar 64 (Some addr)) ->
  (A < n)%nat ->
  exists rf' mem1 mem2,
    evalInstrMem fadd MRI (store v A MMO) (rf, mem) = Some (rf, mem1)
    /\ execInstsMem fadd MRI
         [cst n 64 0; cst (1 + n) 64 8; binop G_PTR_ADD (2 + n) A (1 + n);
          store n A (getMachineMemOperand MMO 0 s64);
          store n (2 + n) (getMachineMemOperand MMO 8 s64)] (rf, mem)
       = Some (rf', mem2)
    /\ forall p, mem1 p = mem2 p.
Proof.
  intros Hsz Hv Hbits HA Hn.
  set (rf1 := setReg n (VScalar 64 (Some (0 mod 2 ^ 64))) rf).
  set (rf2 := setReg (1 + n) (VScalar 64 (Some (8 mod 2 ^ 64))) rf1).
  set (rf3 := setReg (2 + n)
                (VScalar 64 (Some ((addr + 8 mod 2 ^ 64) mod 2 ^ 64))) rf2).
  exists rf3, (storeBytes addr 16 0 mem),
    (storeBytes ((addr + 8) mod 2 ^ 64) 8 0 (storeBytes addr 8 0 mem)).
  assert (HA1 : rf1 A = Some (VScalar 64 (Some addr)))
    by (unfold rf1; rewrite setReg_other by lia; exact HA).
  assert (HA2 : rf2 A = Some (VScalar 64 (Some addr)))
    by (unfold rf2; rewrite setReg_other by lia; exact HA1).
  assert (HA3 : rf3 A = Some (VScalar 64 (Some addr)))
    by (unfold rf3; rewrite setReg_other by lia; exact HA2).
  assert (Hz3 : rf3 n = Some (VScalar 64 (Some 0))).
  { unfold rf3, rf2. rewrite !setReg_other by lia. apply setReg_same. }
  split; [|split].
  - unfold evalInstrMem, store. cbn [Opc Operands MemOperands use].
    rewrite Hv, HA, Hbits, Hsz. reflexivity.
  - cbn [execInstsMem].
    assert (E1 : evalInstrMem fadd MRI (cst n 64 0) (rf, mem)
                 = Some (rf1, mem)) by reflexivity.
    rewrite E1.
    assert (E2 : evalInstrMem fadd MRI (cst (1 + n) 64 8) (rf1, mem)
                 = Some (rf2, mem)) by reflexivity.
    rewrite E2.
    assert (E3 : evalInstrMem fadd MRI (binop G_PTR_ADD (2 + n) A (1 + n))
                   (rf2, mem) = Some (rf3, mem)).
    { unfold evalInstrMem, evalInstr, binop, mkInstr.
      cbn [Opc Operands MemOperands def use].
      rewrite HA2. unfold rf2 at 1. rewrite setReg_same. reflexivity. }
    rewrite E3.
    unfold evalInstrMem at 1, store. cbn [Opc Operands MemOperands use].
    rewrite Hz3, HA3. cbn [valueBits].
    change (64 =? getMemSizeInBits (getMachineMemOperand MMO 0 s64))
      with true. cbv iota.
    unfold evalInstrMem at 1. cbn [Opc Operands MemOperands use].
    rewrite Hz3. unfold rf3 at 1. rewrite setReg_same. cbn [valueBits].
    change (64 =? getMemSizeInBits (getMachineMemOperand MMO 8 s64))
      with true. cbv iota.
    change (64 / 8) with 8. change (8 mod 2 ^ 64) with 8. reflexivity.
  - intros p. change (128 / 8) with 16. rewrite !storeBytes_zero.
    pose proof (two_halves p addr) as H. cbv zeta in H. rewrite H.
    destruct (_ <? 8); reflexivity.
Qed.

Example zero_splat_is_128_zero_bits :
  valueBits (VVector 64 [Some 0; Some 0]) = Some (128, 0).
Proof. reflexivity. Qed.

(** ** Any-extension of a compare *)

(** The rule matches when the destination is a scalar and the source is
    the result of a compare; apply changes the opcode to G_ZEXT where the
    instruction stands and nothing else. *)
Lemma mutate_anyext_to_zext_in_place
    (MI : MachineInstr) (MRI : MachineRegisterInfo)
    (pre post : list MachineInstr) (dst src : Register)
    (Observer : GISelChangeObserver) :
  getOpcode MI = G_ANYEXT ->
  getOperandReg MI 0 = Ok dst ->
  getOperandReg MI 1 = Ok src ->
  InstrAt MRI pre MI post ->
  matchMutateAnyExtToZExt MI MRI
  = Ok (isScalar (getType MRI dst) && m_AnyCmp src MRI)
  /\ applyMutateAnyExtToZExt (length pre) MRI Observer
     = Ok ({| Insts := pre ++ setDesc G_ZEXT MI :: post;
              VRegToType := VRegToType MRI |},
           Observer ++ [changingInstr (length pre);
                        changedInstr (length pre)]).
Proof.
  intros Hopc Hd Hs Hat. split.
  - unfold matchMutateAnyExtToZExt. rewrite Hopc, Hd, Hs. reflexivity.
  - unfold applyMutateAnyExtToZExt. unfold InstrAt in Hat. rewrite Hat.
    rewrite nth_error_app2 by lia. rewrite Nat.sub_diag.
    cbn [nth_error deref bind]. unfold mutateInstr.
    rewrite Hat, replaceAt_app, <- !app_assoc. reflexivity.
Qed.
(** * Further properties of the rules *)

(** ** The multiply rule on negative constants *)

Lemma countr_zero_even_pos (W u : Z) :
  0 < u -> Z.odd u = false -> APInt.countr_zero (APInt.mk W u) <> 0.
Proof.
  intros Hu Ho. destruct u as [|p|p]; try lia.
  destruct p as [q|q|]; try discriminate.
  unfold APInt.countr_zero. cbn [APInt.Val APInt.ctz_pos].
  pose proof (ctz_pos_nonneg q). lia.
Qed.

Lemma IsPow2_minus_odd (C : Z) :
  C < 0 -> Z.odd C = true -> IsPow2 (- C - 1) -> C <> -1.
Proof.
  intros HC Ho [N [HN E]] ->. simpl in E.
  pose proof (pow2_pos N HN). lia.
Qed.

(** X2.  The multiply rule on a negative odd constant C, at a type of at least
    two bits.  No fusion guard is consulted.  When 1 - C is a power of two
    the rule fires and builds a shift left by log2 (1 - C) and a subtract
    of the shifted value from the original operand, then a copy; otherwise
    when - C - 1 is a power of two it fires and builds the shift, an add,
    a zero of the multiply's type and a subtract from zero into the
    destination; otherwise it does not fire. *)
Theorem mul_const_negative_decomposition
    (MI : MachineInstr) (MRI : MachineRegisterInfo)
    (dst lhs rhs : Register) (W : Z) (Const : ValueAndVReg)
    (pre post : list MachineInstr)
    (Hmul : MulOfConst MI MRI dst lhs rhs W Const)
    (Hat : InstrAt MRI pre MI post) :
  let C := APInt.sval (Value Const) in
  let n := length (VRegToType MRI) in
  let ty := getType MRI lhs in
  let fires := firesWith MI MRI pre post in
  2 <= W -> C < 0 -> Z.odd C = true ->
  (IsPow2 (- C + 1) ->
     fires (mkFn (Z.log2 (- C + 1)) G_SUB false false 0 ty lhs)
       [cst n 64 (Z.log2 (- C + 1)); binop G_SHL (1 + n) lhs n;
        binop G_SUB (2 + n) lhs (1 + n); copy dst (2 + n)])
  /\ (~ IsPow2 (- C + 1) -> IsPow2 (- C - 1) -> ty = LLT_scalar W ->
     fires (mkFn (Z.log2 (- C - 1)) G_ADD true true 0 ty lhs)
       [cst n 64 (Z.log2 (- C - 1)); binop G_SHL (1 + n) lhs n;
        binop G_ADD (2 + n) (1 + n) lhs;
        cst (3 + n) W 0; binop G_SUB dst (3 + n) (2 + n)])
  /\ (~ IsPow2 (- C + 1) -> ~ IsPow2 (- C - 1) ->
     matchAArch64MulConstCombine MI MRI = Ok None).
Proof.
  intros C n ty fires HW HC Hodd.
  pose proof (MulOfConst_range _ _ _ _ _ _ _ Hmul) as Hr. fold C in Hr.
  pose proof (match_mul_view _ _ _ _ _ _ _ Hmul) as Hview. fold C in Hview.
  assert (Ht : APInt.countr_zero (APInt.mk W (2 ^ W + C)) = 0).
  { apply countr_zero_odd.
    - apply odd_pow2_plus; [lia | assumption].
    - pose proof (pow2_split W ltac:(lia)). lia. }
  rewrite (view_negative MRI lhs dst W C HW (conj (proj1 Hr) HC) Ht) in Hview.
  split; [|split].
  - intros Hp. apply (isPowerOf2_true_iff W) in Hp. rewrite Hp in Hview.
    eapply fires_no_negate; [exact Hmul | exact Hat | exact Hview
                            | reflexivity..].
  - intros Hn Hp Hty. apply (isPowerOf2_false_iff W) in Hn.
    apply (isPowerOf2_true_iff W) in Hp. rewrite Hn, Hp in Hview.
    split; [exact Hview|].
    destruct (apply_mul_emits MRI pre MI post dst
                (mkFn (Z.log2 (- C - 1)) G_ADD true true 0 ty lhs) W Hat
                (moc_dst _ _ _ _ _ _ _ Hmul) Hty eq_refl)
      as (MRI' & Hrw & Hins).
    exists MRI'. split; [exact Hrw | exact Hins].
  - intros Hn Hn'. apply (isPowerOf2_false_iff W) in Hn.
    apply (isPowerOf2_false_iff W) in Hn'. now rewrite Hn, Hn' in Hview.
Qed.

Lemma IsPow2_6 : IsPow2 (- -5 - 1).
Proof. exists 2. split; [lia | reflexivity]. Defined.

Lemma not_IsPow2_6 : ~ IsPow2 (- -5 + 1).
Proof.
  intros [N [HN E]].
  assert (N < 3).
  { destruct (Z.lt_ge_cases N 3) as [|Hge]; [assumption|].
    pose proof (Z.pow_le_mono_r 2 3 N ltac:(lia) Hge). simpl in *. lia. }
  assert (N = 0 \/ N = 1 \/ N = 2) as [-> | [-> | ->]] by lia;
    discriminate.
Defined.

Lemma mul_const_negative_decomposition_witness :
  firesWith mulInstr (mulFunction (-5) [] []) [copy 0 w0; cst 1 32 (-5)] []
    (mkFn 2 G_ADD true true 0 s32 0)
    [cst 3 64 2; binop G_SHL 4 0 3; binop G_ADD 5 4 0;
     cst 6 32 0; binop G_SUB 2 6 5].
Proof.
  refine (proj1 (proj2 (mul_const_negative_decomposition
                   mulInstr (mulFunction (-5) [] []) 2 0 1 32 (constOf (-5))
                   [copy 0 w0; cst 1 32 (-5)] []
                   (mulFunction_MulOfConst (-5) [] []) eq_refl _ _ _))
            not_IsPow2_6 IsPow2_6 eq_refl).
  - lia.
  - vm_compute. reflexivity.
  - reflexivity.
Defined.

(** X3.  A negative even constant is never lowered, whatever the fusion guards
    say: the subtract form needs 1 - C to be a power of two, which is odd
    and larger than one, and the negated form is only reached for C = -2,
    where the trailing zero bit rules it out. *)
Theorem mul_const_negative_even_never_lowered
    (MI : MachineInstr) (MRI : MachineRegisterInfo)
    (dst lhs rhs : Register) (W : Z) (Const : ValueAndVReg)
    (Hmul : MulOfConst MI MRI dst lhs rhs W Const) :
  let C := APInt.sval (Value Const) in
  C < 0 -> Z.odd C = false ->
  forall fn, matchAArch64MulConstCombine MI MRI <> Ok (Some fn).
Proof.
  intros C HC Hev fn.
  pose proof (MulOfConst_range _ _ _ _ _ _ _ Hmul) as Hr. fold C in Hr.
  pose proof (MulOfConst_W_pos _ _ _ _ _ _ _ Hmul) as HW0.
  assert (HW : 2 <= W).
  { apply (W_ge_2 W C); try lia. left.
    destruct (Z.eq_dec C (-1)) as [E|]; [|lia]. rewrite E in Hev.
    discriminate. }
  rewrite (match_mul_view _ _ _ _ _ _ _ Hmul). fold C.
  rewrite make_negative by lia.
  unfold mulConstView.
  assert (Ht : APInt.countr_zero (APInt.mk W (2 ^ W + C)) <> 0).
  { apply countr_zero_even_pos.
    - pose proof (pow2_split W ltac:(lia)). lia.
    - rewrite pow2_split by lia. rewrite Z.add_comm, Z.odd_add_mul_2.
      exact Hev. }
  apply Z.eqb_neq in Ht. rewrite Ht.
  destruct (mulFusionGuard MRI lhs dst) as [[|]| |]; cbn [bind];
    try discriminate.
  rewrite mulChoice_negative by lia.
  assert (H1 : APInt.isPowerOf2 (APInt.mk W (- C + 1)) = false).
  { apply isPowerOf2_odd_false.
    - rewrite Z.odd_add, Z.odd_opp, Hev. reflexivity.
    - lia. }
  rewrite H1.
  destruct (APInt.isPowerOf2 (APInt.mk W (- C - 1))); cbn [andb negb];
    discriminate.
Qed.

Lemma mul_const_negative_even_never_lowered_witness :
  MulOfConst mulInstr (mulFunction (-6) [] []) 2 0 1 32 (constOf (-6))
  /\ forall fn,
       matchAArch64MulConstCombine mulInstr (mulFunction (-6) [] [])
       <> Ok (Some fn).
Proof.
  split; [apply mulFunction_MulOfConst|].
  apply (mul_const_negative_even_never_lowered
           mulInstr (mulFunction (-6) [] []) 2 0 1 32 (constOf (-6))
           (mulFunction_MulOfConst (-6) [] [])).
  - vm_compute. reflexivity.
  - vm_compute. reflexivity.
Defined.

(** ** What every successful multiply match carries *)

Lemma sval_zero_iff (W C : Z) :
  0 < W -> - 2 ^ (W - 1) <= C < 2 ^ (W - 1) -> (C mod 2 ^ W = 0 <-> C = 0).
Proof.
  intros HW Hr. pose proof (pow2_split W HW) as Hs.
  pose proof (pow2_pos (W - 1) ltac:(lia)) as Hp.
  split; [|intros ->; apply Zmod_0_l].
  intros E. apply Z.mod_divide in E; [|lia].
  destruct E as [k Hk]. assert (k = 0) by nia. subst k. lia.
Qed.

Lemma match_mul_fields
    (MI : MachineInstr) (MRI : MachineRegisterInfo)
    (dst lhs rhs : Register) (W : Z) (Const : ValueAndVReg)
    (fn : MulConstApplyFn) :
  MulOfConst MI MRI dst lhs rhs W Const ->
  matchAArch64MulConstCombine MI MRI = Ok (Some fn) ->
  0 <= ShiftAmt fn < W
  /\ (AddSubOpc fn = G_ADD \/ AddSubOpc fn = G_SUB)
  /\ LHS fn = lhs
  /\ Ty fn = getType MRI lhs.
Proof.
  intros Hmul Hm.
  pose proof (MulOfConst_W_pos _ _ _ _ _ _ _ Hmul) as HW.
  destruct (match_mul_choice _ _ _ _ _ _ _ _ Hmul Hm)
    as (sa & o & islhs & neg & Hch & _ & ->).
  destruct (mulChoice_shape (APInt.make W (APInt.sval (Value Const)))
              sa o islhs neg HW Hch) as [Hsa Hop].
  cbn [APInt.make APInt.BitWidth] in Hsa.
  cbn [mkFn ShiftAmt AddSubOpc LHS Ty]. auto.
Qed.

(** X4.  Whenever the multiply rule fires, the first shift it will build is by
    less than the width of the type, the middle operation is an add or a
    subtract, and the trailing-zero count lies between zero and the width,
    reaching the width exactly for the constant zero.  The closure keeps
    the multiply's left operand and its type. *)
Theorem mul_const_closure_bounds
    (MI : MachineInstr) (MRI : MachineRegisterInfo)
    (dst lhs rhs : Register) (W : Z) (Const : ValueAndVReg)
    (fn : MulConstApplyFn) :
  MulOfConst MI MRI dst lhs rhs W Const ->
  matchAArch64MulConstCombine MI MRI = Ok (Some fn) ->
  0 <= ShiftAmt fn < W
  /\ (AddSubOpc fn = G_ADD \/ AddSubOpc fn = G_SUB)
  /\ 0 <= TrailingZeroes fn <= W
  /\ (TrailingZeroes fn = W <-> APInt.sval (Value Const) = 0)
  /\ LHS fn = lhs
  /\ Ty fn = getType MRI lhs.
Proof.
  intros Hmul Hm.
  pose proof (MulOfConst_W_pos _ _ _ _ _ _ _ Hmul) as HW.
  pose proof (MulOfConst_range _ _ _ _ _ _ _ Hmul) as Hr.
  destruct (match_mul_choice _ _ _ _ _ _ _ _ Hmul Hm)
    as (sa & o & islhs & neg & Hch & _ & ->).
  set (C := APInt.sval (Value Const)) in *.
  destruct (mulChoice_shape (APInt.make W C) sa o islhs neg HW Hch)
    as [Hsa Hop].
  cbn [APInt.make APInt.BitWidth] in Hsa.
  cbn [mkFn ShiftAmt AddSubOpc TrailingZeroes LHS Ty].
  pose proof (sval_zero_iff W C HW Hr) as Hz.
  pose proof (Z.mod_pos_bound C (2 ^ W) (pow2_pos W ltac:(lia))) as Hb.
  split; [exact Hsa|]. split; [exact Hop|].
  unfold APInt.make.
  destruct (Z.eq_dec (C mod 2 ^ W) 0) as [E|E].
  - rewrite E. cbn [APInt.countr_zero APInt.Val APInt.BitWidth].
    split; [lia|]. split; [|split; reflexivity].
    split; intros _; [now apply Hz | reflexivity].
  - pose proof (countr_zero_lt_width W (C mod 2 ^ W) ltac:(lia)) as Hlt.
    pose proof (countr_zero_nonneg (APInt.mk W (C mod 2 ^ W)) HW) as Hge.
    split; [lia|]. split; [|split; reflexivity].
    split; [lia|]. intros E0. exfalso. apply E. now apply Hz.
Qed.

Lemma mul_const_closure_bounds_witness :
  let fn := mkFn 1 G_ADD true false 2 s32 0 in
  0 <= ShiftAmt fn < 32
  /\ (AddSubOpc fn = G_ADD \/ AddSubOpc fn = G_SUB)
  /\ 0 <= TrailingZeroes fn <= 32
  /\ (TrailingZeroes fn = 32 <-> APInt.sval (Value (constOf 12)) = 0)
  /\ LHS fn = 0%nat
  /\ Ty fn = getType (mulFunction 12 [] []) 0.
Proof.
  apply (mul_const_closure_bounds mulInstr (mulFunction 12 [] []) 2 0 1 32
           (constOf 12)).
  - apply mulFunction_MulOfConst.
  - reflexivity.
Defined.

(** ** The multiply rule on zero, one and the powers of two *)

(** X5.  A multiply by the constant zero, at a type of at least two bits and
    with no fusion guard in the way, is rewritten: the trailing-zero count
    of zero is the width W itself, so the rule builds a shift by 0, a
    subtract and a final shift whose amount is W. *)
Theorem mul_const_zero_final_shift_by_width
    (MI : MachineInstr) (MRI : MachineRegisterInfo)
    (dst lhs rhs : Register) (W : Z) (Const : ValueAndVReg)
    (pre post : list MachineInstr)
    (Hmul : MulOfConst MI MRI dst lhs rhs W Const)
    (Hat : InstrAt MRI pre MI post) :
  let n := length (VRegToType MRI) in
  APInt.sval (Value Const) = 0 ->
  2 <= W ->
  NoFusionGuard MRI lhs dst ->
  firesWith MI MRI pre post (mkFn 0 G_SUB true false W (getType MRI lhs) lhs)
    [cst n 64 0; binop G_SHL (1 + n) lhs n; binop G_SUB (2 + n) (1 + n) lhs;
     cst (3 + n) 64 W; binop G_SHL dst (2 + n) (3 + n)].
Proof.
  intros n HC HW [Hext Hadd].
  assert (Hm : matchAArch64MulConstCombine MI MRI
               = Ok (Some (mkFn 0 G_SUB true false W (getType MRI lhs) lhs))).
  { rewrite (match_mul_view _ _ _ _ _ _ _ Hmul), HC.
    rewrite view_nonneg.
    - cbn [APInt.countr_zero APInt.Val APInt.BitWidth].
      rewrite Z.shiftr_0_l. reflexivity.
    - exact HW.
    - split; [lia | apply pow2_pos; lia].
    - right. now apply mulFusionGuard_false. }
  eapply fires_no_negate; [exact Hmul | exact Hat | exact Hm | reflexivity |].
  cbn [mkFn ShiftAmt AddSubOpc TrailingZeroes LHS ShiftValUseIsLHS].
  destruct (Z.eqb_spec W 0) as [E|_]; [lia | reflexivity].
Qed.

Lemma mul_const_zero_final_shift_by_width_witness :
  firesWith mulInstr (mulFunction 0 [] []) [copy 0 w0; cst 1 32 0] []
    (mkFn 0 G_SUB true false 32 s32 0)
    [cst 3 64 0; binop G_SHL 4 0 3; binop G_SUB 5 4 0;
     cst 6 64 32; binop G_SHL 2 5 6].
Proof.
  refine (mul_const_zero_final_shift_by_width
            mulInstr (mulFunction 0 [] []) 2 0 1 32 (constOf 0)
            [copy 0 w0; cst 1 32 0] []
            (mulFunction_MulOfConst 0 [] []) eq_refl _ _ _).
  - reflexivity.
  - lia.
  - apply NoFusionGuard_mulFunction.
Defined.

Lemma ctz_pos_shiftl (n : nat) :
  APInt.ctz_pos (Pos.shiftl_nat 1 n) = Z.of_nat n.
Proof.
  induction n.
  - reflexivity.
  - change (Pos.shiftl_nat 1 (S n)) with (xO (Pos.shiftl_nat 1 n)).
    cbn [APInt.ctz_pos]. rewrite IHn. lia.
Qed.

Lemma countr_zero_pow2 (W k : Z) :
  0 <= k -> APInt.countr_zero (APInt.mk W (2 ^ k)) = k.
Proof.
  intros Hk. unfold APInt.countr_zero. cbn [APInt.Val].
  rewrite <- (Z2Nat.id k) at 1 by assumption.
  replace (2 ^ Z.of_nat (Z.to_nat k))
    with (Zpos (Pos.shiftl_nat 1 (Z.to_nat k))).
  - rewrite ctz_pos_shiftl. now apply Z2Nat.id.
  - generalize (Z.to_nat k) as m. induction m.
    + reflexivity.
    + rewrite Nat2Z.inj_succ, Z.pow_succ_r by lia.
      rewrite <- IHm. reflexivity.
Qed.

(** X6.  The rule leaves multiplies by a power of two alone: for C = 2^k with
    k >= 1 it never fires, whatever the guards say.  The constant one is
    no exception to the general scheme: it is lowered as 2^1 - 1, to a
    shift by one, a subtract of the operand and a copy. *)
Theorem mul_const_power_of_two
    (MI : MachineInstr) (MRI : MachineRegisterInfo)
    (dst lhs rhs : Register) (W : Z) (Const : ValueAndVReg)
    (pre post : list MachineInstr)
    (Hmul : MulOfConst MI MRI dst lhs rhs W Const)
    (Hat : InstrAt MRI pre MI post) :
  let C := APInt.sval (Value Const) in
  let n := length (VRegToType MRI) in
  (forall k, 1 <= k -> C = 2 ^ k ->
     forall fn, matchAArch64MulConstCombine MI MRI <> Ok (Some fn))
  /\ (C = 1 ->
      firesWith MI MRI pre post
        (mkFn 1 G_SUB true false 0 (getType MRI lhs) lhs)
        [cst n 64 1; binop G_SHL (1 + n) lhs n;
         binop G_SUB (2 + n) (1 + n) lhs; copy dst (2 + n)]).
Proof.
  intros C n.
  pose proof (MulOfConst_range _ _ _ _ _ _ _ Hmul) as Hr. fold C in Hr.
  pose proof (MulOfConst_W_pos _ _ _ _ _ _ _ Hmul) as HW0.
  split.
  - intros k Hk HC fn.
    assert (H2 : 2 <= C).
    { rewrite HC. change 2 with (2 ^ 1) at 1. apply pow2_ge. lia. }
    assert (HW : 2 <= W) by (apply (W_ge_2 W C); lia).
    rewrite (match_mul_view _ _ _ _ _ _ _ Hmul). fold C.
    rewrite make_nonneg by lia. unfold mulConstView.
    destruct (if APInt.countr_zero (APInt.mk W C) =? 0 then Ok false
              else mulFusionGuard MRI lhs dst) as [[|]| |];
      cbn [bind]; try discriminate.
    rewrite mulChoice_nonneg by lia.
    rewrite HC, countr_zero_pow2 by lia.
    rewrite Z.shiftr_div_pow2, Z.div_same by (pose proof (pow2_pos k); lia).
    change (APInt.isPowerOf2 (APInt.mk W (1 - 1))) with false. cbv iota.
    rewrite isPowerOf2_odd_false; [discriminate| |].
    + replace k with (Z.succ (k - 1)) by lia.
      rewrite Z.pow_succ_r by lia.
      rewrite Z.add_comm, Z.odd_add_mul_2. reflexivity.
    + pose proof (pow2_pos k). lia.
  - intros HC.
    eapply fires_no_negate; [exact Hmul | exact Hat | | reflexivity..].
    apply (match_nonneg_case _ _ _ _ _ _ _ Hmul 1); auto; try lia.
Qed.

Lemma mul_const_power_of_two_witness :
  firesWith mulInstr (mulFunction 1 [] []) [copy 0 w0; cst 1 32 1] []
    (mkFn 1 G_SUB true false 0 s32 0)
    [cst 3 64 1; binop G_SHL 4 0 3; binop G_SUB 5 4 0; copy 2 5].
Proof.
  exact (proj2 (mul_const_power_of_two
                  mulInstr (mulFunction 1 [] []) 2 0 1 32 (constOf 1)
                  [copy 0 w0; cst 1 32 1] []
                  (mulFunction_MulOfConst 1 [] []) eq_refl) eq_refl).
Defined.

(** X7.  Only the second operand of the multiply is looked at for a constant:
    when it is not one the matcher returns false whatever the first operand
    is, and every successful match has found a constant there and keeps the
    first operand as the value to shift. *)
Theorem mul_const_needs_constant_rhs
    (MI : MachineInstr) (MRI : MachineRegisterInfo) :
  (forall dst lhs rhs,
      getOpcode MI = G_MUL ->
      getOperandReg MI 0 = Ok dst ->
      getOperandReg MI 1 = Ok lhs ->
      getOperandReg MI 2 = Ok rhs ->
      getIConstantVRegValWithLookThrough rhs MRI = None ->
      matchAArch64MulConstCombine MI MRI = Ok None)
  /\ (forall fn,
      matchAArch64MulConstCombine MI MRI = Ok (Some fn) ->
      getOpcode MI = G_MUL
      /\ getOperandReg MI 1 = Ok (LHS fn)
      /\ exists rhs Const,
           getOperandReg MI 2 = Ok rhs
           /\ getIConstantVRegValWithLookThrough rhs MRI = Some Const).
Proof.
  split.
  - intros dst lhs rhs Hop Hd Hl Hr Hc.
    unfold matchAArch64MulConstCombine.
    rewrite Hop, Hd, Hl, Hr. cbn [Opcode_eqb assert bind].
    change (Opcode_eqb G_MUL G_MUL) with true. cbn [assert bind].
    now rewrite Hc.
  - intros fn. unfold matchAArch64MulConstCombine.
    destruct (Opcode_eqb (getOpcode MI) G_MUL) eqn:Eop;
      cbn [assert bind]; try discriminate.
    apply Opcode_eqb_true in Eop.
    destruct (getOperandReg MI 1) as [lhs| |]; try discriminate.
    cbn [bind].
    destruct (getOperandReg MI 2) as [rhs| |]; try discriminate.
    cbn [bind].
    destruct (getOperandReg MI 0) as [dst| |]; try discriminate.
    cbn [bind].
    destruct (getIConstantVRegValWithLookThrough rhs MRI) as [Const|] eqn:EC;
      try discriminate.
    destruct (getSizeInBits (getType MRI lhs)) as [W| |];
      try discriminate. cbn [bind].
    destruct (APInt.sext (Value Const) W) as [CV| |]; try discriminate.
    cbn [bind].
    match goal with
    | |- bind ?g _ = _ -> _ => destruct g as [[|]| |]
    end; cbn [bind]; try discriminate.
    match goal with
    | |- match ?c with _ => _ end = _ -> _ =>
        destruct c as [[[[sa o] islhs] neg]|]
    end; try discriminate.
    destruct (neg && negb (APInt.countr_zero CV =? 0)); try discriminate.
    intros H. inversion H. cbn [LHS].
    split; [exact Eop|]. split; [reflexivity|].
    exists rhs, Const. split; [reflexivity | exact EC].
Qed.

Lemma mul_const_needs_constant_rhs_witness :
  let MRI :=
    {| Insts := [cst 0 32 3; copy 1 w0; binop G_MUL 2 0 1];
       VRegToType := [s32; s32; s32] |} in
  getIConstantVRegValWithLookThrough 1 MRI = None
  /\ matchAArch64MulConstCombine (binop G_MUL 2 0 1) MRI = Ok None.
Proof.
  intros MRI. split; [reflexivity|].
  apply (proj1 (mul_const_needs_constant_rhs (binop G_MUL 2 0 1) MRI)
           2%nat 0%nat 1%nat); reflexivity.
Defined.

(** ** What the multiply rule leaves behind *)

Lemma apply_mul_result MRI pre MI post dst fn W :
  InstrAt MRI pre MI post ->
  getOperandReg MI 0 = Ok dst ->
  Ty fn = LLT_scalar W ->
  NegateResult fn && negb (TrailingZeroes fn =? 0) = false ->
  let n := length (VRegToType MRI) in
  let sum :=
    if ShiftValUseIsLHS fn
    then binop (AddSubOpc fn) (2 + n) (1 + n) (LHS fn)
    else binop (AddSubOpc fn) (2 + n) (LHS fn) (1 + n) in
  let last :=
    if NegateResult fn then [cst (3 + n) W 0; binop G_SUB dst (3 + n) (2 + n)]
    else if TrailingZeroes fn =? 0 then [copy dst (2 + n)]
    else [cst (3 + n) 64 (TrailingZeroes fn);
          binop G_SHL dst (2 + n) (3 + n)] in
  let tys :=
    if NegateResult fn then [LLT_scalar W]
    else if TrailingZeroes fn =? 0 then []
    else [LLT_scalar 64] in
  rewriteWith (applyAArch64MulConstCombine (length pre) fn) MRI
  = Ok {| Insts :=
            pre ++ ([cst n 64 (ShiftAmt fn);
                     binop G_SHL (1 + n) (LHS fn) n; sum] ++ last) ++ post;
          VRegToType :=
            VRegToType MRI
            ++ [LLT_scalar 64; LLT_scalar W; LLT_scalar W] ++ tys |}.
Proof.
  intros Hat Hdst Hty Hex n sum last tys.
  unfold rewriteWith, applyAArch64MulConstCombine, bindB.
  rewrite (destruct_MRI MRI). unfold InstrAt in Hat. rewrite Hat.
  cbn [Insts VRegToType].
  rewrite building_start, run_currentInstr. unfold liftB at 1.
  rewrite Hdst. unfold ApplyFn, bindB, buildShl.
  rewrite run_buildConstant_scalar, run_buildInstr, run_buildInstr.
  rewrite Hex. simpl (liftB _ _). rewrite Hty.
  assert (L1 : length (VRegToType MRI ++ [LLT_scalar 64]) = (1 + n)%nat)
    by (rewrite length_app; simpl; lia).
  assert (L2 : length ((VRegToType MRI ++ [LLT_scalar 64]) ++ [LLT_scalar W])
               = (2 + n)%nat)
    by (rewrite !length_app; simpl; lia).
  assert (L3 : length (((VRegToType MRI ++ [LLT_scalar 64])
                        ++ [LLT_scalar W]) ++ [LLT_scalar W]) = (3 + n)%nat)
    by (rewrite !length_app; simpl; lia).
  rewrite L1, L2.
  subst sum last tys.
  destruct (NegateResult fn).
  - rewrite run_buildConstant_scalar, run_buildInstrTo, run_eraseFromParent.
    rewrite L3. cbn [B_MRI building]. rewrite <- !app_assoc.
    destruct (ShiftValUseIsLHS fn); reflexivity.
  - destruct (TrailingZeroes fn =? 0); cbn [negb].
    + unfold buildCopy. rewrite run_buildInstrTo, run_eraseFromParent.
      cbn [B_MRI building]. rewrite <- !app_assoc.
      destruct (ShiftValUseIsLHS fn); reflexivity.
    + rewrite run_buildConstant_scalar, run_buildInstrTo,
        run_eraseFromParent.
      rewrite L3. cbn [B_MRI building]. rewrite <- !app_assoc.
      destruct (ShiftValUseIsLHS fn); reflexivity.
Qed.

Lemma definesReg_cst r d w v :
  definesReg r (cst d w v) = Nat.eqb r d.
Proof. unfold definesReg, cst, mkInstr. simpl. now rewrite orb_false_r. Qed.

Lemma definesReg_binop r o d a b :
  definesReg r (binop o d a b) = Nat.eqb r d.
Proof. unfold definesReg, binop, mkInstr. simpl. now rewrite orb_false_r. Qed.

Lemma definesReg_copy r d s :
  definesReg r (copy d s) = Nat.eqb r d.
Proof. unfold definesReg, copy, mkInstr. simpl. now rewrite orb_false_r. Qed.

(** X8.  After the multiply rule has fired on a scalar multiply, the function
    has, in the place of the multiply, four or five instructions whose
    opcodes are among G_CONSTANT, G_SHL, G_ADD, G_SUB and COPY: no
    multiply is left for the rule to fire on again.  The destination of the
    multiply is defined by the last of them and by no other, and the
    registers the rule has created are typed s64 for the shift amounts and
    with the multiply's type for the values; the registers that existed
    keep their types. *)
Theorem mul_const_output_shape
    (MI : MachineInstr) (MRI : MachineRegisterInfo)
    (dst lhs rhs : Register) (W : Z) (Const : ValueAndVReg)
    (pre post : list MachineInstr) (fn : MulConstApplyFn) :
  MulOfConst MI MRI dst lhs rhs W Const ->
  InstrAt MRI pre MI post ->
  getType MRI lhs = LLT_scalar W ->
  (dst < length (VRegToType MRI))%nat ->
  matchAArch64MulConstCombine MI MRI = Ok (Some fn) ->
  exists MRI' body last tys,
    rewriteWith (applyAArch64MulConstCombine (length pre) fn) MRI = Ok MRI'
    /\ Insts MRI' = pre ++ (body ++ [last]) ++ post
    /\ (length body = 3 \/ length body = 4)%nat
    /\ Forall (fun I => In (getOpcode I)
                          [G_CONSTANT; G_SHL; G_ADD; G_SUB; COPY])
         (body ++ [last])
    /\ Forall (fun I => definesReg dst I = false) body
    /\ definesReg dst last = true
    /\ VRegToType MRI' = VRegToType MRI ++ tys
    /\ Forall (fun ty => ty = LLT_scalar 64 \/ ty = LLT_scalar W) tys.
Proof.
  intros Hmul Hat Hty Hd Hm.
  destruct (match_mul_fields _ _ _ _ _ _ _ fn Hmul Hm)
    as (_ & Hop & HL & HT).
  destruct (match_mul_inv _ _ _ Hm) as [_ Hex].
  rewrite Hty in HT.
  pose proof (apply_mul_result MRI pre MI post dst fn W Hat
                (moc_dst _ _ _ _ _ _ _ Hmul) HT Hex) as Hrw.
  cbv zeta in Hrw.
  set (n := length (VRegToType MRI)) in *.
  assert (N0 : Nat.eqb dst n = false) by (apply Nat.eqb_neq; lia).
  assert (N1 : Nat.eqb dst (1 + n) = false) by (apply Nat.eqb_neq; lia).
  assert (N2 : Nat.eqb dst (2 + n) = false) by (apply Nat.eqb_neq; lia).
  assert (N3 : Nat.eqb dst (3 + n) = false) by (apply Nat.eqb_neq; lia).
  assert (Hsum : forall a b,
             In (getOpcode (binop (AddSubOpc fn) (2 + n) a b))
               [G_CONSTANT; G_SHL; G_ADD; G_SUB; COPY]).
  { intros a b. cbn [getOpcode binop mkInstr Opc].
    destruct Hop as [-> | ->]; simpl; auto. }
  assert (Hdef : forall a b,
             definesReg dst (binop (AddSubOpc fn) (2 + n) a b) = false)
    by (intros a b; now rewrite definesReg_binop).
  destruct (NegateResult fn) eqn:Hneg;
    [|destruct (TrailingZeroes fn =? 0) eqn:Ht].
  - eexists.
    exists [cst n 64 (ShiftAmt fn); binop G_SHL (1 + n) (LHS fn) n;
            (if ShiftValUseIsLHS fn
             then binop (AddSubOpc fn) (2 + n) (1 + n) (LHS fn)
             else binop (AddSubOpc fn) (2 + n) (LHS fn) (1 + n));
            cst (3 + n) W 0], (binop G_SUB dst (3 + n) (2 + n)).
    eexists.
    split; [exact Hrw|]. cbn [Insts VRegToType].
    split; [reflexivity|]. split; [right; reflexivity|].
    split.
    { cbn [app]. repeat apply Forall_cons; try apply Forall_nil;
        try (simpl; auto 6; fail).
      destruct (ShiftValUseIsLHS fn); apply Hsum. }
    split.
    { repeat apply Forall_cons; try apply Forall_nil;
        rewrite ?definesReg_cst, ?definesReg_binop; try assumption.
      destruct (ShiftValUseIsLHS fn); apply Hdef. }
    split; [rewrite ?definesReg_binop, ?definesReg_copy;
            apply Nat.eqb_refl|].
    split; [reflexivity|].
    repeat apply Forall_cons; try apply Forall_nil; auto.
  - eexists.
    exists [cst n 64 (ShiftAmt fn); binop G_SHL (1 + n) (LHS fn) n;
            (if ShiftValUseIsLHS fn
             then binop (AddSubOpc fn) (2 + n) (1 + n) (LHS fn)
             else binop (AddSubOpc fn) (2 + n) (LHS fn) (1 + n))],
           (copy dst (2 + n)).
    eexists.
    split; [exact Hrw|]. cbn [Insts VRegToType].
    split; [reflexivity|]. split; [left; reflexivity|].
    split.
    { cbn [app]. repeat apply Forall_cons; try apply Forall_nil;
        try (simpl; auto 6; fail).
      destruct (ShiftValUseIsLHS fn); apply Hsum. }
    split.
    { repeat apply Forall_cons; try apply Forall_nil;
        rewrite ?definesReg_cst, ?definesReg_binop; try assumption.
      destruct (ShiftValUseIsLHS fn); apply Hdef. }
    split; [rewrite ?definesReg_binop, ?definesReg_copy;
            apply Nat.eqb_refl|].
    split; [reflexivity|].
    repeat apply Forall_cons; try apply Forall_nil; auto.
  - eexists.
    exists [cst n 64 (ShiftAmt fn); binop G_SHL (1 + n) (LHS fn) n;
            (if ShiftValUseIsLHS fn
             then binop (AddSubOpc fn) (2 + n) (1 + n) (LHS fn)
             else binop (AddSubOpc fn) (2 + n) (LHS fn) (1 + n));
            cst (3 + n) 64 (TrailingZeroes fn)],
           (binop G_SHL dst (2 + n) (3 + n)).
    eexists.
    split; [exact Hrw|]. cbn [Insts VRegToType].
    split; [reflexivity|]. split; [right; reflexivity|].
    split.
    { cbn [app]. repeat apply Forall_cons; try apply Forall_nil;
        try (simpl; auto 6; fail).
      destruct (ShiftValUseIsLHS fn); apply Hsum. }
    split.
    { repeat apply Forall_cons; try apply Forall_nil;
        rewrite ?definesReg_cst, ?definesReg_binop; try assumption.
      destruct (ShiftValUseIsLHS fn); apply Hdef. }
    split; [rewrite ?definesReg_binop, ?definesReg_copy;
            apply Nat.eqb_refl|].
    split; [reflexivity|].
    repeat apply Forall_cons; try apply Forall_nil; auto.
Qed.

Lemma mul_const_output_shape_witness :
  exists MRI' body last tys,
    rewriteWith (applyAArch64MulConstCombine 2
                   (mkFn 1 G_ADD true false 2 s32 0)) (mulFunction 12 [] [])
    = Ok MRI'
    /\ Insts MRI' = [copy 0 w0; cst 1 32 12] ++ (body ++ [last]) ++ []
    /\ (length body = 3 \/ length body = 4)%nat
    /\ Forall (fun I => In (getOpcode I)
                          [G_CONSTANT; G_SHL; G_ADD; G_SUB; COPY])
         (body ++ [last])
    /\ Forall (fun I => definesReg 2 I = false) body
    /\ definesReg 2 last = true
    /\ VRegToType MRI' = VRegToType (mulFunction 12 [] []) ++ tys
    /\ Forall (fun ty => ty = LLT_scalar 64 \/ ty = LLT_scalar 32) tys.
Proof.
  apply (mul_const_output_shape mulInstr (mulFunction 12 [] []) 2 0 1 32
           (constOf 12) [copy 0 w0; cst 1 32 12] []
           (mkFn 1 G_ADD true false 2 s32 0)).
  - apply mulFunction_MulOfConst.
  - reflexivity.
  - reflexivity.
  - simpl. lia.
  - reflexivity.
Defined.

(** ** The pairwise add rule: what a match means and what apply needs *)

(** X9.  Every match of the pairwise add rule has found: a constant zero index
    (looked up through copies and extensions); a float add defining the
    source, copies ignored; a result of 16, 32 or 64 bits; a shuffle, taken
    from the second operand of the add when that is one and from the first
    otherwise, whose mask starts with 1; and for the remaining operand v a
    defining instruction that is also the one defining the shuffle's first
    source.  The match information is then G_FADD, the type of the result
    and the first operand of that defining instruction. *)
Theorem extract_pairwise_fadd_match_inversion
    (MI : MachineInstr) (MRI : MachineRegisterInfo)
    (o : Opcode) (ty : LLT) (src : Register) :
  matchExtractVecEltPairwiseAdd MI MRI = Ok (Some (o, ty, src)) ->
  exists dst src1 src2 Cst FAddMI a b v Sh mask shsrc VDef sz,
    getOperandReg MI 0 = Ok dst
    /\ getOperandReg MI 1 = Ok src1
    /\ getOperandReg MI 2 = Ok src2
    /\ getIConstantVRegValWithLookThrough src2 MRI = Some Cst
    /\ APInt.isZero (Value Cst) = true
    /\ getOpcodeDef G_FADD src1 MRI = Some FAddMI
    /\ getOperandReg (snd FAddMI) 1 = Ok a
    /\ getOperandReg (snd FAddMI) 2 = Ok b
    /\ getSizeInBits (getType MRI dst) = Ok sz
    /\ In sz [16; 32; 64]
    /\ ShuffleOperand MRI a b v Sh
    /\ getOperand (snd Sh) 3 = Ok (MO_ShuffleMask mask)
    /\ nth_error mask 0 = Some 1
    /\ getOperandReg (snd Sh) 1 = Ok shsrc
    /\ getVRegDef MRI v = Some VDef
    /\ MIPtr_eqb (Some VDef) (getVRegDef MRI shsrc) = true
    /\ getOperandReg (snd VDef) 0 = Ok src
    /\ o = G_FADD
    /\ ty = getType MRI dst.
Proof.
  unfold matchExtractVecEltPairwiseAdd.
  destruct (getOperandReg MI 1) as [src1| |] eqn:E1; try discriminate.
  cbn [bind].
  destruct (getOperandReg MI 2) as [src2| |] eqn:E2; try discriminate.
  cbn [bind].
  destruct (getOperandReg MI 0) as [dst| |] eqn:E0; try discriminate.
  cbn [bind].
  destruct (getIConstantVRegValWithLookThrough src2 MRI) as [Cst|] eqn:EC;
    try discriminate.
  destruct (APInt.isZero (Value Cst)) eqn:EZ; cbn [negb]; try discriminate.
  destruct (getOpcodeDef G_FADD src1 MRI) as [FAddMI|] eqn:EF;
    try discriminate.
  destruct (getSizeInBits (getType MRI dst)) as [sz| |] eqn:ES;
    try discriminate. cbn [bind].
  destruct (negb (sz =? 16) && negb (sz =? 32) && negb (sz =? 64)) eqn:EG;
    try discriminate.
  assert (Hsz : In sz [16; 32; 64]).
  { simpl. destruct (Z.eqb_spec sz 16); [auto|].
    destruct (Z.eqb_spec sz 32); [auto|].
    destruct (Z.eqb_spec sz 64); [auto|]. discriminate. }
  destruct (getOperandReg (snd FAddMI) 1) as [a| |] eqn:Ea; try discriminate.
  cbn [bind].
  destruct (getOperandReg (snd FAddMI) 2) as [b| |] eqn:Eb; try discriminate.
  cbn [bind].
  assert (Hcases :
    forall Shuffle Other,
      match getOpcodeDef G_SHUFFLE_VECTOR b MRI with
      | Some Sh0 => (Some Sh0, getVRegDef MRI a)
      | None => (getOpcodeDef G_SHUFFLE_VECTOR a MRI, getVRegDef MRI b)
      end = (Shuffle, Other) ->
      forall Sh, Shuffle = Some Sh ->
      exists v, ShuffleOperand MRI a b v Sh /\ Other = getVRegDef MRI v).
  { intros Shuffle Other Hp Sh HS.
    destruct (getOpcodeDef G_SHUFFLE_VECTOR b MRI) as [Sh0|] eqn:Eshb;
      inversion Hp; subst.
    - inversion H0; subst. exists a. split; [left; auto | reflexivity].
    - exists b. split; [right; auto | reflexivity]. }
  destruct (match getOpcodeDef G_SHUFFLE_VECTOR b MRI with
            | Some Sh0 => (Some Sh0, getVRegDef MRI a)
            | None => (getOpcodeDef G_SHUFFLE_VECTOR a MRI, getVRegDef MRI b)
            end) as [Shuffle Other] eqn:EP.
  specialize (Hcases Shuffle Other eq_refl).
  destruct Shuffle as [Sh|]; try discriminate.
  destruct (Hcases Sh eq_refl) as (v & HSh & HO).
  destruct (getOperand (snd Sh) 3) as [MaskOp| |] eqn:E3; try discriminate.
  cbn [bind].
  destruct MaskOp as [? ?|?|?|mask|?]; cbn [getShuffleMask bind];
    try discriminate.
  destruct (nth_error mask 0) as [m0|] eqn:Em; cbn [deref bind];
    try discriminate.
  destruct (Z.eqb_spec m0 1) as [->|]; try discriminate.
  destruct (getOperandReg (snd Sh) 1) as [shsrc| |] eqn:Es1;
    try discriminate. cbn [bind].
  destruct (MIPtr_eqb Other (getVRegDef MRI shsrc)) eqn:Eeq;
    try discriminate.
  destruct Other as [VDef|]; cbn [deref bind]; try discriminate.
  destruct (getOperandReg (snd VDef) 0) as [r| |] eqn:Er; try discriminate.
  cbn [bind]. intros H. inversion H; subst.
  exists dst, src1, src2, Cst, FAddMI, a, b, v, Sh, mask, shsrc, VDef, sz.
  repeat (split; [assumption || reflexivity || (symmetry; assumption)|]).
  reflexivity.
Qed.

Lemma extract_pairwise_fadd_match_inversion_witness :
  exists dst src1 src2 Cst FAddMI a b v Sh mask shsrc VDef sz,
    getOperandReg unmergeExtract 0 = Ok dst
    /\ getOperandReg unmergeExtract 1 = Ok src1
    /\ getOperandReg unmergeExtract 2 = Ok src2
    /\ getIConstantVRegValWithLookThrough src2 unmergePairwiseFunction
       = Some Cst
    /\ APInt.isZero (Value Cst) = true
    /\ getOpcodeDef G_FADD src1 unmergePairwiseFunction = Some FAddMI
    /\ getOperandReg (snd FAddMI) 1 = Ok a
    /\ getOperandReg (snd FAddMI) 2 = Ok b
    /\ getSizeInBits (getType unmergePairwiseFunction dst) = Ok sz
    /\ In sz [16; 32; 64]
    /\ ShuffleOperand unmergePairwiseFunction a b v Sh
    /\ getOperand (snd Sh) 3 = Ok (MO_ShuffleMask mask)
    /\ nth_error mask 0 = Some 1
    /\ getOperandReg (snd Sh) 1 = Ok shsrc
    /\ getVRegDef unmergePairwiseFunction v = Some VDef
    /\ MIPtr_eqb (Some VDef) (getVRegDef unmergePairwiseFunction shsrc) = true
    /\ getOperandReg (snd VDef) 0 = Ok 1%nat
    /\ G_FADD = G_FADD
    /\ s32 = getType unmergePairwiseFunction dst.
Proof.
  apply (extract_pairwise_fadd_match_inversion unmergeExtract
           unmergePairwiseFunction G_FADD s32 1%nat).
  reflexivity.
Defined.

Lemma run_apply_pairwise_add
    (MRI : MachineRegisterInfo) (pre post : list MachineInstr)
    (MI : MachineInstr) (dst : Register) (ty : LLT) (src : Register) :
  InstrAt MRI pre MI post ->
  getOperandReg MI 0 = Ok dst ->
  let n := length (VRegToType MRI) in
  rewriteWith (applyExtractVecEltPairwiseAdd (length pre) (G_FADD, ty, src))
    MRI
  = Ok {| Insts :=
            pre ++ [cst n 64 0; binop G_EXTRACT_VECTOR_ELT (1 + n) src n;
                    cst (2 + n) 64 1;
                    binop G_EXTRACT_VECTOR_ELT (3 + n) src (2 + n);
                    binop G_FADD dst (1 + n) (3 + n)] ++ post;
          VRegToType :=
            VRegToType MRI ++ [LLT_scalar 64; ty; LLT_scalar 64; ty] |}.
Proof.
  intros Hat Hd n.
  unfold rewriteWith, applyExtractVecEltPairwiseAdd, bindB.
  simpl (liftB (assert _) _).
  rewrite (destruct_MRI MRI). unfold InstrAt in Hat. rewrite Hat.
  cbn [Insts VRegToType].
  rewrite building_start, run_currentInstr.
  unfold buildExtractVectorElement.
  rewrite run_buildConstant_scalar, run_buildInstr,
    run_buildConstant_scalar, run_buildInstr.
  unfold liftB. rewrite Hd.
  rewrite run_buildInstrTo, run_eraseFromParent.
  cbn [B_MRI building Insts].
  rewrite !length_app. cbn [length app map].
  replace (length (VRegToType MRI) + 1)%nat with (1 + n)%nat
    by (subst n; lia).
  replace (1 + n + 1)%nat with (2 + n)%nat by lia.
  replace (2 + n + 1)%nat with (3 + n)%nat by lia.
  rewrite <- !app_assoc. reflexivity.
Qed.

(** X10.  Apply of the pairwise add rule does not depend on what the matcher
    has seen.  Given the opcode G_FADD it always succeeds on an
    instruction with a destination register: it builds the index 0, the
    extraction of that element of the recorded vector, the index 1, the
    second extraction and the add into the destination, in this order, and
    erases the instruction; the new registers are typed s64 for the
    indices and with the recorded type for the elements.  Given any other
    opcode its assertion fails. *)
Theorem apply_pairwise_add_builds
    (MRI : MachineRegisterInfo) (pre post : list MachineInstr)
    (MI : MachineInstr) (dst : Register)
    (o : Opcode) (ty : LLT) (src : Register) :
  InstrAt MRI pre MI post ->
  getOperandReg MI 0 = Ok dst ->
  let n := length (VRegToType MRI) in
  (o = G_FADD ->
   rewriteWith (applyExtractVecEltPairwiseAdd (length pre) (o, ty, src)) MRI
   = Ok {| Insts :=
             pre ++ [cst n 64 0; binop G_EXTRACT_VECTOR_ELT (1 + n) src n;
                     cst (2 + n) 64 1;
                     binop G_EXTRACT_VECTOR_ELT (3 + n) src (2 + n);
                     binop G_FADD dst (1 + n) (3 + n)] ++ post;
           VRegToType :=
             VRegToType MRI
             ++ [LLT_scalar 64; ty; LLT_scalar 64; ty] |})
  /\ (o <> G_FADD ->
      rewriteWith (applyExtractVecEltPairwiseAdd (length pre) (o, ty, src))
        MRI = Abort).
Proof.
  intros Hat Hd n. split.
  - intros ->. apply (run_apply_pairwise_add MRI pre post MI dst ty src
                        Hat Hd).
  - intros Ho.
    unfold rewriteWith, applyExtractVecEltPairwiseAdd, bindB, liftB.
    destruct (Opcode_eqb o G_FADD) eqn:E.
    + apply Opcode_eqb_true in E. contradiction.
    + reflexivity.
Qed.

Lemma apply_pairwise_add_builds_witness :
  rewriteWith (applyExtractVecEltPairwiseAdd 5 (G_FADD, s32, 0%nat))
    (pairwiseFunction 32)
  = Ok {| Insts :=
            [copy 0 q0; mkInstr G_IMPLICIT_DEF [def 1]; shuffleInstr;
             binop G_FADD 3 0 2; cst 4 64 0]
            ++ [cst 6 64 0; binop G_EXTRACT_VECTOR_ELT 7 0 6;
                cst 8 64 1; binop G_EXTRACT_VECTOR_ELT 9 0 8;
                binop G_FADD 5 7 9] ++ [];
          VRegToType :=
            VRegToType (pairwiseFunction 32) ++ [s64; s32; s64; s32] |}.
Proof.
  exact (proj1 (apply_pairwise_add_builds (pairwiseFunction 32)
                  [copy 0 q0; mkInstr G_IMPLICIT_DEF [def 1]; shuffleInstr;
                   binop G_FADD 3 0 2; cst 4 64 0] []
                  extractInstr 5 G_FADD s32 0 eq_refl eq_refl) eq_refl).
Defined.

(** ** The store rule: what apply needs and leaves behind *)

Lemma isSimple_getMachineMemOperand MMO Offset ty :
  isSimple (getMachineMemOperand MMO Offset ty) = isSimple MMO.
Proof. reflexivity. Qed.

Lemma match_store_of_scalar (MRI : MachineRegisterInfo) (v a : Register)
    (MMO : MachineMemOperand) (w : Z) :
  getType MRI v = LLT_scalar w ->
  matchSplitStoreZero128 (store v a MMO) MRI = Ok false.
Proof.
  intros Hty. unfold matchSplitStoreZero128, store, getMMO, getValueReg.
  cbn [getOpcode Opc MemOperands hd_error deref]. simpl (assert _).
  cbn [bind]. destruct (isSimple MMO); cbn [negb]; [|reflexivity].
  unfold getOperandReg, getOperand. cbn [Operands nth_error deref bind use
                                         getReg].
  now rewrite Hty.
Qed.

Lemma run_apply_split_store
    (MI : MachineInstr) (MRI : MachineRegisterInfo)
    (pre post : list MachineInstr) (ValueReg A : Register)
    (MMO : MachineMemOperand) :
  getOpcode MI = G_STORE ->
  InstrAt MRI pre MI post ->
  getValueReg MI = Ok ValueReg ->
  getPointerReg MI = Ok A ->
  getMMO MI = Ok MMO ->
  (A < length (VRegToType MRI))%nat ->
  isVector (getType MRI ValueReg) = true ->
  let n := length (VRegToType MRI) in
  rewriteWith (applySplitStoreZero128 (length pre)) MRI
  = Ok {| Insts :=
            pre ++ [cst n 64 0; cst (1 + n) 64 8;
                    binop G_PTR_ADD (2 + n) A (1 + n);
                    store n A (getMachineMemOperand MMO 0 (LLT_scalar 64));
                    store n (2 + n)
                      (getMachineMemOperand MMO 8 (LLT_scalar 64))] ++ post;
          VRegToType :=
            VRegToType MRI
            ++ [LLT_scalar 64; LLT_scalar 64; getType MRI A] |}.
Proof.
  intros Hopc Hat HV HA HM HAn Hvec n.
  destruct MRI as [I T]. unfold InstrAt in Hat. cbn [Insts] in Hat.
  subst I. cbn [VRegToType] in *. unfold getType in *.
  cbn [VRegToType] in *.
  unfold rewriteWith, applySplitStoreZero128, bindB.
  rewrite building_start, run_currentInstr. rewrite Hopc.
  simpl (liftB (assert _) _). unfold liftB at 1. rewrite HV.
  rewrite run_getTypeB, Hvec. simpl (liftB (assert _) _).
  unfold liftB at 1. rewrite HA.
  rewrite run_buildConstant_scalar, run_getTypeB,
    run_buildConstant_scalar.
  unfold buildPtrAdd. rewrite run_buildInstr.
  unfold liftB. rewrite HM.
  rewrite run_buildStore, run_buildStore, run_eraseFromParent.
  rewrite app_nth1 by exact HAn.
  cbn [B_MRI building Insts VRegToType].
  rewrite !length_app. cbn [length app].
  replace (length T + 1)%nat with (1 + n)%nat by (subst n; lia).
  replace (1 + n + 1)%nat with (2 + n)%nat by lia.
  rewrite <- !app_assoc. reflexivity.
Qed.

(** X11.  Apply of the store rule asserts that the stored value is a vector and
    fails on any other store.  On a vector store whose address register
    exists it leaves a 64-bit zero, the constant 8, the address plus 8
    (typed like the address) and the two 64-bit stores in the place of the
    store, and types the three new registers s64, s64 and like the address.
    Neither of the two new stores matches the rule again: their value is a
    scalar. *)
Theorem split_store_apply_result
    (MI : MachineInstr) (MRI : MachineRegisterInfo)
    (pre post : list MachineInstr) (ValueReg A : Register)
    (MMO : MachineMemOperand) :
  getOpcode MI = G_STORE ->
  InstrAt MRI pre MI post ->
  getValueReg MI = Ok ValueReg ->
  getPointerReg MI = Ok A ->
  getMMO MI = Ok MMO ->
  (A < length (VRegToType MRI))%nat ->
  let n := length (VRegToType MRI) in
  let lo := store n A (getMachineMemOperand MMO 0 (LLT_scalar 64)) in
  let hi := store n (2 + n) (getMachineMemOperand MMO 8 (LLT_scalar 64)) in
  (isVector (getType MRI ValueReg) = false ->
   rewriteWith (applySplitStoreZero128 (length pre)) MRI = Abort)
  /\ (isVector (getType MRI ValueReg) = true ->
      exists MRI',
        rewriteWith (applySplitStoreZero128 (length pre)) MRI = Ok MRI'
        /\ Insts MRI' =
           pre ++ [cst n 64 0; cst (1 + n) 64 8;
                   binop G_PTR_ADD (2 + n) A (1 + n); lo; hi] ++ post
        /\ VRegToType MRI' =
           VRegToType MRI ++ [LLT_scalar 64; LLT_scalar 64; getType MRI A]
        /\ matchSplitStoreZero128 lo MRI' = Ok false
        /\ matchSplitStoreZero128 hi MRI' = Ok false).
Proof.
  intros Hopc Hat HV HA HM HAn n lo hi. split; intros Hvec.
  - unfold rewriteWith, applySplitStoreZero128, bindB.
    rewrite (destruct_MRI MRI). unfold InstrAt in Hat. rewrite Hat.
    cbn [Insts VRegToType].
    rewrite building_start, run_currentInstr. rewrite Hopc.
    simpl (liftB (assert _) _). unfold liftB at 1. rewrite HV.
    rewrite run_getTypeB. fold (getType MRI ValueReg). rewrite Hvec.
    reflexivity.
  - eexists.
    split; [apply (run_apply_split_store MI MRI pre post ValueReg A MMO
                     Hopc Hat HV HA HM HAn Hvec)|].
    cbn [Insts VRegToType]. split; [reflexivity|]. split; [reflexivity|].
    split; apply (match_store_of_scalar _ _ _ _ 64);
      unfold getType at 1; cbn [VRegToType];
      rewrite app_nth2 by (subst n; lia); subst n;
      now rewrite Nat.sub_diag.
Qed.

Lemma split_store_apply_result_witness :
  exists MRI',
    rewriteWith (applySplitStoreZero128 3) (storeFunction 0 []) = Ok MRI'
    /\ Insts MRI' =
       [copy 0 x0; cst 1 64 0; binop G_BUILD_VECTOR 2 1 1]
       ++ [cst 3 64 0; cst 4 64 8; binop G_PTR_ADD 5 0 4;
           store 3 0 (getMachineMemOperand storeMMO 0 (LLT_scalar 64));
           store 3 5 (getMachineMemOperand storeMMO 8 (LLT_scalar 64))]
       ++ []
    /\ VRegToType MRI' =
       VRegToType (storeFunction 0 [])
       ++ [LLT_scalar 64; LLT_scalar 64; getType (storeFunction 0 []) 0]
    /\ matchSplitStoreZero128
         (store 3 0 (getMachineMemOperand storeMMO 0 (LLT_scalar 64))) MRI'
       = Ok false
    /\ matchSplitStoreZero128
         (store 3 5 (getMachineMemOperand storeMMO 8 (LLT_scalar 64))) MRI'
       = Ok false.
Proof.
  refine (proj2 (split_store_apply_result
                   storeInstr (storeFunction 0 [])
                   [copy 0 x0; cst 1 64 0; binop G_BUILD_VECTOR 2 1 1]
                   [] 2 0 storeMMO
                   eq_refl eq_refl eq_refl eq_refl eq_refl _) eq_refl).
  simpl. lia.
Defined.

(** ** The merge rule: value and use counts *)

Lemma countNonDBGUses_usesIn MRI r :
  countNonDBGUses MRI r = usesIn r (Insts MRI).
Proof. reflexivity. Qed.

Lemma usesIn_app r l1 l2 :
  usesIn r (l1 ++ l2) = (usesIn r l1 + usesIn r l2)%nat.
Proof.
  unfold usesIn, countNonDBGUses. cbn [Insts].
  induction l1 as [|I l1 IH]; [reflexivity|].
  cbn [app fold_right]. rewrite IH.
  destruct (isDebugInstr I); lia.
Qed.

Lemma usesIn_cons r I l :
  usesIn r (I :: l)
  = ((if isDebugInstr I then 0
      else length (filter (isUseOf r) (Operands I))) + usesIn r l)%nat.
Proof.
  unfold usesIn, countNonDBGUses. cbn [Insts fold_right].
  destruct (isDebugInstr I); reflexivity.
Qed.

Lemma findInstr_same_position (p q : MachineInstr -> bool)
    (pre post : list MachineInstr) (X Y : MachineInstr) (i : nat) :
  p X = p Y ->
  option_map fst (findInstr p (pre ++ X :: post) i)
  = option_map fst (findInstr p (pre ++ Y :: post) i).
Proof.
  intros E. revert i. induction pre as [|I pre IH]; intros i.
  - cbn [app findInstr]. rewrite E. destruct (p Y); reflexivity.
  - cbn [app findInstr]. destruct (p I); [reflexivity | apply IH].
Qed.

(** X12.  After the merge rule has been applied, the register that held the
    zero has one non-debug use fewer and every other register has as many
    as before; every register is defined at the position where it was
    defined before.  The constant itself is left in the function. *)
Theorem fold_merge_to_zext_use_counts
    (MI : MachineInstr) (MRI MRI' : MachineRegisterInfo)
    (pre post : list MachineInstr) (d : MachineOperand) (a z : Register)
    (Observer Observer' : GISelChangeObserver) :
  InstrAt MRI pre MI post ->
  getOpcode MI = G_MERGE_VALUES ->
  Operands MI = [d; use a; use z] ->
  applyFoldMergeToZext (length pre) MRI Observer = Ok (MRI', Observer') ->
  (forall r,
      countNonDBGUses MRI r
      = (countNonDBGUses MRI' r + (if Nat.eqb r z then 1 else 0))%nat)
  /\ (forall r,
      option_map fst (getVRegDef MRI' r) = option_map fst (getVRegDef MRI r))
  /\ length (Insts MRI') = length (Insts MRI).
Proof.
  intros Hat Hopc Hops Happ.
  unfold applyFoldMergeToZext in Happ. unfold InstrAt in Hat.
  rewrite Hat in Happ. rewrite nth_error_app2 in Happ by lia.
  rewrite Nat.sub_diag in Happ. cbn [nth_error deref bind] in Happ.
  unfold removeOperand, setDesc in Happ. cbn [Operands Opc MemOperands] in Happ.
  rewrite Hops in Happ. cbn [length Nat.ltb Nat.leb assert bind] in Happ.
  unfold mutateInstr in Happ. rewrite Hat, replaceAt_app in Happ.
  inversion Happ as [[HM HO]]. clear Happ HO.
  split; [|split].
  - intros r. rewrite !countNonDBGUses_usesIn. cbn [Insts]. rewrite Hat.
    rewrite !usesIn_app, !usesIn_cons.
    unfold isDebugInstr. cbn [Opc]. unfold getOpcode in Hopc. rewrite Hopc.
    change (Opcode_eqb G_MERGE_VALUES DBG_VALUE) with false.
    change (Opcode_eqb G_ZEXT DBG_VALUE) with false. cbv iota.
    rewrite Hops. unfold removeAt. cbn [firstn skipn app Operands].
    assert (Hd : forall k,
               length (filter (isUseOf r) (d :: k))
               = ((if isUseOf r d then 1 else 0)
                  + length (filter (isUseOf r) k))%nat).
    { intros k. cbn [filter]. destruct (isUseOf r d); reflexivity. }
    rewrite !Hd. cbn [filter isUseOf use].
    destruct (Nat.eqb r a), (Nat.eqb r z); cbn [length]; lia.
  - intros r. unfold getVRegDef. cbn [Insts]. rewrite Hat.
    apply findInstr_same_position; [exact (definesReg r)|].
    unfold definesReg. cbn [Operands]. rewrite Hops.
    unfold removeAt. cbn [firstn skipn app existsb isDefOf use].
    now rewrite !orb_false_r.
  - cbn [Insts]. rewrite Hat, !length_app. reflexivity.
Qed.

Lemma fold_merge_to_zext_use_counts_witness :
  let MRI := mergeFunction (cst 1 32 0) in
  let MRI' :=
    {| Insts := [copy 0 w0; cst 1 32 0; mkInstr G_ZEXT [def 2; use 0]];
       VRegToType := [s32; s32; s64] |} in
  (forall r,
      countNonDBGUses MRI r
      = (countNonDBGUses MRI' r + (if Nat.eqb r 1 then 1 else 0))%nat)
  /\ (forall r,
      option_map fst (getVRegDef MRI' r) = option_map fst (getVRegDef MRI r))
  /\ length (Insts MRI') = length (Insts MRI).
Proof.
  intros MRI MRI'.
  apply (fold_merge_to_zext_use_counts mergeInstr MRI MRI'
           [copy 0 w0; cst 1 32 0] [] (def 2) 0 1 []
           [changingInstr 2; changedInstr 2]); reflexivity.
Defined.

(** ** The any-extend rule *)

Lemma usesIn_same_operands r pre post X Y :
  isDebugInstr X = isDebugInstr Y -> Operands X = Operands Y ->
  usesIn r (pre ++ X :: post) = usesIn r (pre ++ Y :: post).
Proof.
  intros Hd Ho. rewrite !usesIn_app, !usesIn_cons. now rewrite Hd, Ho.
Qed.

(** X13.  The any-extend rule matches exactly when the destination is a scalar
    and the source register is defined by an integer or floating-point
    compare; it never matches a vector destination.  Apply always succeeds
    on an instruction of the function: it changes the opcode to G_ZEXT
    where the instruction stands, tells the observer before and after, and
    leaves operands, register types, the use count of every register and
    the position of every definition as they were. *)
Theorem mutate_anyext_to_zext_rule
    (MI : MachineInstr) (MRI : MachineRegisterInfo)
    (pre post : list MachineInstr) (dst src : Register)
    (Observer : GISelChangeObserver) :
  getOpcode MI = G_ANYEXT ->
  getOperandReg MI 0 = Ok dst ->
  getOperandReg MI 1 = Ok src ->
  InstrAt MRI pre MI post ->
  (matchMutateAnyExtToZExt MI MRI = Ok true <->
     (exists w, getType MRI dst = LLT_scalar w)
     /\ exists DefMI,
          getVRegDef MRI src = Some DefMI
          /\ In (getOpcode (snd DefMI)) [G_ICMP; G_FCMP])
  /\ (isVector (getType MRI dst) = true ->
      matchMutateAnyExtToZExt MI MRI = Ok false)
  /\ exists MRI',
       applyMutateAnyExtToZExt (length pre) MRI Observer
       = Ok (MRI', Observer ++ [changingInstr (length pre);
                                changedInstr (length pre)])
       /\ Insts MRI' =
          pre ++ {| Opc := G_ZEXT; Operands := Operands MI;
                    MemOperands := MemOperands MI |} :: post
       /\ VRegToType MRI' = VRegToType MRI
       /\ (forall r, countNonDBGUses MRI' r = countNonDBGUses MRI r)
       /\ (forall r, option_map fst (getVRegDef MRI' r)
                     = option_map fst (getVRegDef MRI r)).
Proof.
  intros Hopc Hd Hs Hat.
  destruct (mutate_anyext_to_zext_in_place MI MRI pre post dst src Observer
              Hopc Hd Hs Hat) as [Hm Ha].
  split; [|split].
  - rewrite Hm. unfold m_AnyCmp. split.
    + intros H. inversion H as [H'].
      apply andb_true_iff in H'. destruct H' as [Hsc Hcmp].
      split.
      * destruct (getType MRI dst) as [|w| |]; try discriminate.
        now exists w.
      * destruct (getVRegDef MRI src) as [[i DefMI]|]; try discriminate.
        exists (i, DefMI). split; [reflexivity|].
        apply orb_true_iff in Hcmp. cbn [snd getOpcode In].
        destruct Hcmp as [E|E]; apply Opcode_eqb_true in E; auto.
    + intros [[w Hw] [[i DefMI] [Hdef Hin]]].
      rewrite Hw, Hdef. cbn [isScalar andb snd In] in *.
      unfold getOpcode in Hin.
      destruct Hin as [<- | [<- | []]]; reflexivity.
  - intros Hv. rewrite Hm.
    destruct (getType MRI dst); try discriminate. reflexivity.
  - eexists. split; [exact Ha|]. cbn [Insts VRegToType].
    split; [reflexivity|]. split; [reflexivity|].
    unfold InstrAt in Hat. split.
    + intros r. rewrite !countNonDBGUses_usesIn. cbn [Insts]. rewrite Hat.
      apply usesIn_same_operands; [|reflexivity].
      unfold isDebugInstr, setDesc. cbn [Opc]. unfold getOpcode in Hopc.
      now rewrite Hopc.
    + intros r. unfold getVRegDef. cbn [Insts]. rewrite Hat.
      apply findInstr_same_position; [exact (definesReg r)|].
      reflexivity.
Qed.

Lemma mutate_anyext_to_zext_rule_witness :
  let MRI :=
    {| Insts := [copy 0 w0; binop G_ICMP 1 0 0;
                 mkInstr G_ANYEXT [def 2; use 1]];
       VRegToType := [s32; s32; s64] |} in
  matchMutateAnyExtToZExt (mkInstr G_ANYEXT [def 2; use 1]) MRI = Ok true
  /\ applyMutateAnyExtToZExt 2 MRI []
     = Ok ({| Insts := [copy 0 w0; binop G_ICMP 1 0 0;
                        mkInstr G_ZEXT [def 2; use 1]];
              VRegToType := [s32; s32; s64] |},
           [changingInstr 2; changedInstr 2]).
Proof.
  intros MRI.
  pose proof (mutate_anyext_to_zext_rule
                (mkInstr G_ANYEXT [def 2; use 1]) MRI
                [copy 0 w0; binop G_ICMP 1 0 0] [] 2 1 []
                eq_refl eq_refl eq_refl eq_refl) as [Hm _].
  split; [|reflexivity].
  apply (proj2 Hm). split.
  - exists 64. reflexivity.
  - exists (1%nat, binop G_ICMP 1 0 0). split; [reflexivity|].
    left. reflexivity.
Defined.

(** ** The pass and its analyses *)

Lemma In_pushUnique (ID x : AnalysisID) (l : list AnalysisID) :
  In x (pushUnique ID l) <-> x = ID \/ In x l.
Proof.
  unfold pushUnique. destruct (in_dec AnalysisID_eq_dec ID l) as [Hin|Hn].
  - split; [auto|]. intros [-> | H]; assumption.
  - rewrite in_app_iff. cbn [In]. split.
    + intros [H | [<- | []]]; auto.
    + intros [-> | H]; auto.
Qed.

(** X15.  The analyses the pass declares against the analyses it fetches,
    the three calls into the pass framework being taken to keep what is
    already required.  [runOnMachineFunctionFetching] returns what
    [runOnMachineFunction] returns.  When the pass was not built for the
    no-optimization pipeline, every analysis it fetches has been declared
    required.  When it was, [getAnalysisUsage] adds neither the dominator
    tree nor the common-subexpression analysis to the required analyses
    (they are required only if they were before or a call into the
    framework adds them); the dominator tree is then not fetched either,
    but the common-subexpression analysis is still fetched on every
    legalized function with a valid configuration. *)
Theorem analyses_declared_and_fetched
    (setPreservesCFG fallback base : AnalysisUsage -> AnalysisUsage)
    (combineMachineInstrs : CombinerDriver) (Rules : list string)
    (CLOption : RuleConfigOption) (MF : MachineFunction)
    (Trace : CombineTrace) (AU : AnalysisUsage) :
  (forall f, In f [setPreservesCFG; fallback; base] ->
     forall U ID, In ID (Required U) -> In ID (Required (f U))) ->
  let usage := getAnalysisUsage setPreservesCFG fallback base in
  let run IsOptNone :=
    runOnMachineFunctionFetching IsOptNone combineMachineInstrs Rules
      CLOption MF Trace in
  (forall IsOptNone,
      fst (run IsOptNone)
      = runOnMachineFunction combineMachineInstrs Rules CLOption MF Trace)
  /\ (forall ID, In ID (snd (run false)) ->
        In ID (Required (usage false AU)))
  /\ ~ In MachineDominatorTree (snd (run true))
  /\ (FailedISel MF = false -> Legalized MF = true ->
      parseCommandLineOption Rules CLOption = true ->
      In GISelCSEAnalysisWrapperPass (snd (run true)))
  /\ (forall ID,
        In ID [MachineDominatorTree; GISelCSEAnalysisWrapperPass] ->
        (forall f, In f [setPreservesCFG; fallback; base] ->
           forall U, In ID (Required (f U)) -> In ID (Required U)) ->
        ~ In ID (Required AU) ->
        ~ In ID (Required (usage true AU))).
Proof.
  intros Hmono usage run.
  assert (Hs := Hmono setPreservesCFG (or_introl eq_refl)).
  assert (Hf := Hmono fallback (or_intror (or_introl eq_refl))).
  assert (Hb := Hmono base (or_intror (or_intror (or_introl eq_refl)))).
  split; [|split; [|split; [|split]]].
  - intros IsOptNone. subst run. cbv beta.
    unfold runOnMachineFunctionFetching, runOnMachineFunction.
    destruct (FailedISel MF); [reflexivity|].
    destruct (negb (Legalized MF)); [reflexivity|].
    destruct (mkAArch64PostLegalizerCombinerInfo _ _ _ _ _) as [P| |];
      try reflexivity.
    now destruct (combineMachineInstrs P MF Trace).
  - intros ID Hin.
    assert (Hall : In ID [TargetPassConfig; GISelKnownBitsAnalysis;
                          MachineDominatorTree;
                          GISelCSEAnalysisWrapperPass]).
    { subst run. cbv beta in Hin. unfold runOnMachineFunctionFetching in Hin.
      destruct (FailedISel MF); [destruct Hin|].
      destruct (negb (Legalized MF)); [destruct Hin|].
      cbn [negb app] in Hin.
      destruct (mkAArch64PostLegalizerCombinerInfo _ _ _ _ _) as [P| |];
        [destruct (combineMachineInstrs P MF Trace)| |];
        cbn [snd app In] in Hin |- *; intuition. }
    subst usage. cbv beta. unfold getAnalysisUsage. cbn [negb].
    apply Hb. cbn [addPreserved addRequired Required].
    cbn [In] in Hall.
    destruct Hall as [<- | [<- | [<- | [<- | []]]]].
    + apply In_pushUnique. right. apply In_pushUnique. right.
      apply In_pushUnique. right. apply Hf, Hs.
      cbn [addRequired Required]. apply In_pushUnique. now left.
    + apply In_pushUnique. right. apply In_pushUnique. right.
      apply In_pushUnique. now left.
    + apply In_pushUnique. right. apply In_pushUnique. now left.
    + apply In_pushUnique. now left.
  - subst run. cbv beta. unfold runOnMachineFunctionFetching.
    destruct (FailedISel MF); [intros []|].
    destruct (negb (Legalized MF)); [intros []|].
    destruct (mkAArch64PostLegalizerCombinerInfo _ _ _ _ _) as [P| |];
      [destruct (combineMachineInstrs P MF Trace)| |];
      cbn [snd app In]; intros H;
      repeat (destruct H as [H|H]; try discriminate); exact H.
  - intros HF HL Hp. subst run. cbv beta.
    unfold runOnMachineFunctionFetching. rewrite HF, HL. cbn [negb].
    unfold mkAArch64PostLegalizerCombinerInfo. rewrite Hp. cbn [negb].
    match goal with
    | |- context [combineMachineInstrs ?P MF Trace] =>
        destruct (combineMachineInstrs P MF Trace)
    end.
    cbn [snd app In]. auto 6.
  - intros ID HID Hno HAU. subst usage. cbv beta. unfold getAnalysisUsage.
    cbn [negb]. intros H.
    apply (Hno base) in H; [|cbn [In]; auto].
    cbn [addPreserved addRequired Required] in H.
    apply In_pushUnique in H.
    destruct H as [H|H];
      [subst ID; cbn [In] in HID; destruct HID as [E|[E|[]]];
       discriminate|].
    apply (Hno fallback) in H; [|cbn [In]; auto].
    apply (Hno setPreservesCFG) in H; [|cbn [In]; auto].
    cbn [addRequired Required] in H.
    apply In_pushUnique in H.
    destruct H as [H|H];
      [subst ID; cbn [In] in HID; destruct HID as [E|[E|[]]];
       discriminate|].
    contradiction.
Qed.

Lemma analyses_declared_and_fetched_witness :
  let AU := {| Required := []; Preserved := [] |} in
  let id := fun U : AnalysisUsage => U in
  In GISelCSEAnalysisWrapperPass
    (snd (runOnMachineFunctionFetching true onePassDriver ruleTable
            {| DisableOption := []; OnlyEnableOption := [] |}
            (legalizedFunction (mulFunction 3 [] [])) []))
  /\ ~ In GISelCSEAnalysisWrapperPass
         (Required (getAnalysisUsage id id id true AU)).
Proof.
  intros AU id.
  assert (Hmono : forall f, In f [id; id; id] ->
            forall U ID, In ID (Required U) -> In ID (Required (f U))).
  { intros f [<- | [<- | [<- | []]]] U ID H; exact H. }
  destruct (analyses_declared_and_fetched id id id onePassDriver ruleTable
              {| DisableOption := []; OnlyEnableOption := [] |}
              (legalizedFunction (mulFunction 3 [] [])) [] AU Hmono)
    as (_ & _ & _ & H4 & H5).
  split.
  - apply H4; reflexivity.
  - apply H5.
    + cbn [In]. auto.
    + intros f [<- | [<- | [<- | []]]] U H; exact H.
    + intros [].
Defined.

(** ** The pairwise add rule keeps the value when the vector is read
       directly *)

Lemma eval_shuffle fadd MRI d a b m w w' ea eb rf :
  rf a = Some (VVector w ea) -> rf b = Some (VVector w' eb) ->
  evalInstr fadd MRI
    (mkInstr G_SHUFFLE_VECTOR [def d; use a; use b; MO_ShuffleMask m]) rf
  = Some (setReg d
            (VVector w
               (map (fun i => if i <? 0 then None
                              else nth (Z.to_nat i) (ea ++ eb) None) m))
            rf).
Proof.
  intros Ha Hb. unfold evalInstr, mkInstr. cbn [Opc Operands def use].
  now rewrite Ha, Hb.
Qed.

Lemma eval_fadd_vector fadd MRI d a b w w' ea eb rf :
  rf a = Some (VVector w ea) -> rf b = Some (VVector w' eb) ->
  evalInstr fadd MRI (binop G_FADD d a b) rf
  = Some (setReg d
            (VVector w
               (zipWith (lift2 (fun x y => Some (fadd w x y))) ea eb)) rf).
Proof.
  intros Ha Hb. unfold evalInstr, binop, mkInstr.
  cbn [Opc Operands def use]. now rewrite Ha, Hb.
Qed.

Lemma eval_fadd_scalar fadd MRI d a b w w' x y rf :
  rf a = Some (VScalar w x) -> rf b = Some (VScalar w' y) ->
  evalInstr fadd MRI (binop G_FADD d a b) rf
  = Some (setReg d
            (VScalar w (lift2 (fun x y => Some (fadd w x y)) x y)) rf).
Proof.
  intros Ha Hb. unfold evalInstr, binop, mkInstr.
  cbn [Opc Operands def use]. now rewrite Ha, Hb.
Qed.

Lemma eval_extract fadd MRI d v i w w' e k rf :
  rf v = Some (VVector w e) -> rf i = Some (VScalar w' (Some k)) ->
  evalInstr fadd MRI (binop G_EXTRACT_VECTOR_ELT d v i) rf
  = Some (setReg d (VScalar w (nth (Z.to_nat k) e None)) rf).
Proof.
  intros Hv Hi. unfold evalInstr, binop, mkInstr.
  cbn [Opc Operands def use]. now rewrite Hv, Hi.
Qed.

(** X16.  The pairwise add rule on the pattern of its description: a shuffle of
    the vector v that puts element 1 first, a float add of v and the
    shuffle, and the extraction of element 0 of the sum.  Apply, given v
    as the recorded vector, replaces the extraction by the two element
    extractions and their add.  Run from any state in which v holds at
    least two elements, the original three instructions and the rewritten
    ones leave the same scalar in the destination: the float add of
    elements 0 and 1 of v.  When the shuffle is the first operand of the
    add the original adds element 1 to element 0, and the two agree when
    the float add is commutative. *)
Theorem pairwise_add_rewrite_same_value
    (fadd : Z -> Z -> Z -> Z) (MRI : MachineRegisterInfo)
    (pre post : list MachineInstr)
    (v u s t idx dst : Register) (ty : LLT)
    (w w' wi : Z) (e0 e1 : option Z) (rest eu : list (option Z))
    (mask : list Z) (shuffleFirst : bool) (rf : RegFile) :
  let n := length (VRegToType MRI) in
  let shuffle :=
    mkInstr G_SHUFFLE_VECTOR [def s; use v; use u; MO_ShuffleMask (1 :: mask)]
  in
  let add := if shuffleFirst then binop G_FADD t s v else binop G_FADD t v s in
  let extract := binop G_EXTRACT_VECTOR_ELT dst t idx in
  let sum := Some (VScalar w (lift2 (fun x y => Some (fadd w x y)) e0 e1)) in
  InstrAt MRI (pre ++ [shuffle; add]) extract post ->
  rf v = Some (VVector w (e0 :: e1 :: rest)) ->
  rf u = Some (VVector w' eu) ->
  rf idx = Some (VScalar wi (Some 0)) ->
  (v < n)%nat -> (dst < n)%nat ->
  s <> v -> t <> v -> s <> idx -> t <> idx -> s <> t ->
  (shuffleFirst = true -> forall a b, fadd w a b = fadd w b a) ->
  exists MRI' seq,
    rewriteWith
      (applyExtractVecEltPairwiseAdd (length (pre ++ [shuffle; add]))
         (G_FADD, ty, v)) MRI = Ok MRI'
    /\ Insts MRI' = (pre ++ [shuffle; add]) ++ seq ++ post
    /\ (exists rf1,
          execInsts fadd MRI [shuffle; add; extract] rf = Some rf1
          /\ rf1 dst = sum)
    /\ (exists rf2,
          execInsts fadd MRI' ([shuffle; add] ++ seq) rf = Some rf2
          /\ rf2 dst = sum).
Proof.
  intros n shuffle add extract sum Hat Hv Hu Hi Hvn Hdn Hsv Htv Hsi Hti Hst
    Hcomm.
  pose proof (run_apply_pairwise_add MRI (pre ++ [shuffle; add]) post
                extract dst ty v Hat eq_refl) as Hrw.
  cbv zeta in Hrw. fold n in Hrw.
  eexists. eexists. split; [exact Hrw|]. cbn [Insts].
  split; [reflexivity|].
  set (lanes := map (fun i => if i <? 0 then None
                              else nth (Z.to_nat i)
                                     ((e0 :: e1 :: rest) ++ eu) None)
                  (1 :: mask)).
  assert (Hl : exists tl, lanes = e1 :: tl)
    by (eexists; reflexivity).
  destruct Hl as [tl Hl].
  set (rfs := setReg s (VVector w lanes) rf).
  assert (Es : forall M, evalInstr fadd M shuffle rf = Some rfs)
    by (intros M; apply (eval_shuffle fadd M s v u (1 :: mask) w w'
                           (e0 :: e1 :: rest) eu rf Hv Hu)).
  assert (Hvs : rfs v = Some (VVector w (e0 :: e1 :: rest)))
    by (unfold rfs; rewrite setReg_other by congruence; exact Hv).
  assert (Hss : rfs s = Some (VVector w lanes)) by apply setReg_same.
  assert (Ha : exists tl',
             forall M,
               evalInstr fadd M add rfs
               = Some (setReg t
                         (VVector w
                            (lift2 (fun x y => Some (fadd w x y)) e0 e1
                             :: tl')) rfs)).
  { subst add. destruct shuffleFirst.
    - assert (Hc : lift2 (fun x y => Some (fadd w x y)) e1 e0
                   = lift2 (fun x y => Some (fadd w x y)) e0 e1).
      { destruct e0 as [a|], e1 as [b|]; cbn [lift2]; try reflexivity.
        now rewrite (Hcomm eq_refl b a). }
      eexists. intros M.
      rewrite (eval_fadd_vector fadd M t s v w w lanes
                 (e0 :: e1 :: rest) rfs Hss Hvs).
      rewrite Hl. cbn [zipWith]. rewrite Hc. reflexivity.
    - eexists. intros M.
      rewrite (eval_fadd_vector fadd M t v s w w (e0 :: e1 :: rest)
                 lanes rfs Hvs Hss).
      rewrite Hl. cbn [zipWith]. reflexivity. }
  destruct Ha as [tl' Ea].
  set (total := lift2 (fun x y => Some (fadd w x y)) e0 e1) in *.
  set (rft := setReg t (VVector w (total :: tl')) rfs) in *.
  assert (Hvt : rft v = Some (VVector w (e0 :: e1 :: rest)))
    by (unfold rft; rewrite setReg_other by congruence; exact Hvs).
  assert (Hit : rft idx = Some (VScalar wi (Some 0))).
  { unfold rft, rfs. rewrite !setReg_other by congruence. exact Hi. }
  assert (Htt : rft t = Some (VVector w (total :: tl')))
    by apply setReg_same.
  split.
  - eexists. split.
    + cbn [execInsts]. rewrite Es, Ea.
      unfold extract.
      rewrite (eval_extract fadd MRI dst t idx w wi (total :: tl') 0 rft
                 Htt Hit).
      reflexivity.
    + rewrite setReg_same. reflexivity.
  - eexists. split.
    + cbn [app execInsts]. rewrite Es, Ea. rewrite eval_cst.
      erewrite eval_extract;
        [|rewrite setReg_other by lia; exact Hvt | apply setReg_same].
      rewrite eval_cst.
      erewrite eval_extract;
        [|rewrite !setReg_other by lia; exact Hvt | apply setReg_same].
      erewrite eval_fadd_scalar;
        [| rewrite !setReg_other by lia; apply setReg_same
         | apply setReg_same].
      reflexivity.
    + rewrite setReg_same. reflexivity.
Qed.

Lemma pairwise_add_rewrite_same_value_witness :
  let fadd := fun (_ a b : Z) => a + b in
  let shuffle :=
    mkInstr G_SHUFFLE_VECTOR [def 3; use 0; use 1; MO_ShuffleMask [1; -1]] in
  let add := binop G_FADD 4 0 3 in
  let extract := binop G_EXTRACT_VECTOR_ELT 5 4 2 in
  let pre := [copy 0 q0; mkInstr G_IMPLICIT_DEF [def 1]; cst 2 64 0] in
  let MRI :=
    {| Insts := pre ++ [shuffle; add; extract];
       VRegToType := [v2s32; v2s32; s64; v2s32; v2s32; s32] |} in
  let rf :=
    setReg 2 (VScalar 64 (Some 0))
      (setReg 1 (VVector 32 [None; None])
         (setReg 0 (VVector 32 [Some 10; Some 20]) noRegs)) in
  let sum := Some (VScalar 32 (Some 30)) in
  exists MRI' seq,
    rewriteWith (applyExtractVecEltPairwiseAdd 5 (G_FADD, s32, 0%nat)) MRI
    = Ok MRI'
    /\ Insts MRI' = (pre ++ [shuffle; add]) ++ seq ++ []
    /\ (exists rf1,
          execInsts fadd MRI [shuffle; add; extract] rf = Some rf1
          /\ rf1 5%nat = sum)
    /\ (exists rf2,
          execInsts fadd MRI' ([shuffle; add] ++ seq) rf = Some rf2
          /\ rf2 5%nat = sum).
Proof.
  intros fadd shuffle add extract pre MRI rf sum.
  apply (pairwise_add_rewrite_same_value fadd MRI pre [] 0 1 3 4 2 5 s32
           32 32 64 (Some 10) (Some 20) [] [None; None] [-1] false rf);
    try reflexivity; try (simpl; lia); try discriminate.
Defined.

(** ** The store and merge rules keep what the function computes *)

(** X17.  The store rule keeps the contents of memory.  Take a 128-bit store of
    a vector whose bits are all zero, to an address held in an existing
    register.  Apply replaces it by the sequence with the two 64-bit
    stores, and from every state the original store and the sequence leave
    the same byte at every address, the address of the upper half wrapping
    at 64 bits. *)
Theorem split_store_rewrite_same_memory
    (fadd : Z -> Z -> Z -> Z) (MRI : MachineRegisterInfo)
    (pre post : list MachineInstr) (v A : Register)
    (MMO : MachineMemOperand)
    (rf : RegFile) (mem : Memory) (val : RegValue) (addr : Z) :
  let MI := store v A MMO in
  let n := length (VRegToType MRI) in
  InstrAt MRI pre MI post ->
  isVector (getType MRI v) = true ->
  (A < n)%nat ->
  getMemSizeInBits MMO = 128 ->
  rf v = Some val ->
  valueBits val = Some (128, 0) ->
  rf A = Some (VScalar 64 (Some addr)) ->
  exists MRI' seq rf' mem1 mem2,
    rewriteWith (applySplitStoreZero128 (length pre)) MRI = Ok MRI'
    /\ Insts MRI' = pre ++ seq ++ post
    /\ evalInstrMem fadd MRI MI (rf, mem) = Some (rf, mem1)
    /\ execInstsMem fadd MRI' seq (rf, mem) = Some (rf', mem2)
    /\ (forall p, mem1 p = mem2 p).
Proof.
  intros MI n Hat Hvec HAn Hsz Hv Hbits HA.
  pose proof (run_apply_split_store MI MRI pre post v A MMO
                eq_refl Hat eq_refl eq_refl eq_refl HAn Hvec) as Hrw.
  cbv zeta in Hrw. fold n in Hrw.
  eexists. eexists.
  destruct (split_store_same_memory fadd
              {| Insts :=
                   pre ++ [cst n 64 0; cst (1 + n) 64 8;
                           binop G_PTR_ADD (2 + n) A (1 + n);
                           store n A
                             (getMachineMemOperand MMO 0 (LLT_scalar 64));
                           store n (2 + n)
                             (getMachineMemOperand MMO 8 (LLT_scalar 64))]
                   ++ post;
                 VRegToType :=
                   VRegToType MRI
                   ++ [LLT_scalar 64; LLT_scalar 64; getType MRI A] |}
              v A MMO n rf mem val addr Hsz Hv Hbits HA HAn)
    as (rf' & mem1 & mem2 & H1 & H2 & H3).
  exists rf', mem1, mem2.
  split; [exact Hrw|]. cbn [Insts]. split; [reflexivity|].
  split; [|split; [exact H2 | exact H3]].
  unfold MI, evalInstrMem, store in *.
  cbn [Opc Operands MemOperands use] in *. exact H1.
Qed.

Lemma split_store_rewrite_same_memory_witness :
  let fadd := fun (_ a b : Z) => a + b in
  let rf :=
    setReg 2 (VVector 64 [Some 0; Some 0])
      (setReg 0 (VScalar 64 (Some 4096)) noRegs) in
  let mem : Memory := fun _ => 255 in
  exists MRI' seq rf' mem1 mem2,
    rewriteWith (applySplitStoreZero128 3) (storeFunction 0 []) = Ok MRI'
    /\ Insts MRI' =
       [copy 0 x0; cst 1 64 0; binop G_BUILD_VECTOR 2 1 1] ++ seq ++ []
    /\ evalInstrMem fadd (storeFunction 0 []) (store 2 0 storeMMO) (rf, mem)
       = Some (rf, mem1)
    /\ execInstsMem fadd MRI' seq (rf, mem) = Some (rf', mem2)
    /\ (forall p, mem1 p = mem2 p).
Proof.
  intros fadd rf mem.
  apply (split_store_rewrite_same_memory fadd (storeFunction 0 [])
           [copy 0 x0; cst 1 64 0; binop G_BUILD_VECTOR 2 1 1] []
           2 0 storeMMO rf mem (VVector 64 [Some 0; Some 0]) 4096);
    try reflexivity.
  simpl. lia.
Defined.

(** X18.  The merge rule keeps the value.  For a merge of a 32-bit register with
    a 32-bit register that holds zero, into a 64-bit destination, apply
    leaves an instruction that gives the destination, from every state,
    the value the merge gave it. *)
Theorem fold_merge_to_zext_rewrite_same_value
    (fadd : Z -> Z -> Z -> Z) (MRI : MachineRegisterInfo)
    (pre post : list MachineInstr) (d a z : Register) (x : option Z)
    (Observer : GISelChangeObserver) (rf : RegFile) :
  let MI := mkInstr G_MERGE_VALUES [def d; use a; use z] in
  InstrAt MRI pre MI post ->
  getType MRI d = LLT_scalar 64 ->
  rf a = Some (VScalar 32 x) ->
  rf z = Some (VScalar 32 (Some 0)) ->
  exists MRI' Observer' MI',
    applyFoldMergeToZext (length pre) MRI Observer = Ok (MRI', Observer')
    /\ Insts MRI' = pre ++ MI' :: post
    /\ evalInstr fadd MRI' MI' rf = evalInstr fadd MRI MI rf
    /\ evalInstr fadd MRI MI rf = Some (setReg d (VScalar 64 x) rf).
Proof.
  intros MI Hat Hd Ha Hz.
  assert (Happ : applyFoldMergeToZext (length pre) MRI Observer
                 = Ok ({| Insts := pre ++ mkInstr G_ZEXT [def d; use a]
                                          :: post;
                          VRegToType := VRegToType MRI |},
                       Observer ++ [changingInstr (length pre)]
                                ++ [changedInstr (length pre)])).
  { unfold applyFoldMergeToZext. unfold InstrAt in Hat. rewrite Hat.
    rewrite nth_error_app2 by lia. rewrite Nat.sub_diag.
    cbn [nth_error deref bind].
    unfold removeOperand, setDesc, MI, mkInstr.
    cbn [Operands Opc MemOperands length Nat.ltb Nat.leb assert bind].
    unfold mutateInstr. rewrite Hat, replaceAt_app.
    rewrite <- !app_assoc. reflexivity. }
  eexists. eexists. eexists.
  split; [exact Happ|]. cbn [Insts]. split; [reflexivity|].
  split.
  - subst MI.
    rewrite (fold_merge_to_zext_same_value fadd MRI d a z x rf Hd Ha Hz).
    reflexivity.
  - unfold MI, evalInstr. cbn [mkInstr Opc Operands def use].
    rewrite Ha, Hz. destruct x as [k|]; cbn [lift2]; [|reflexivity].
    now rewrite Z.mul_0_l, Z.add_0_r.
Qed.

Lemma fold_merge_to_zext_rewrite_same_value_witness :
  let fadd := fun (_ a b : Z) => a + b in
  let rf :=
    setReg 1 (VScalar 32 (Some 0))
      (setReg 0 (VScalar 32 (Some 7)) noRegs) in
  exists MRI' Observer' MI',
    applyFoldMergeToZext 2 (mergeFunction (cst 1 32 0)) []
    = Ok (MRI', Observer')
    /\ Insts MRI' = [copy 0 w0; cst 1 32 0] ++ MI' :: []
    /\ evalInstr fadd MRI' MI' rf
       = evalInstr fadd (mergeFunction (cst 1 32 0)) mergeInstr rf
    /\ evalInstr fadd (mergeFunction (cst 1 32 0)) mergeInstr rf
       = Some (setReg 2 (VScalar 64 (Some 7)) rf).
Proof.
  intros fadd rf.
  apply (fold_merge_to_zext_rewrite_same_value fadd
           (mergeFunction (cst 1 32 0)) [copy 0 w0; cst 1 32 0] []
           2 0 1 (Some 7) [] rf); reflexivity.
Defined.
